(** * hootrhino/sqlparser: the parser state machine, the validator and the
      condition evaluators, embedded from [sql.go] and [query.go].

    Go strings are byte strings: they are modelled by [string] (a list of
    [ascii] bytes), indices are byte offsets.  Go maps with string keys are
    [gmap string _]; a [nil] map and an empty map are identified (the code
    reads both alike and writes only to maps it has made). *)

From Stdlib Require Import ZArith NArith Ascii String List Bool Lia.
From Stdlib Require Import Floats.SpecFloat DecimalString.
From stdpp Require Import base option list strings gmap.

Local Open Scope string_scope.
Local Open Scope nat_scope.

(** ** Byte strings *)

Module GoString.

Definition len (s : string) : nat := String.length s.

(** [s[lo:hi]] for [lo <= hi <= len s]. *)
Definition slice (s : string) (lo hi : nat) : string :=
  String.substring lo (hi - lo) s.

(** [s[lo:]]. *)
Definition from (s : string) (lo : nat) : string :=
  String.substring lo (len s - lo) s.

Definition byte_in (lo hi c : ascii) : bool :=
  (N_of_ascii lo <=? N_of_ascii c)%N && (N_of_ascii c <=? N_of_ascii hi)%N.

(** [s[i] == c], for an index in range. *)
Definition at_is (s : string) (i : nat) (c : ascii) : bool :=
  match String.get i s with
  | Some d => Ascii.eqb d c
  | None => false
  end.

Definition upper_byte (c : ascii) : ascii :=
  if byte_in "a" "z" c then ascii_of_N (N_of_ascii c - 32) else c.

(** [strings.ToUpper].  Exact on ASCII text and on the two letters outside
    ASCII whose upper case is an ASCII letter (U+0131, bytes C4 B1, to [I];
    U+017F, bytes C5 BF, to [S]).  Every other byte above 127 is kept as it
    is: the parser only ever compares the result with an ASCII word, and the
    result of [strings.ToUpper] holds a byte above 127 there as well. *)
Fixpoint ToUpper (s : string) : string :=
  match s with
  | EmptyString => EmptyString
  | String c rest =>
      match rest with
      | String d rest' =>
          if Ascii.eqb c (ascii_of_N 196) && Ascii.eqb d (ascii_of_N 177)
          then String "I" (ToUpper rest')
          else if Ascii.eqb c (ascii_of_N 197) && Ascii.eqb d (ascii_of_N 191)
          then String "S" (ToUpper rest')
          else String (upper_byte c) (ToUpper rest)
      | EmptyString => String (upper_byte c) EmptyString
      end
  end.

(** The white space of [unicode.IsSpace], as UTF-8 byte sequences: the six
    ASCII ones, U+0085, U+00A0, U+1680, U+2000..U+200A, U+2028, U+2029,
    U+202F, U+205F and U+3000. *)
Definition ascii_space (c : ascii) : bool :=
  let n := N_of_ascii c in ((9 <=? n) && (n <=? 13) || (n =? 32))%N.

Definition space2 (a b : ascii) : bool :=
  (N_of_ascii a =? 194)%N && ((N_of_ascii b =? 133) || (N_of_ascii b =? 160))%N.

Definition space3 (a b c : ascii) : bool :=
  let x := N_of_ascii a in
  let y := N_of_ascii b in
  let z := N_of_ascii c in
  ((x =? 225) && (y =? 154) && (z =? 128)
   || (x =? 226) && (y =? 128)
      && ((128 <=? z) && (z <=? 138) || (z =? 168) || (z =? 169) || (z =? 175))
   || (x =? 226) && (y =? 129) && (z =? 159)
   || (x =? 227) && (y =? 128) && (z =? 128))%N.

Fixpoint trim_left (fuel : nat) (l : list ascii) : list ascii :=
  match fuel with
  | O => l
  | S fuel' =>
      match l with
      | a :: l1 =>
          if ascii_space a then trim_left fuel' l1
          else match l1 with
               | b :: l2 =>
                   if space2 a b then trim_left fuel' l2
                   else match l2 with
                        | c :: l3 => if space3 a b c then trim_left fuel' l3 else l
                        | [] => l
                        end
               | [] => l
               end
      | [] => l
      end
  end.

(** The same scan from the end, on the reversed bytes. *)
Fixpoint trim_right_rev (fuel : nat) (l : list ascii) : list ascii :=
  match fuel with
  | O => l
  | S fuel' =>
      match l with
      | a :: l1 =>
          if ascii_space a then trim_right_rev fuel' l1
          else match l1 with
               | b :: l2 =>
                   if space2 b a then trim_right_rev fuel' l2
                   else match l2 with
                        | c :: l3 => if space3 c b a then trim_right_rev fuel' l3 else l
                        | [] => l
                        end
               | [] => l
               end
      | [] => l
      end
  end.

(** [strings.TrimSpace]. *)
Definition TrimSpace (s : string) : string :=
  let l := trim_left (len s) (list_ascii_of_string s) in
  string_of_list_ascii (rev (trim_right_rev (List.length l) (rev l))).

(** [strings.Split(s, sep)] for a one-byte separator: never empty, the
    empty string gives one empty part. *)
Fixpoint Split (s : string) (sep : ascii) : list string :=
  match s with
  | EmptyString => [EmptyString]
  | String c rest =>
      if Ascii.eqb c sep then EmptyString :: Split rest sep
      else match Split rest sep with
           | part :: parts => String c part :: parts
           | [] => [String c EmptyString]
           end
  end.

(** [strings.Join]. *)
Fixpoint Join (l : list string) (sep : string) : string :=
  match l with
  | [] => ""
  | [x] => x
  | x :: rest => x ++ sep ++ Join rest sep
  end.

End GoString.

Import GoString.

(** ** Package [query]: the query model *)

Module query.

(** [Type]: the kind of statement. *)
Inductive Type_ : Set :=
| UnknownType | Select | Update | Insert | Delete | Create.

Inductive Operator : Set :=
| UnknownOperator | Eq | Ne | Gt | Lt | Gte | Lte | Like | NotLike | In | NotIn.

Definition Type_eqb (a b : Type_) : bool :=
  match a, b with
  | UnknownType, UnknownType | Select, Select | Update, Update
  | Insert, Insert | Delete, Delete | Create, Create => true
  | _, _ => false
  end.

Definition Operator_eqb (a b : Operator) : bool :=
  match a, b with
  | UnknownOperator, UnknownOperator | Eq, Eq | Ne, Ne | Gt, Gt | Lt, Lt
  | Gte, Gte | Lte, Lte | Like, Like | NotLike, NotLike | In, In
  | NotIn, NotIn => true
  | _, _ => false
  end.

(** [Operator.String]. *)
Definition Operator_String (o : Operator) : string :=
  match o with
  | Eq => "="
  | Ne => "!="
  | Gt => ">"
  | Lt => "<"
  | Gte => ">="
  | Lte => "<="
  | Like => "LIKE"
  | NotLike => "NOT LIKE"
  | In => "IN"
  | NotIn => "NOT IN"
  | UnknownOperator => "UnknownOperator"
  end.

Record Condition : Type := mkCondition {
  Operand1 : string;
  Operand1IsField : bool;
  Operator_ : Operator;
  Operand2 : string;
  Operand2IsField : bool;
  InValues : list string
}.

Record Query : Type := mkQuery {
  Type' : Type_;
  TableName : string;
  Conditions : list Condition;
  Updates : gmap string string;
  Inserts : list (list string);
  Fields : list string;
  Aliases : gmap string string;
  CreateFields : gmap string string
}.

(** The zero value [Query{}]. *)
Definition zero : Query :=
  mkQuery UnknownType "" [] ∅ [] [] ∅ ∅.

Definition set_Operator (c : Condition) (o : Operator) : Condition :=
  mkCondition (Operand1 c) (Operand1IsField c) o (Operand2 c)
    (Operand2IsField c) (InValues c).

Definition set_Operand2 (c : Condition) (s : string) (isField : bool) : Condition :=
  mkCondition (Operand1 c) (Operand1IsField c) (Operator_ c) s isField (InValues c).

Definition set_InValues (c : Condition) (l : list string) : Condition :=
  mkCondition (Operand1 c) (Operand1IsField c) (Operator_ c) (Operand2 c)
    (Operand2IsField c) l.

Definition set_Type (q : Query) (t : Type_) : Query :=
  mkQuery t (TableName q) (Conditions q) (Updates q) (Inserts q) (Fields q)
    (Aliases q) (CreateFields q).

Definition set_TableName (q : Query) (s : string) : Query :=
  mkQuery (Type' q) s (Conditions q) (Updates q) (Inserts q) (Fields q)
    (Aliases q) (CreateFields q).

Definition set_Conditions (q : Query) (l : list Condition) : Query :=
  mkQuery (Type' q) (TableName q) l (Updates q) (Inserts q) (Fields q)
    (Aliases q) (CreateFields q).

Definition set_Updates (q : Query) (m : gmap string string) : Query :=
  mkQuery (Type' q) (TableName q) (Conditions q) m (Inserts q) (Fields q)
    (Aliases q) (CreateFields q).

Definition set_Inserts (q : Query) (l : list (list string)) : Query :=
  mkQuery (Type' q) (TableName q) (Conditions q) (Updates q) l (Fields q)
    (Aliases q) (CreateFields q).

Definition set_Fields (q : Query) (l : list string) : Query :=
  mkQuery (Type' q) (TableName q) (Conditions q) (Updates q) (Inserts q) l
    (Aliases q) (CreateFields q).

Definition set_Aliases (q : Query) (m : gmap string string) : Query :=
  mkQuery (Type' q) (TableName q) (Conditions q) (Updates q) (Inserts q)
    (Fields q) m (CreateFields q).

Definition set_CreateFields (q : Query) (m : gmap string string) : Query :=
  mkQuery (Type' q) (TableName q) (Conditions q) (Updates q) (Inserts q)
    (Fields q) (Aliases q) m.

End query.

(** ** Package [sqlparser]: tokenizer and parser state machine *)

Inductive step : Set :=
| stepType
| stepSelectField
| stepSelectFrom
| stepSelectComma
| stepSelectFromTable
| stepInsertTable
| stepInsertFieldsOpeningParens
| stepInsertFields
| stepInsertFieldsCommaOrClosingParens
| stepInsertValuesOpeningParens
| stepInsertValuesRWord
| stepInsertValues
| stepInsertValuesCommaOrClosingParens
| stepInsertValuesCommaBeforeOpeningParens
| stepUpdateTable
| stepUpdateSet
| stepUpdateField
| stepUpdateEquals
| stepUpdateValue
| stepUpdateComma
| stepDeleteFromTable
| stepWhere
| stepWhereField
| stepWhereOperator
| stepWhereValue
| stepWhereAnd
| stepCreateTable
| stepParseCreateFields
| stepWhereInOpeningParens
| stepWhereInValue
| stepWhereInCommaOrClosingParens.

(** An [error] is its message; [None] is [nil]. *)
Definition error : Type := option string.

Record parser : Type := mkParser {
  i : nat;
  sql : string;
  step_ : step;
  query_ : query.Query;
  err : error;
  nextUpdateField : string
}.

Definition set_i (p : parser) (n : nat) : parser :=
  mkParser n (sql p) (step_ p) (query_ p) (err p) (nextUpdateField p).

Definition set_step (p : parser) (s : step) : parser :=
  mkParser (i p) (sql p) s (query_ p) (err p) (nextUpdateField p).

Definition set_query (p : parser) (q : query.Query) : parser :=
  mkParser (i p) (sql p) (step_ p) q (err p) (nextUpdateField p).

Definition set_nextUpdateField (p : parser) (s : string) : parser :=
  mkParser (i p) (sql p) (step_ p) (query_ p) (err p) s.

Definition reservedWords : list string :=
  [ "("; ")"; ">="; "<="; "!="; ","; "="; ">"; "<"; "SELECT"; "INSERT INTO";
    "VALUES"; "UPDATE"; "DELETE FROM"; "WHERE"; "FROM"; "SET"; "AS";
    "CREATE TABLE"; "LIKE"; "NOT LIKE"; "IN"; "NOT IN" ].

Definition quote : ascii := "'"%char.
Definition backslash : ascii := "\"%char.

(** The loop of [peekQuotedStringWithLength]: [j] runs from [p.i + 1], [n]
    bounds the positions left, [prev] is [p.sql[j-1]]. *)
Fixpoint scanQuoted (s : string) (start j n : nat) (prev : ascii) : string * nat :=
  match n with
  | O => ("", 0)
  | S n' =>
      match String.get j s with
      | Some c =>
          if Ascii.eqb c quote && negb (Ascii.eqb prev backslash)
          then (slice s (start + 1) j, len (slice s (start + 1) j) + 2)
          else scanQuoted s start (j + 1) n' c
      | None => ("", 0)
      end
  end.

(** [peekQuotedStringWithLength]; [None] is the run-time panic of
    [p.sql[p.i]] at [p.i = len(p.sql)], which the guard [len(p.sql) < p.i]
    lets through. *)
Definition peekQuotedStringWithLength (p : parser) : option (string * nat) :=
  if len (sql p) <? i p then Some ("", 0)
  else match String.get (i p) (sql p) with
       | None => None
       | Some c =>
           if negb (Ascii.eqb c quote) then Some ("", 0)
           else Some (scanQuoted (sql p) (i p) (i p + 1) (len (sql p) - (i p + 1)) c)
       end.

Definition isIdentChar (ch : ascii) : bool :=
  byte_in "a" "z" ch || byte_in "A" "Z" ch || byte_in "0" "9" ch
  || Ascii.eqb ch "_" || Ascii.eqb ch "*" || Ascii.eqb ch ".".

(** The loop of [peekIdentifierWithLength], from index [j] with [n]
    positions left. *)
Fixpoint scanIdentifier (s : string) (start j n : nat) : string * nat :=
  match n with
  | O => (from s start, len s - start)
  | S n' =>
      match String.get j s with
      | Some ch =>
          if negb (isIdentChar ch) then (slice s start j, j - start)
          else scanIdentifier s start (j + 1) n'
      | None => (from s start, len s - start)
      end
  end.

Definition peekIdentifierWithLength (p : parser) : string * nat :=
  scanIdentifier (sql p) (i p) (i p) (len (sql p) - i p).

(** The loop of [peekWithLength] over the reserved words. *)
Fixpoint peekReserved (p : parser) (words : list string) : option (string * nat) :=
  match words with
  | [] => None
  | rWord :: rest =>
      let token := ToUpper (slice (sql p) (i p) (Nat.min (len (sql p)) (i p + len rWord))) in
      if String.eqb token rWord then Some (token, len token)
      else peekReserved p rest
  end.

Definition peekWithLength (p : parser) : string * nat :=
  if len (sql p) <=? i p then ("", 0)
  else match peekReserved p reservedWords with
       | Some r => r
       | None =>
           if at_is (sql p) (i p) quote
           then default ("", 0) (peekQuotedStringWithLength p)
           else peekIdentifierWithLength p
       end.

Definition peek (p : parser) : string := fst (peekWithLength p).

Fixpoint skipSpaces (s : string) (j n : nat) : nat :=
  match n with
  | O => j
  | S n' => if at_is s j " " then skipSpaces s (j + 1) n' else j
  end.

Definition popWhitespace (p : parser) : parser :=
  set_i p (skipSpaces (sql p) (i p) (len (sql p) - i p)).

(** [pop]: the parser after the token (the token itself is never used). *)
Definition pop (p : parser) : parser :=
  popWhitespace (set_i p (i p + snd (peekWithLength p))).

Definition isIdentStart (c : ascii) : bool :=
  byte_in "a" "z" c || byte_in "A" "Z" c || Ascii.eqb c "_".

(** [isIdentifier].  The pattern [[a-zA-Z_][a-zA-Z_0-9]*] is not anchored:
    [regexp.MatchString] finds it in [s] exactly when [s] holds a letter or
    an underscore somewhere. *)
Definition isIdentifier (s : string) : bool :=
  if existsb (fun rw => String.eqb (ToUpper s) rw) reservedWords then false
  else existsb isIdentStart (list_ascii_of_string s).

Definition isIdentifierOrAsterisk (s : string) : bool :=
  isIdentifier s || String.eqb s "*".

(** One turn of the [for] loop of [doParse], after its test [p.i >= len(p.sql)]:
    [Next] goes round again, [Return p e] is [return p.query, e] with the
    parser left as [p], [Panic] is a run-time panic (an index out of range). *)
Inductive outcome : Type :=
| Next (p : parser)
| Return (p : parser) (e : error)
| Panic.

Definition errorf (p : parser) (msg : string) : outcome := Return p (Some msg).

Definition setTableName (p : parser) (s : string) : parser :=
  set_query p (query.set_TableName (query_ p) s).

Definition appendField (p : parser) (s : string) : parser :=
  set_query p (query.set_Fields (query_ p) (query.Fields (query_ p) ++ [s])).

(** [l[len(l)-1] = x] on a list that is not empty. *)
Definition setLast {A : Type} (l : list A) (x : A) : list A :=
  <[length l - 1 := x]> l.

Definition setLastCondition (p : parser) (c : query.Condition) : parser :=
  set_query p (query.set_Conditions (query_ p) (setLast (query.Conditions (query_ p)) c)).

Definition operatorOf (token : string) : option query.Operator :=
  if String.eqb token "=" then Some query.Eq
  else if String.eqb token ">" then Some query.Gt
  else if String.eqb token ">=" then Some query.Gte
  else if String.eqb token "<" then Some query.Lt
  else if String.eqb token "<=" then Some query.Lte
  else if String.eqb token "!=" then Some query.Ne
  else if String.eqb token "LIKE" then Some query.Like
  else if String.eqb token "NOT LIKE" then Some query.NotLike
  else if String.eqb token "IN" then Some query.In
  else if String.eqb token "NOT IN" then Some query.NotIn
  else None.

Definition isIn (o : query.Operator) : bool :=
  query.Operator_eqb o query.In || query.Operator_eqb o query.NotIn.

Definition isLike (o : query.Operator) : bool :=
  query.Operator_eqb o query.Like || query.Operator_eqb o query.NotLike.

Definition dquote : string := String (ascii_of_nat 34) EmptyString.

Definition typeStep (p : parser) : outcome :=
  let QType := ToUpper (peek p) in
  if String.eqb QType "SELECT" then
    Next (set_step (pop (set_query p (query.set_Type (query_ p) query.Select))) stepSelectField)
  else if String.eqb QType "INSERT INTO" then
    Next (set_step (pop (set_query p (query.set_Type (query_ p) query.Insert))) stepInsertTable)
  else if String.eqb QType "UPDATE" then
    Next (set_step
            (pop (set_query p (query.set_Updates (query.set_Type (query_ p) query.Update) ∅)))
            stepUpdateTable)
  else if String.eqb QType "DELETE FROM" then
    Next (set_step (pop (set_query p (query.set_Type (query_ p) query.Delete))) stepDeleteFromTable)
  else if String.eqb QType "CREATE TABLE" then
    let p1 := set_step (pop (set_query p (query.set_Type (query_ p) query.Create))) stepCreateTable in
    Next (set_query p1 (query.set_CreateFields (query_ p1) ∅))
  else errorf p "invalid query type".

Definition createTableStep (p : parser) : outcome :=
  let tableName := peek p in
  if String.eqb tableName "" then errorf p "missing table name"
  else
    let p1 := pop (setTableName p tableName) in
    let leftBracket := peek p1 in
    if negb (String.eqb leftBracket "(") then errorf p1 "syntax error, expect '("
    else Next (pop (set_step p1 stepParseCreateFields)).

Definition parseCreateFieldsStep (p : parser) : outcome :=
  let field := peek p in
  if String.eqb field "" then errorf p "syntax error, expect filed name"
  else
    let p1 := pop p in
    let Type_ := peek p1 in
    if String.eqb Type_ "" then errorf p1 "syntax error, expect filed type"
    else
      let p2 := pop p1 in
      let p3 := set_query p2
                  (query.set_CreateFields (query_ p2)
                     (<[field := Type_]> (query.CreateFields (query_ p2)))) in
      let NToken := peek p3 in
      if String.eqb NToken "," then Next (set_step (pop p3) stepParseCreateFields)
      else if String.eqb NToken ")" then Next (pop p3)
      else errorf p3 "syntax error, expect ')'".

Definition selectFieldStep (p : parser) : outcome :=
  let identifier := peek p in
  if negb (isIdentifierOrAsterisk identifier)
  then errorf p "at SELECT: expected field to SELECT"
  else
    let p1 := pop (appendField p identifier) in
    let maybeFrom := peek p1 in
    let afterAlias : parser + outcome :=
      if String.eqb (ToUpper maybeFrom) "AS" then
        let p2 := pop p1 in
        let alias := peek p2 in
        if negb (isIdentifier alias)
        then inr (errorf p2 ("at SELECT: expected field alias for " ++ dquote ++ identifier
                               ++ " as" ++ dquote ++ " to SELECT"))
        else inl (pop (set_query p2
                         (query.set_Aliases (query_ p2)
                            (<[identifier := alias]> (query.Aliases (query_ p2))))))
      else inl p1 in
    match afterAlias with
    | inr o => o
    | inl p3 =>
        if String.eqb (ToUpper (peek p3)) "FROM" then Next (set_step p3 stepSelectFrom)
        else Next (set_step p3 stepSelectComma)
    end.

(** The states that read a table name and move on. *)
Definition tableStep (p : parser) (msg : string) (next : step) : outcome :=
  let tableName := peek p in
  if len tableName =? 0 then errorf p msg
  else Next (set_step (pop (setTableName p tableName)) next).

(** The states that expect one fixed token and move on. *)
Definition expectStep (p : parser) (ok : bool) (msg : string) (next : step) : outcome :=
  if negb ok then errorf p msg else Next (set_step (pop p) next).

Definition updateFieldStep (p : parser) : outcome :=
  let identifier := peek p in
  if negb (isIdentifier identifier)
  then errorf p "at UPDATE: expected at least one field to update"
  else Next (set_step (pop (set_nextUpdateField p identifier)) stepUpdateEquals).

Definition updateValueStep (p : parser) : outcome :=
  match peekQuotedStringWithLength p with
  | None => Panic
  | Some (quotedValue, ln) =>
      if ln =? 0 then errorf p "at UPDATE: expected quoted value"
      else
        let p1 := set_query p
                    (query.set_Updates (query_ p)
                       (<[nextUpdateField p := quotedValue]> (query.Updates (query_ p)))) in
        let p2 := pop (set_nextUpdateField p1 "") in
        if String.eqb (ToUpper (peek p2)) "WHERE" then Next (set_step p2 stepWhere)
        else Next (set_step p2 stepUpdateComma)
  end.

Definition whereFieldStep (p : parser) : outcome :=
  let identifier := peek p in
  if negb (isIdentifier identifier) then errorf p "at WHERE: expected field"
  else
    let c := query.mkCondition identifier true query.UnknownOperator "" false [] in
    let p1 := set_query p
                (query.set_Conditions (query_ p) (query.Conditions (query_ p) ++ [c])) in
    Next (set_step (pop p1) stepWhereOperator).

Definition whereOperatorStep (p : parser) : outcome :=
  let operator := peek p in
  match last (query.Conditions (query_ p)) with
  | None => Panic
  | Some currentCondition =>
      match operatorOf operator with
      | None => errorf p "at WHERE: unknown operator"
      | Some o =>
          let p1 := pop (setLastCondition p (query.set_Operator currentCondition o)) in
          if isIn o then Next (set_step p1 stepWhereInOpeningParens)
          else Next (set_step p1 stepWhereValue)
      end
  end.

Definition whereInValueStep (p : parser) : outcome :=
  match peekQuotedStringWithLength p with
  | None => Panic
  | Some (quotedValue, ln) =>
      if ln =? 0 then errorf p "at WHERE IN: expected quoted value"
      else
        match last (query.Conditions (query_ p)) with
        | None => Panic
        | Some currentCondition =>
            let c := query.set_InValues currentCondition
                       (query.InValues currentCondition ++ [quotedValue]) in
            Next (set_step (pop (setLastCondition p c)) stepWhereInCommaOrClosingParens)
        end
  end.

Definition whereInCommaOrClosingParensStep (p : parser) : outcome :=
  let commaOrClosingParens := peek p in
  if String.eqb commaOrClosingParens ""
  then errorf p "at WHERE IN: expected closing parenthesis"
  else
    let p1 := pop p in
    if String.eqb commaOrClosingParens "," then Next (set_step p1 stepWhereInValue)
    else if String.eqb commaOrClosingParens ")" then Next (set_step p1 stepWhereAnd)
    else errorf p1 "at WHERE IN: expected comma or closing parenthesis".

Definition whereValueStep (p : parser) : outcome :=
  match last (query.Conditions (query_ p)) with
  | None => Panic
  | Some currentCondition =>
      if isLike (query.Operator_ currentCondition) then
        match peekQuotedStringWithLength p with
        | None => Panic
        | Some (quotedValue, ln) =>
            if ln =? 0 then errorf p "at WHERE: expected quoted value for LIKE/NOT LIKE"
            else Next (set_step
                         (pop (setLastCondition p
                                 (query.set_Operand2 currentCondition quotedValue false)))
                         stepWhereAnd)
        end
      else
        let identifier := peek p in
        if isIdentifier identifier
        then Next (set_step
                     (pop (setLastCondition p
                             (query.set_Operand2 currentCondition identifier true)))
                     stepWhereAnd)
        else
          match peekQuotedStringWithLength p with
          | None => Panic
          | Some (quotedValue, ln) =>
              if ln =? 0 then errorf p "at WHERE: expected quoted value"
              else Next (set_step
                           (pop (setLastCondition p
                                   (query.set_Operand2 currentCondition quotedValue false)))
                           stepWhereAnd)
          end
  end.

Definition insertFieldsStep (p : parser) : outcome :=
  let identifier := peek p in
  if negb (isIdentifier identifier)
  then errorf p "at INSERT INTO: expected at least one field to insert"
  else Next (set_step (pop (appendField p identifier)) stepInsertFieldsCommaOrClosingParens).

Definition insertFieldsCommaOrClosingParensStep (p : parser) : outcome :=
  let commaOrClosingParens := peek p in
  if negb (String.eqb commaOrClosingParens ",") && negb (String.eqb commaOrClosingParens ")")
  then errorf p "at INSERT INTO: expected comma or closing parens"
  else
    let p1 := pop p in
    if String.eqb commaOrClosingParens "," then Next (set_step p1 stepInsertFields)
    else Next (set_step p1 stepInsertValuesRWord).

Definition insertValuesOpeningParensStep (p : parser) : outcome :=
  let openingParens := peek p in
  if negb (String.eqb openingParens "(")
  then errorf p "at INSERT INTO: expected opening parens"
  else
    let p1 := set_query p
                (query.set_Inserts (query_ p) (query.Inserts (query_ p) ++ [[]])) in
    Next (set_step (pop p1) stepInsertValues).

Definition insertValuesStep (p : parser) : outcome :=
  match peekQuotedStringWithLength p with
  | None => Panic
  | Some (quotedValue, ln) =>
      if ln =? 0 then errorf p "at INSERT INTO: expected quoted value"
      else
        match last (query.Inserts (query_ p)) with
        | None => Panic
        | Some row =>
            let p1 := set_query p
                        (query.set_Inserts (query_ p)
                           (setLast (query.Inserts (query_ p)) (row ++ [quotedValue])%list)) in
            Next (set_step (pop p1) stepInsertValuesCommaOrClosingParens)
        end
  end.

Definition insertValuesCommaOrClosingParensStep (p : parser) : outcome :=
  let commaOrClosingParens := peek p in
  if negb (String.eqb commaOrClosingParens ",") && negb (String.eqb commaOrClosingParens ")")
  then errorf p "at INSERT INTO: expected comma or closing parens"
  else
    let p1 := pop p in
    if String.eqb commaOrClosingParens "," then Next (set_step p1 stepInsertValues)
    else
      match last (query.Inserts (query_ p1)) with
      | None => Panic
      | Some currentInsertRow =>
          if length currentInsertRow <? length (query.Fields (query_ p1))
          then errorf p1 "at INSERT INTO: value count doesn't match field count"
          else Next (set_step p1 stepInsertValuesCommaBeforeOpeningParens)
      end.

(** The [switch p.step] of [doParse]. *)
Definition doStep (p : parser) : outcome :=
  match step_ p with
  | stepType => typeStep p
  | stepCreateTable => createTableStep p
  | stepParseCreateFields => parseCreateFieldsStep p
  | stepSelectField => selectFieldStep p
  | stepSelectComma =>
      expectStep p (String.eqb (peek p) ",") "at SELECT: expected comma or FROM" stepSelectField
  | stepSelectFrom =>
      expectStep p (String.eqb (ToUpper (peek p)) "FROM") "at SELECT: expected FROM"
        stepSelectFromTable
  | stepSelectFromTable => tableStep p "at SELECT: expected quoted table name" stepWhere
  | stepInsertTable =>
      tableStep p "at INSERT INTO: expected quoted table name" stepInsertFieldsOpeningParens
  | stepDeleteFromTable => tableStep p "at DELETE FROM: expected quoted table name" stepWhere
  | stepUpdateTable => tableStep p "at UPDATE: expected quoted table name" stepUpdateSet
  | stepUpdateSet =>
      expectStep p (String.eqb (peek p) "SET") "at UPDATE: expected 'SET'" stepUpdateField
  | stepUpdateField => updateFieldStep p
  | stepUpdateEquals =>
      expectStep p (String.eqb (peek p) "=") "at UPDATE: expected '='" stepUpdateValue
  | stepUpdateValue => updateValueStep p
  | stepUpdateComma =>
      expectStep p (String.eqb (peek p) ",") "at UPDATE: expected ','" stepUpdateField
  | stepWhere =>
      expectStep p (String.eqb (ToUpper (peek p)) "WHERE") "expected WHERE" stepWhereField
  | stepWhereField => whereFieldStep p
  | stepWhereOperator => whereOperatorStep p
  | stepWhereInOpeningParens =>
      expectStep p (String.eqb (peek p) "(") "at WHERE IN: expected opening parenthesis"
        stepWhereInValue
  | stepWhereInValue => whereInValueStep p
  | stepWhereInCommaOrClosingParens => whereInCommaOrClosingParensStep p
  | stepWhereValue => whereValueStep p
  | stepWhereAnd =>
      expectStep p (String.eqb (ToUpper (peek p)) "AND") "expected AND" stepWhereField
  | stepInsertFieldsOpeningParens =>
      expectStep p ((len (peek p) =? 1) && String.eqb (peek p) "(")
        "at INSERT INTO: expected opening parens" stepInsertFields
  | stepInsertFields => insertFieldsStep p
  | stepInsertFieldsCommaOrClosingParens => insertFieldsCommaOrClosingParensStep p
  | stepInsertValuesRWord =>
      expectStep p (String.eqb (ToUpper (peek p)) "VALUES") "at INSERT INTO: expected 'VALUES'"
        stepInsertValuesOpeningParens
  | stepInsertValuesOpeningParens => insertValuesOpeningParensStep p
  | stepInsertValues => insertValuesStep p
  | stepInsertValuesCommaOrClosingParens => insertValuesCommaOrClosingParensStep p
  | stepInsertValuesCommaBeforeOpeningParens =>
      expectStep p (String.eqb (ToUpper (peek p)) ",") "at INSERT INTO: expected comma"
        stepInsertValuesOpeningParens
  end.

(** [doParse].  Every turn of the loop that goes round again moves the cursor
    forward (see [doStep_progress]), so [fuel] turns with
    [len (sql p) - i p < fuel] are enough; [None] stands for no normal
    return: a panic, or [fuel] used up. *)
Fixpoint doParse (fuel : nat) (p : parser) : option (parser * error) :=
  match fuel with
  | O => None
  | S fuel' =>
      if len (sql p) <=? i p then Some (p, err p)
      else match doStep p with
           | Next p' => doParse fuel' p'
           | Return p' e => Some (p', e)
           | Panic => None
           end
  end.

Definition validateCondition (c : query.Condition) : error :=
  if query.Operator_eqb (query.Operator_ c) query.UnknownOperator
  then Some "at WHERE: condition without operator"
  else if String.eqb (query.Operand1 c) "" && query.Operand1IsField c
  then Some "at WHERE: condition with empty left side operand"
  else if isIn (query.Operator_ c)
  then (if length (query.InValues c) =? 0
        then Some "at WHERE: IN/NOT IN condition without values" else None)
  else (if String.eqb (query.Operand2 c) "" && query.Operand2IsField c
        then Some "at WHERE: condition with empty right side operand" else None).

Fixpoint validateConditions (l : list query.Condition) : error :=
  match l with
  | [] => None
  | c :: rest =>
      match validateCondition c with
      | Some e => Some e
      | None => validateConditions rest
      end
  end.


(** [validate]. *)
Definition validate (p : parser) : error :=
  let q := query_ p in
  if (length (query.Conditions q) =? 0)
     && match step_ p with stepWhereField => true | _ => false end
  then Some "at WHERE: empty WHERE clause"
  else if query.Type_eqb (query.Type' q) query.UnknownType
  then Some "query type cannot be empty"
  else if query.Type_eqb (query.Type' q) query.Create then None
  else if String.eqb (query.TableName q) "" then Some "table name cannot be empty"
  else if (length (query.Conditions q) =? 0)
          && (query.Type_eqb (query.Type' q) query.Update
              || query.Type_eqb (query.Type' q) query.Delete)
  then Some "at WHERE: WHERE clause is mandatory for UPDATE & DELETE"
  else match validateConditions (query.Conditions q) with
       | Some e => Some e
       | None =>
           if query.Type_eqb (query.Type' q) query.Insert
              && (length (query.Inserts q) =? 0)
           then Some "at INSERT INTO: need at least one row to insert"
           else if query.Type_eqb (query.Type' q) query.Insert
                   && negb (forallb (fun r => length r =? length (query.Fields q))
                              (query.Inserts q))
           then Some "at INSERT INTO: value count doesn't match field count"
           else None
       end.

(** The method [parser.parse] ([logError] only prints). *)
Definition parser_parse (p : parser) : option (query.Query * error) :=
  match doParse (S (len (sql p) - i p)) p with
  | None => None
  | Some (p', e) =>
      match e with
      | Some _ => Some (query_ p', e)
      | None => Some (query_ p', validate p')
      end
  end.

Definition initial (text : string) : parser :=
  mkParser 0 (TrimSpace text) stepType query.zero None "".

(** The function [parse]. *)
Definition parse (text : string) : option (query.Query * error) :=
  parser_parse (initial text).

(** [ParseMany]: the queries parsed before the first failure, and that
    failure. *)
Fixpoint ParseMany_from (qs : list query.Query) (sqls : list string)
  : option (list query.Query * error) :=
  match sqls with
  | [] => Some (qs, None)
  | text :: rest =>
      match parse text with
      | None => None
      | Some (q, Some e) => Some (qs, Some e)
      | Some (q, None) => ParseMany_from (qs ++ [q]) rest
      end
  end.

Definition ParseMany (sqls : list string) : option (list query.Query * error) :=
  ParseMany_from [] sqls.

(** [Parse]. *)
Definition Parse (sqls : string) : option (query.Query * error) :=
  match ParseMany [sqls] with
  | None => None
  | Some (qs, e) =>
      match qs with
      | [] => Some (query.zero, e)
      | q :: _ => Some (q, e)
      end
  end.


(** ** Records and the Go run-time *)

(** A value of type [any] by its dynamic type.  The evaluators tell apart
    [int], [int64], [float32], [float64], [string] and [map[string]any];
    [VOther] is a value of any other dynamic type, given by its [%v] text.
    A float comes with its [%v] text as well (the shortest decimal that reads
    back as the same float, which [strconv] computes): the evaluators compare
    the number and print the text. *)
#[warnings="-register-all"]
Inductive value : Type :=
| VNil
| VBool (b : bool)
| VInt (n : Z)
| VInt64 (n : Z)
| VFloat32 (f : spec_float) (text : string)
| VFloat64 (f : spec_float) (text : string)
| VString (s : string)
| VMap (m : gmap string value)
| VOther (text : string).

(** [map[string]any]. *)
Abbreviation row := (gmap string value).

(** What the evaluators and the renderer take from the Go run-time and
    standard library, which are not part of the repository:
    [strconv.ParseFloat(s, 64)] ([None] is an error), [regexp.MatchString]
    ([None] is an error: the pattern does not compile), and the order in
    which [range] visits a map, some enumeration of its entries. *)
Class Runtime : Type := {
  ParseFloat : string -> option spec_float;
  MatchString : string -> string -> option bool;
  Range : forall V : Type, gmap string V -> list (string * V);
  Range_perm : forall (V : Type) (m : gmap string V), Range V m ≡ₚ map_to_list m
}.

Arguments Range {_ _} _.

(** A [float64] is a [spec_float] of precision 53 and exponent bound 1024. *)
Definition float64_of_Z (n : Z) : spec_float := binary_normalize 53 1024 n 0 false.

Definition decimal (n : Z) : string := NilZero.string_of_int (Z.to_int n).

Fixpoint insertByKey (kv : string * string) (l : list (string * string))
  : list (string * string) :=
  match l with
  | [] => [kv]
  | kv' :: rest =>
      if String.leb (fst kv) (fst kv') then kv :: l else kv' :: insertByKey kv rest
  end.

Definition sortByKey (l : list (string * string)) : list (string * string) :=
  foldr insertByKey [] l.

Section Evaluator.

Context {rt : Runtime}.

(** [fmt.Sprintf("%v", v)]; a map prints its entries in the order of the
    keys. *)
Fixpoint Sprint (v : value) : string :=
  match v with
  | VNil => "<nil>"
  | VBool b => if b then "true" else "false"
  | VInt n => decimal n
  | VInt64 n => decimal n
  | VFloat32 _ text => text
  | VFloat64 _ text => text
  | VString s => s
  | VMap m =>
      "map["
      ++ Join (map (fun kv => fst kv ++ ":" ++ snd kv)
                 (sortByKey (map_to_list (Sprint <$> m)))) " "
      ++ "]"
  | VOther text => text
  end.

(** *** The iterative evaluator ([Filter]) *)

(** The [for i, part := range fieldParts] loop of [checkCondition]: [found]
    is the pair [value, exists] ([None] when [exists] is false), [None] is
    also the result of both [break]s. *)
Fixpoint resolveLoop (fieldParts rest : list string) (idx : nat) (currentMap : row)
    (found : option value) : option value :=
  match rest with
  | [] => found
  | part :: rest' =>
      if idx =? length fieldParts - 1
      then resolveLoop fieldParts rest' (idx + 1) currentMap (currentMap !! part)
      else match currentMap !! part with
           | None => None
           | Some (VMap nested) => resolveLoop fieldParts rest' (idx + 1) nested found
           | Some _ => None
           end
  end.

(** [strings.ReplaceAll] of one byte by a string. *)
Fixpoint ReplaceAll (s : string) (old : ascii) (new : string) : string :=
  match s with
  | EmptyString => EmptyString
  | String c rest =>
      if Ascii.eqb c old then new ++ ReplaceAll rest old new
      else String c (ReplaceAll rest old new)
  end.

(** [matched, _ := regexp.MatchString(pattern, s)]. *)
Definition matched (pattern s : string) : bool :=
  default false (MatchString pattern s).

Definition likePattern (operand2 : string) : string :=
  "^" ++ ReplaceAll (ReplaceAll operand2 "%" ".*") "_" "." ++ "$".

Definition checkCondition (r : row) (cond : query.Condition) : bool :=
  let fieldParts := Split (query.Operand1 cond) "." in
  match resolveLoop fieldParts fieldParts 0 r None with
  | None => false
  | Some value =>
      match query.Operator_ cond with
      | query.Eq => String.eqb (Sprint value) (query.Operand2 cond)
      | query.Ne => negb (String.eqb (Sprint value) (query.Operand2 cond))
      | query.Gt => String.ltb (query.Operand2 cond) (Sprint value)
      | query.Gte => String.leb (query.Operand2 cond) (Sprint value)
      | query.Lt => String.ltb (Sprint value) (query.Operand2 cond)
      | query.Lte => String.leb (Sprint value) (query.Operand2 cond)
      | query.Like =>
          match value with
          | VString stringValue => matched (likePattern (query.Operand2 cond)) stringValue
          | _ => false
          end
      | query.NotLike =>
          match value with
          | VString stringValue =>
              negb (matched (likePattern (query.Operand2 cond)) stringValue)
          | _ => false
          end
      | query.In =>
          existsb (fun inValue => String.eqb (Sprint value) inValue) (query.InValues cond)
      | query.NotIn =>
          negb (existsb (fun inValue => String.eqb (Sprint value) inValue)
                  (query.InValues cond))
      | query.UnknownOperator => false
      end
  end.

Fixpoint checkConditions_loop (r : row) (conditions : list query.Condition) : bool :=
  match conditions with
  | [] => true
  | cond :: rest =>
      if negb (checkCondition r cond) then false else checkConditions_loop r rest
  end.

Definition checkConditions (r : row) (conditions : list query.Condition) : bool :=
  if length conditions =? 0 then true else checkConditions_loop r conditions.

(** *** The recursive evaluator ([FilterRecursive]) *)

(** [getFieldValueRecursive]; [n] bounds the parts left after [partIndex]. *)
Fixpoint getFieldValueRecursive_n (n : nat) (data : row) (fieldParts : list string)
    (partIndex : nat) : option value :=
  match fieldParts !! partIndex with
  | None => None
  | Some currentPart =>
      match data !! currentPart with
      | None => None
      | Some value =>
          if partIndex =? length fieldParts - 1 then Some value
          else match value with
               | VMap nestedMap =>
                   match n with
                   | O => None
                   | S n' => getFieldValueRecursive_n n' nestedMap fieldParts (partIndex + 1)
                   end
               | _ => None
               end
      end
  end.

Definition getFieldValueRecursive (data : row) (fieldParts : list string)
    (partIndex : nat) : option value :=
  getFieldValueRecursive_n (length fieldParts - partIndex) data fieldParts partIndex.

Definition performNumericComparisonRecursive (val1 val2 : spec_float)
    (operation : string) : bool :=
  if String.eqb operation "eq" then SFeqb val1 val2
  else if String.eqb operation "gt" then SFltb val2 val1
  else if String.eqb operation "gte" then SFleb val2 val1
  else if String.eqb operation "lt" then SFltb val1 val2
  else if String.eqb operation "lte" then SFleb val1 val2
  else false.

Definition compareStringRecursive (val1 val2 operation : string) : bool :=
  if String.eqb operation "eq" then String.eqb val1 val2
  else if String.eqb operation "gt" then String.ltb val2 val1
  else if String.eqb operation "gte" then String.leb val2 val1
  else if String.eqb operation "lt" then String.ltb val1 val2
  else if String.eqb operation "lte" then String.leb val1 val2
  else false.

(** The type switch of [compareNumericRecursive]: the number a value is
    compared as, if any. *)
Definition numValue (v : value) : option spec_float :=
  match v with
  | VInt n => Some (float64_of_Z n)
  | VInt64 n => Some (float64_of_Z n)
  | VFloat32 f _ => Some f
  | VFloat64 f _ => Some f
  | VString s => ParseFloat s
  | _ => None
  end.

(** [compareNumericRecursive]: [None] is the second result [false]. *)
Definition compareNumericRecursive (v : value) (operand2 operation : string)
  : option bool :=
  match numValue v with
  | None => None
  | Some n =>
      match ParseFloat operand2 with
      | None => None
      | Some numOperand2 => Some (performNumericComparisonRecursive n numOperand2 operation)
      end
  end.

Definition compareValuesRecursive (v : value) (operand2 operation : string) : bool :=
  match compareNumericRecursive v operand2 operation with
  | Some numResult => numResult
  | None => compareStringRecursive (Sprint v) operand2 operation
  end.

Definition regexMeta (c : ascii) : bool :=
  existsb (Ascii.eqb c)
    (list_ascii_of_string (".*+?^$()[]{}|" ++ String backslash EmptyString)).

(** [string(b)] for a byte [b]: the UTF-8 text of the code point [b], two
    bytes from 128 on. *)
Definition string_of_byte (c : ascii) : string :=
  let n := N_of_ascii c in
  if (n <? 128)%N then String c EmptyString
  else String (ascii_of_N (192 + n / 64)) (String (ascii_of_N (128 + n mod 64)) EmptyString).

(** [convertLikePatternRecursive]; [n] bounds the bytes left from [index]. *)
Fixpoint convertLikePatternRecursive_n (n : nat) (pattern : string) (index : nat)
    (result : string) : string :=
  match String.get index pattern with
  | None => result
  | Some currentChar =>
      let result' :=
        if Ascii.eqb currentChar "%" then result ++ ".*"
        else if Ascii.eqb currentChar "_" then result ++ "."
        else if regexMeta currentChar
        then result ++ String backslash EmptyString ++ string_of_byte currentChar
        else result ++ string_of_byte currentChar in
      match n with
      | O => result'
      | S n' => convertLikePatternRecursive_n n' pattern (index + 1) result'
      end
  end.

Definition convertLikePatternRecursive (pattern : string) (index : nat)
    (result : string) : string :=
  convertLikePatternRecursive_n (len pattern - index) pattern index result.

Definition evaluateLikeRecursive (v : value) (pattern : string) : bool :=
  match v with
  | VString stringValue =>
      let regexPattern := convertLikePatternRecursive pattern 0 "" in
      match MatchString ("^" ++ regexPattern ++ "$") stringValue with
      | None => false
      | Some m => m
      end
  | _ => false
  end.

(** [evaluateInRecursive]; [n] bounds the values left from [index]. *)
Fixpoint evaluateInRecursive_n (n : nat) (v : value) (inValues : list string)
    (index : nat) : bool :=
  match inValues !! index with
  | None => false
  | Some inValue =>
      if String.eqb (Sprint v) inValue then true
      else match n with
           | O => false
           | S n' => evaluateInRecursive_n n' v inValues (index + 1)
           end
  end.

Definition evaluateInRecursive (v : value) (inValues : list string) (index : nat) : bool :=
  evaluateInRecursive_n (length inValues - index) v inValues index.

Definition evaluateOperatorRecursive (v : value) (cond : query.Condition) : bool :=
  match query.Operator_ cond with
  | query.Eq => compareValuesRecursive v (query.Operand2 cond) "eq"
  | query.Ne => negb (compareValuesRecursive v (query.Operand2 cond) "eq")
  | query.Gt => compareValuesRecursive v (query.Operand2 cond) "gt"
  | query.Gte => compareValuesRecursive v (query.Operand2 cond) "gte"
  | query.Lt => compareValuesRecursive v (query.Operand2 cond) "lt"
  | query.Lte => compareValuesRecursive v (query.Operand2 cond) "lte"
  | query.Like => evaluateLikeRecursive v (query.Operand2 cond)
  | query.NotLike => negb (evaluateLikeRecursive v (query.Operand2 cond))
  | query.In => evaluateInRecursive v (query.InValues cond) 0
  | query.NotIn => negb (evaluateInRecursive v (query.InValues cond) 0)
  | query.UnknownOperator => false
  end.

Definition evaluateConditionRecursive (r : row) (cond : query.Condition) : bool :=
  match getFieldValueRecursive r (Split (query.Operand1 cond) ".") 0 with
  | None => false
  | Some v => evaluateOperatorRecursive v cond
  end.

(** [evaluateConditionsRecursive]; [n] bounds the conditions left from
    [conditionIndex]. *)
Fixpoint evaluateConditionsRecursive_n (n : nat) (r : row)
    (conditions : list query.Condition) (conditionIndex : nat) : bool :=
  match conditions !! conditionIndex with
  | None => true
  | Some currentCondition =>
      if negb (evaluateConditionRecursive r currentCondition) then false
      else match n with
           | O => true
           | S n' => evaluateConditionsRecursive_n n' r conditions (conditionIndex + 1)
           end
  end.

Definition evaluateConditionsRecursive (r : row) (conditions : list query.Condition)
    (conditionIndex : nat) : bool :=
  evaluateConditionsRecursive_n (length conditions - conditionIndex) r conditions
    conditionIndex.

(** *** [Filter] and [FilterRecursive] *)

(** The loop [for key, row := range data] of both filters, over the entries
    in the order [range] gives them. *)
Definition filterRows (check : row -> bool) (entries : list (string * row))
  : gmap string row :=
  foldl (fun filteredData kr =>
           if check (snd kr) then <[fst kr := snd kr]> filteredData else filteredData)
    ∅ entries.

(** [Filter]: the pair of results; the map is [nil], here [∅], with an error. *)
Definition Filter (text : string) (data : gmap string row)
  : option (gmap string row * error) :=
  match Parse text with
  | None => None
  | Some (q, Some e) => Some (∅, Some ("failed to parse SQL: " ++ e))
  | Some (q, None) =>
      if negb (query.Type_eqb (query.Type' q) query.Select)
      then Some (∅, Some "only SELECT queries can be filtered")
      else Some (filterRows (fun r => checkConditions r (query.Conditions q)) (Range data),
                 None)
  end.

Definition FilterRecursive (text : string) (data : gmap string row)
  : option (gmap string row * error) :=
  match Parse text with
  | None => None
  | Some (q, Some e) => Some (∅, Some ("failed to parse SQL: " ++ e))
  | Some (q, None) =>
      if negb (query.Type_eqb (query.Type' q) query.Select)
      then Some (∅, Some "only SELECT queries can be filtered")
      else Some (filterRows (fun r => evaluateConditionsRecursive r (query.Conditions q) 0)
                   (Range data),
                 None)
  end.

(** *** [Query.String] *)

Definition quoted (s : string) : string := "'" ++ s ++ "'".

Definition renderCondition (cond : query.Condition) : string :=
  (if query.Operand1IsField cond then query.Operand1 cond
   else quoted (query.Operand1 cond))
  ++ " " ++ query.Operator_String (query.Operator_ cond) ++ " "
  ++ (if isIn (query.Operator_ cond)
      then "('" ++ Join (query.InValues cond) "', '" ++ "')"
      else if query.Operand2IsField cond then query.Operand2 cond
      else quoted (query.Operand2 cond)).

Definition renderWhere (conditions : list query.Condition) : string :=
  if 0 <? length conditions
  then " WHERE " ++ Join (map renderCondition conditions) " AND "
  else "".

Definition renderSelectField (aliases : gmap string string) (field : string) : string :=
  match aliases !! field with
  | Some alias => field ++ " AS " ++ alias
  | None => field
  end.

(** [Query.String]; the entries of [Updates] and [CreateFields] come in the
    order of [range]. *)
Definition Query_String (q : query.Query) : string :=
  match query.Type' q with
  | query.Select =>
      "SELECT "
      ++ (if 0 <? length (query.Fields q)
          then Join (map (renderSelectField (query.Aliases q)) (query.Fields q)) ", "
          else "*")
      ++ " FROM " ++ query.TableName q ++ renderWhere (query.Conditions q)
  | query.Insert =>
      "INSERT INTO " ++ query.TableName q ++ " (" ++ Join (query.Fields q) ", "
      ++ ") VALUES "
      ++ Join (map (fun r => "('" ++ Join r "', '" ++ "')") (query.Inserts q)) ", "
      ++ renderWhere (query.Conditions q)
  | query.Update =>
      "UPDATE " ++ query.TableName q ++ " SET "
      ++ Join (map (fun fv => fst fv ++ " = '" ++ snd fv ++ "'") (Range (query.Updates q)))
           ", "
      ++ renderWhere (query.Conditions q)
  | query.Delete =>
      "DELETE FROM " ++ query.TableName q ++ renderWhere (query.Conditions q)
  | query.Create =>
      "CREATE TABLE " ++ query.TableName q ++ " ("
      ++ Join (map (fun ft => fst ft ++ " " ++ snd ft) (Range (query.CreateFields q))) ", "
      ++ ")" ++ renderWhere (query.Conditions q)
  | query.UnknownType => ""
  end.

End Evaluator.

(** ** A run-time to run the code on sample inputs

    [Std] gives the three run-time functions on the fragment the samples
    need: [ParseFloat] on decimal literals (sign, digits, fraction,
    exponent), correctly rounded; [MatchString] on the anchored patterns made
    of plain ASCII bytes, escaped bytes, [.] and [.*], against ASCII text;
    [range] in the order of [map_to_list].  Texts outside the fragment
    (hexadecimal floats, infinities and NaN, any other pattern) are answered
    by an error, which the Go library does not do for all of them: the
    samples stay inside the fragment. *)

Module Std.

Definition digitVal (c : ascii) : option Z :=
  if byte_in "0" "9" c then Some (Z.of_N (N_of_ascii c) - 48)%Z else None.

(** The digits at the head of [l]: their value on top of [acc], how many
    they are, and the rest. *)
Fixpoint readDigits (l : list ascii) (acc : Z) (n : nat) : Z * nat * list ascii :=
  match l with
  | c :: rest =>
      match digitVal c with
      | Some d => readDigits rest (acc * 10 + d)%Z (S n)
      | None => (acc, n, l)
      end
  | [] => (acc, n, l)
  end.

Definition readSign (l : list ascii) : bool * list ascii :=
  match l with
  | c :: rest =>
      if Ascii.eqb c "+" then (false, rest)
      else if Ascii.eqb c "-" then (true, rest)
      else (false, l)
  | [] => (false, l)
  end.

(** The float64 nearest to [m * 10^e10], ties to even, for [0 < m]. *)
Definition roundDecimal (m e10 : Z) : spec_float :=
  if (0 <=? e10)%Z then binary_normalize 53 1024 (m * 10 ^ e10)%Z 0 false
  else
    let d := (10 ^ (- e10))%Z in
    let s := (Z.log2 d + 64)%Z in
    let n := (m * 2 ^ s)%Z in
    let sticky := if (n mod d =? 0)%Z then 0%Z else 1%Z in
    binary_normalize 53 1024 (2 * (n / d) + sticky)%Z (- (s + 1))%Z false.

Definition parseDecimal (s : string) : option spec_float :=
  let (neg, l0) := readSign (list_ascii_of_string s) in
  let '(ip, ni, l1) := readDigits l0 0%Z 0 in
  let '(m, nf, l2) :=
    match l1 with
    | c :: rest => if Ascii.eqb c "." then readDigits rest ip 0 else (ip, 0, l1)
    | [] => (ip, 0, l1)
    end in
  if ni + nf =? 0 then None
  else
    let e10 : option Z :=
      match l2 with
      | [] => Some 0%Z
      | c :: rest =>
          if Ascii.eqb c "e" || Ascii.eqb c "E" then
            let (eneg, l3) := readSign rest in
            let '(e, ne, l4) := readDigits l3 0%Z 0 in
            match l4 with
            | [] => if ne =? 0 then None else Some (if eneg then (- e)%Z else e)
            | _ :: _ => None
            end
          else None
      end in
    match e10 with
    | None => None
    | Some e =>
        if (m =? 0)%Z then Some (S754_zero neg)
        else
          match roundDecimal m (e - Z.of_nat nf) with
          | S754_infinity _ => None
          | f => Some (if neg then SFopp f else f)
          end
    end.

Inductive item : Set :=
| Lit (c : ascii)
| AnyOne
| AnyMany.

Definition isASCII (c : ascii) : bool := (N_of_ascii c <? 128)%N.

(** The items of a pattern after its [^], up to its closing [$]. *)
Fixpoint parseItems (fuel : nat) (l : list ascii) : option (list item) :=
  match fuel with
  | O => None
  | S fuel' =>
      match l with
      | [] => None
      | c :: rest =>
          if Ascii.eqb c "$" then (match rest with [] => Some [] | _ => None end)
          else if Ascii.eqb c backslash then
            match rest with
            | d :: rest' =>
                if regexMeta d then cons (Lit d) <$> parseItems fuel' rest' else None
            | [] => None
            end
          else if Ascii.eqb c "." then
            match rest with
            | d :: rest' =>
                if Ascii.eqb d "*" then cons AnyMany <$> parseItems fuel' rest'
                else cons AnyOne <$> parseItems fuel' rest
            | [] => None
            end
          else if regexMeta c || negb (isASCII c) then None
          else cons (Lit c) <$> parseItems fuel' rest
      end
  end.

Definition notNewline (c : ascii) : bool := negb (Ascii.eqb c (ascii_of_nat 10)).

Fixpoint matchItems (items : list item) (text : list ascii) : bool :=
  match items with
  | [] => match text with [] => true | _ => false end
  | Lit c :: items' =>
      match text with
      | d :: text' => Ascii.eqb c d && matchItems items' text'
      | [] => false
      end
  | AnyOne :: items' =>
      match text with
      | d :: text' => notNewline d && matchItems items' text'
      | [] => false
      end
  | AnyMany :: items' =>
      (fix many (t : list ascii) : bool :=
         matchItems items' t
         || match t with
            | d :: t' => notNewline d && many t'
            | [] => false
            end) text
  end.

Definition matchAnchored (pattern s : string) : option bool :=
  match list_ascii_of_string pattern with
  | c :: body =>
      if Ascii.eqb c "^" && forallb isASCII (list_ascii_of_string s) then
        match parseItems (S (List.length body)) body with
        | Some items => Some (matchItems items (list_ascii_of_string s))
        | None => None
        end
      else None
  | [] => None
  end.

#[export] Instance runtime : Runtime := {|
  ParseFloat := parseDecimal;
  MatchString := matchAnchored;
  Range := fun V m => map_to_list m;
  Range_perm := fun V m => reflexivity (map_to_list m)
|}.

End Std.

(** ** Specification vocabulary *)

(** The parser states the loop of [doParse] can be in: [reaches p p'] when
    turns of the loop lead from [p] to [p']. *)
Inductive reaches : parser -> parser -> Prop :=
| reaches_here (p : parser) : reaches p p
| reaches_turn (p p1 p' : parser) :
    i p < len (sql p) -> doStep p = Next p1 -> reaches p1 p' -> reaches p p'.

(** How the loop of [doParse] ends in a state: at the end of the text, or
    by a [return] of the state's case. *)
Inductive stops : parser -> parser -> error -> Prop :=
| stops_end (p : parser) : len (sql p) <= i p -> stops p p (err p)
| stops_return (p p' : parser) (e : error) :
    i p < len (sql p) -> doStep p = Return p' e -> stops p p' e.

(** What [Parse] returns when the loop stops in [p'] with [e]. *)
Definition finish (p' : parser) (e : error) : query.Query * error :=
  match e with
  | Some msg => (query.zero, Some msg)
  | None =>
      match validate p' with
      | Some msg => (query.zero, Some msg)
      | None => (query_ p', None)
      end
  end.

Definition whereKind (t : query.Type_) : bool :=
  match t with
  | query.Select | query.Update | query.Delete => true
  | _ => false
  end.

Definition whereOK (q : query.Query) : Prop :=
  whereKind (query.Type' q) = true /\ String.eqb (query.TableName q) "" = false.

(** The conditions before the last one are complete and the last one,
    under construction, satisfies [P]. *)
Definition lastIs (P : query.Condition -> bool) (conds : list query.Condition) : Prop :=
  exists init c, conds = (init ++ [c])%list /\ validateConditions init = None /\ P c = true.

Definition hasOperand1 (c : query.Condition) : bool :=
  negb (String.eqb (query.Operand1 c) "").

Definition awaitsValue (c : query.Condition) : bool :=
  hasOperand1 c
  && negb (query.Operator_eqb (query.Operator_ c) query.UnknownOperator)
  && negb (isIn (query.Operator_ c)).

Definition awaitsInValue (c : query.Condition) : bool :=
  hasOperand1 c && isIn (query.Operator_ c).

Definition hasInValue (c : query.Condition) : bool :=
  awaitsInValue c && negb (length (query.InValues c) =? 0).

(** What holds of the parser at each state of the machine, on every run
    from [initial]. *)
Definition Inv (p : parser) : Prop :=
  let q := query_ p in
  let complete := validateConditions (query.Conditions q) = None in
  match step_ p with
  | stepType => complete
  | stepSelectField | stepSelectComma | stepSelectFrom | stepSelectFromTable =>
      query.Type' q = query.Select /\ complete
  | stepDeleteFromTable => query.Type' q = query.Delete /\ complete
  | stepUpdateTable => query.Type' q = query.Update /\ complete
  | stepUpdateSet | stepUpdateField | stepUpdateEquals | stepUpdateValue | stepUpdateComma =>
      query.Type' q = query.Update /\ String.eqb (query.TableName q) "" = false /\ complete
  | stepInsertValues | stepInsertValuesCommaOrClosingParens => query.Inserts q <> []
  | stepWhere | stepWhereField => whereOK q /\ complete
  | stepWhereAnd => whereOK q /\ complete /\ query.Conditions q <> []
  | stepWhereOperator => whereOK q /\ lastIs hasOperand1 (query.Conditions q)
  | stepWhereValue => whereOK q /\ lastIs awaitsValue (query.Conditions q)
  | stepWhereInOpeningParens | stepWhereInValue =>
      whereOK q /\ lastIs awaitsInValue (query.Conditions q)
  | stepWhereInCommaOrClosingParens => whereOK q /\ lastIs hasInValue (query.Conditions q)
  | _ => True
  end.

(** The tokenizer on the text that is left, [rest p]: what [peekWithLength]
    computes from the cursor on (see [peekWithLength_lex]). *)
Definition rest (p : parser) : string := from (sql p) (i p).

Definition prefix (k : nat) (s : string) : string := String.substring 0 k s.

Fixpoint lexReserved (r : string) (words : list string) : option (string * nat) :=
  match words with
  | [] => None
  | rWord :: words' =>
      let token := ToUpper (prefix (len rWord) r) in
      if String.eqb token rWord then Some (token, len token)
      else lexReserved r words'
  end.

(** The offset in [body] of the first quote that no backslash precedes,
    [prev] being the byte before [body]. *)
Fixpoint closingQuote (body : string) (prev : ascii) : option nat :=
  match body with
  | EmptyString => None
  | String c body' =>
      if Ascii.eqb c quote && negb (Ascii.eqb prev backslash) then Some 0
      else S <$> closingQuote body' c
  end.

Definition lexQuoted (r : string) : string * nat :=
  match r with
  | String c body =>
      if Ascii.eqb c quote then
        match closingQuote body c with
        | Some n => (prefix n body, n + 2)
        | None => ("", 0)
        end
      else ("", 0)
  | EmptyString => ("", 0)
  end.

Fixpoint identLen (r : string) : nat :=
  match r with
  | String c r' => if isIdentChar c then S (identLen r') else 0
  | EmptyString => 0
  end.

Definition lexIdentifier (r : string) : string * nat :=
  (prefix (identLen r) r, identLen r).

Definition lex (r : string) : string * nat :=
  match r with
  | EmptyString => ("", 0)
  | String c _ =>
      match lexReserved r reservedWords with
      | Some t => t
      | None => if Ascii.eqb c quote then lexQuoted r else lexIdentifier r
      end
  end.

Fixpoint skipSpace (r : string) : string :=
  match r with
  | String c r' => if Ascii.eqb c " " then skipSpace r' else r
  | EmptyString => r
  end.

(** The text left after the token at its head and the spaces behind it. *)
Definition afterToken (r : string) : string :=
  skipSpace (from r (snd (lex r))).

(** The parser after [n] turns of the loop of [doParse], or where the loop
    stops before. *)
Fixpoint turns (n : nat) (p : parser) : parser :=
  match n with
  | O => p
  | S n' =>
      if len (sql p) <=? i p then p
      else match doStep p with
           | Next p' => turns n' p'
           | _ => p
           end
  end.

(** A reserved word stands at the cursor, in any case of its letters. *)
Definition reservedAt (p : parser) (w : string) : Prop :=
  In w reservedWords /\ ToUpper (prefix (len w) (rest p)) = w.

(** The states whose token must pass [isIdentifier] (or be [*]) as the name
    of a field, and the error each returns otherwise. *)
Definition expectsFieldName (s : step) : bool :=
  match s with
  | stepSelectField | stepInsertFields | stepUpdateField | stepWhereField => true
  | _ => false
  end.

Definition fieldError (s : step) : string :=
  match s with
  | stepSelectField => "at SELECT: expected field to SELECT"
  | stepInsertFields => "at INSERT INTO: expected at least one field to insert"
  | stepUpdateField => "at UPDATE: expected at least one field to update"
  | _ => "at WHERE: expected field"
  end.

(** Resolution of a field path in a record, in the words of the
    specification: every segment but the last must be bound to a mapping,
    in which the walk goes on, and the last segment must be bound. *)
Fixpoint resolvePath (m : row) (parts : list string) : option value :=
  match parts with
  | [] => None
  | part :: parts' =>
      match parts' with
      | [] => m !! part
      | _ :: _ =>
          match m !! part with
          | Some (VMap nested) => resolvePath nested parts'
          | _ => None
          end
      end
  end.

(** The value the left operand of a condition resolves to. *)
Definition resolved (r : row) (cond : query.Condition) : option value :=
  resolvePath r (Split (query.Operand1 cond) ".").

Definition isComparison (o : query.Operator) : bool :=
  match o with
  | query.Gt | query.Gte | query.Lt | query.Lte => true
  | _ => false
  end.

(** The two comparisons of the ordering operators: of [float64] numbers,
    and of strings byte by byte. *)
Definition compareFloats (o : query.Operator) (a b : spec_float) : bool :=
  match o with
  | query.Gt => SFltb b a
  | query.Gte => SFleb b a
  | query.Lt => SFltb a b
  | query.Lte => SFleb a b
  | _ => false
  end.

Definition compareStrings (o : query.Operator) (x y : string) : bool :=
  match o with
  | query.Gt => String.ltb y x
  | query.Gte => String.leb y x
  | query.Lt => String.ltb x y
  | query.Lte => String.leb x y
  | _ => false
  end.

(** A byte of a LIKE pattern that both translations to a regular expression
    treat alike: ASCII and no metacharacter ([%] and [_] are such bytes). *)
Definition plainByte (c : ascii) : bool :=
  (N_of_ascii c <? 128)%N && negb (regexMeta c).

Definition plainPattern (s : string) : bool :=
  forallb plainByte (list_ascii_of_string s).

Definition isString (v : value) : bool :=
  match v with
  | VString _ => true
  | _ => false
  end.

Section Policies.

Context {rt : Runtime}.



(** Conditions on which the iterative and the recursive evaluator are shown
    to give the same result on the record [r]. *)
Definition agreeOn (r : row) (cond : query.Condition) : Prop :=
  match resolved r cond with
  | None => True
  | Some v =>
      match query.Operator_ cond with
      | query.In | query.NotIn | query.UnknownOperator => True
      | query.Like => isString v = false \/ plainPattern (query.Operand2 cond) = true
      | query.NotLike => isString v = true /\ plainPattern (query.Operand2 cond) = true
      | _ => numValue v = None \/ ParseFloat (query.Operand2 cond) = None
      end
  end.

End Policies.

(** ** Sample records: the first record of the test data, and one with a
       number *)

Definition sampleRow : row :=
  list_to_map
    [ ("id", VString "1"); ("name", VString "John Doe"); ("age", VString "30");
      ("status", VString "active"); ("city", VString "New York");
      ("address",
       VMap (list_to_map [("street", VString "123 Main St"); ("zip", VString "10001")])) ].

Definition sampleNumberRow : row :=
  list_to_map [("name", VString "Jane Smith"); ("age", VInt 25); ("level", VOther "30")].

Definition cond (operand1 : string) (o : query.Operator) (operand2 : string)
  : query.Condition :=
  query.mkCondition operand1 true o operand2 false [].

Definition sampleConditions : list query.Condition :=
  [ cond "status" query.Eq "active";
    query.mkCondition "id" true query.In "" false ["1"; "3"; "5"];
    cond "name" query.Like "John%";
    cond "address.zip" query.Ne "abc";
    cond "phone" query.Gt "5" ].

(** ** Vocabulary of the round trip through [Query.String] *)

(** Names that the tokenizer reads back as they are written, whatever
    follows them in a statement (nothing, a space, a comma or a closing
    parenthesis): not empty, made of the bytes that
    [peekIdentifierWithLength] takes into an identifier (letters, digits,
    the underscore, the asterisk and the dot), and such that no reserved
    word matches where the name begins ([clash]: the word is a prefix of the
    name, or the name followed by such a separator is a prefix of the
    word). *)
Definition nameByte (c : ascii) : bool := isIdentChar c.

Definition isSep (c : ascii) : bool :=
  Ascii.eqb c " " || Ascii.eqb c "," || Ascii.eqb c ")".

Definition clash (f w : string) : bool :=
  if len w <=? len f then String.eqb (ToUpper (prefix (len w) f)) w
  else String.eqb (ToUpper f) (prefix (len f) w)
       && match String.get (len f) w with
          | Some c => isSep c
          | None => false
          end.

Definition tokenName (f : string) : bool :=
  negb (String.eqb f "")
  && forallb nameByte (list_ascii_of_string f)
  && forallb (fun w => negb (clash f w)) reservedWords.

(** Such a name where the parser asks [isIdentifier]: the name of a field,
    an alias, an operand that is a field. *)
Definition plainName (f : string) : bool := isIdentifier f && tokenName f.

(** What may follow a name. *)
Definition tailSep (x : string) : Prop :=
  match x with
  | EmptyString => True
  | String c _ => isSep c = true
  end.

(** An ASCII byte. *)
Definition ascii7 (c : ascii) : bool := (N_of_ascii c <? 128)%N.

(** An ASCII byte that is no white space. *)
Definition inkByte (c : ascii) : bool := ascii7 c && negb (ascii_space c).

(** The parser is in state [st] with the query [q] and the text [r] left. *)
Definition at_state (p : parser) (st : step) (q : query.Query) (r : string) : Prop :=
  step_ p = st /\ query_ p = q /\ rest p = r /\ i p <= len (sql p).

(** A value that reads back from between quotes: the quote that closes it
    is the one written after it. *)
Definition literal (v : string) : bool :=
  match closingQuote (v ++ "'") quote with
  | Some n => n =? len v
  | None => false
  end.

(** What the field list of a SELECT may hold. *)
Definition fieldName (f : string) : bool := plainName f || String.eqb f "*".

(** A complete condition as the parser builds it, over plain names and
    literals: the left operand is a field; IN and NOT IN have values and no
    right operand; the other operators have a right operand that is a field
    (not under LIKE and NOT LIKE) or a literal, which [isIdentifier] does
    not accept where the parser asks it first. *)
Definition plainCondition (c : query.Condition) : bool :=
  query.Operand1IsField c && plainName (query.Operand1 c)
  && negb (query.Operator_eqb (query.Operator_ c) query.UnknownOperator)
  && (if isIn (query.Operator_ c)
      then String.eqb (query.Operand2 c) "" && negb (query.Operand2IsField c)
           && negb (length (query.InValues c) =? 0)
           && forallb literal (query.InValues c)
      else (length (query.InValues c) =? 0)
           && (if query.Operand2IsField c
               then plainName (query.Operand2 c) && negb (isLike (query.Operator_ c))
               else literal (query.Operand2 c)
                    && (isLike (query.Operator_ c)
                        || negb (isIdentifier (query.Operand2 c))))).

(** What the turn of [stepSelectField] makes of the query, on a field
    rendered with the aliases [A]. *)
Definition addField (A : gmap string string) (q : query.Query) (f : string) : query.Query :=
  let q1 := query.set_Fields q (query.Fields q ++ [f])%list in
  match A !! f with
  | Some a => query.set_Aliases q1 (<[f := a]> (query.Aliases q))
  | None => q1
  end.

(** The state after a field of a SELECT, by the token [r] behind it. *)
Definition nextSelect (r : string) : step :=
  if String.eqb (ToUpper r) "FROM" then stepSelectFrom else stepSelectComma.

(** The aliases after one more field. *)
Definition aliasStep (A B : gmap string string) (f : string) : gmap string string :=
  match A !! f with
  | Some a => <[f := a]> B
  | None => B
  end.

(** The last byte of [s] is an ASCII byte that is no white space. *)
Definition lastInk (s : string) : bool :=
  match rev (list_ascii_of_string s) with
  | b :: _ => inkByte b
  | [] => false
  end.

(** How [Query.String] writes a row of an INSERT, an assignment of an
    UPDATE and a column of a CREATE TABLE. *)
Definition renderRow (r : list string) : string := "('" ++ Join r "', '" ++ "')".

Definition renderUpdate (fv : string * string) : string :=
  fst fv ++ " = '" ++ snd fv ++ "'".

Definition renderCreate (ft : string * string) : string := fst ft ++ " " ++ snd ft.

(** The state after a value of an UPDATE, by the token [r] behind it. *)
Definition nextUpdate (r : string) : step :=
  if String.eqb (ToUpper r) "WHERE" then stepWhere else stepUpdateComma.

(** [m[k] = v]. *)
Definition putEntry (m : gmap string string) (kv : string * string) : gmap string string :=
  <[fst kv := snd kv]> m.

(** The queries that [Query.String] renders into a text that reads back:
    every name in them is read back as it is written (and is accepted by
    [isIdentifier] where the parser asks that), every value is a literal,
    and they have the shape of their kind. *)
Definition plainQuery (q : query.Query) : Prop :=
  tokenName (query.TableName q) = true
  /\ Forall (fun c => plainCondition c = true) (query.Conditions q)
  /\ match query.Type' q with
     | query.Select =>
         query.Fields q <> []
         /\ Forall (fun f => fieldName f = true) (query.Fields q)
         /\ (forall f a, query.Aliases q !! f = Some a ->
                         f ∈ query.Fields q /\ plainName a = true)
         /\ query.Updates q = ∅ /\ query.Inserts q = [] /\ query.CreateFields q = ∅
     | query.Delete =>
         query.Conditions q <> []
         /\ query.Fields q = [] /\ query.Aliases q = ∅
         /\ query.Updates q = ∅ /\ query.Inserts q = [] /\ query.CreateFields q = ∅
     | query.Insert =>
         query.Conditions q = []
         /\ query.Fields q <> []
         /\ Forall (fun f => plainName f = true) (query.Fields q)
         /\ query.Inserts q <> []
         /\ Forall (fun r => length r = length (query.Fields q)
                             /\ Forall (fun v => literal v = true) r) (query.Inserts q)
         /\ query.Aliases q = ∅ /\ query.Updates q = ∅ /\ query.CreateFields q = ∅
     | query.Update =>
         query.Conditions q <> []
         /\ query.Updates q <> ∅
         /\ (forall f v, query.Updates q !! f = Some v ->
                         plainName f = true /\ literal v = true)
         /\ query.Fields q = [] /\ query.Aliases q = ∅
         /\ query.Inserts q = [] /\ query.CreateFields q = ∅
     | query.Create =>
         query.Conditions q = []
         /\ query.CreateFields q <> ∅
         /\ (forall f ty, query.CreateFields q !! f = Some ty ->
                          tokenName f = true /\ tokenName ty = true)
         /\ query.Fields q = [] /\ query.Aliases q = ∅
         /\ query.Updates q = ∅ /\ query.Inserts q = []
     | query.UnknownType => False
     end.

(** The shape of the query in the states of the machine ([Shape]): what
    the parser has made of a condition, complete or not. *)
Definition condShape (c : query.Condition) : Prop :=
  query.Operand1IsField c = true
  /\ Forall (fun v => literal v = true) (query.InValues c)
  /\ (if isIn (query.Operator_ c)
      then query.Operand2 c = "" /\ query.Operand2IsField c = false
      else query.InValues c = [])
  /\ (if query.Operand2IsField c
      then isLike (query.Operator_ c) = false
      else literal (query.Operand2 c) = true
           /\ (isLike (query.Operator_ c) = false ->
               isIdentifier (query.Operand2 c) = false)).

(** A condition that has its left operand only. *)
Definition freshCondition (c : query.Condition) : bool :=
  query.Operator_eqb (query.Operator_ c) query.UnknownOperator
  && String.eqb (query.Operand2 c) "" && negb (query.Operand2IsField c)
  && (length (query.InValues c) =? 0).

(** The parts of a [Query] that its kind leaves empty. *)
Definition kindShape (q : query.Query) : Prop :=
  match query.Type' q with
  | query.Select =>
      query.Updates q = ∅ /\ query.Inserts q = [] /\ query.CreateFields q = ∅
      /\ (forall f a, query.Aliases q !! f = Some a -> f ∈ query.Fields q)
      /\ (query.TableName q <> "" -> query.Fields q <> [])
  | query.Delete =>
      query.Fields q = [] /\ query.Aliases q = ∅ /\ query.Updates q = ∅
      /\ query.Inserts q = [] /\ query.CreateFields q = ∅
  | query.Update =>
      query.Fields q = [] /\ query.Aliases q = ∅
      /\ query.Inserts q = [] /\ query.CreateFields q = ∅
      /\ (query.Conditions q <> [] -> query.Updates q <> ∅)
  | query.Insert =>
      query.Conditions q = [] /\ query.Aliases q = ∅ /\ query.Updates q = ∅
      /\ query.CreateFields q = ∅
      /\ (query.Inserts q <> [] -> query.Fields q <> [])
      /\ Forall (fun f => isIdentifier f = true) (query.Fields q)
  | query.Create =>
      query.Conditions q = [] /\ query.Fields q = [] /\ query.Aliases q = ∅
      /\ query.Updates q = ∅ /\ query.Inserts q = []
  | query.UnknownType => q = query.zero
  end.

(** An UPDATE reaches its WHERE clause with an assignment. *)
Definition whereShape (q : query.Query) : Prop :=
  query.Type' q = query.Update -> query.Updates q <> ∅.

(** What each state of the machine adds to that. *)
Definition stepShape (p : parser) : Prop :=
  let q := query_ p in
  match step_ p with
  | stepType => query.Type' q = query.UnknownType
  | stepSelectComma | stepSelectFrom | stepSelectFromTable => query.Fields q <> []
  | stepInsertTable | stepInsertFieldsOpeningParens | stepInsertFields =>
      query.Type' q = query.Insert
  | stepInsertFieldsCommaOrClosingParens | stepInsertValuesRWord
  | stepInsertValuesOpeningParens | stepInsertValues
  | stepInsertValuesCommaOrClosingParens | stepInsertValuesCommaBeforeOpeningParens =>
      query.Type' q = query.Insert /\ query.Fields q <> []
  | stepCreateTable | stepParseCreateFields => query.Type' q = query.Create
  | stepWhere | stepWhereField | stepWhereAnd | stepWhereValue
  | stepWhereInOpeningParens | stepWhereInValue | stepWhereInCommaOrClosingParens =>
      whereShape q
  | stepWhereOperator => whereShape q /\ lastIs freshCondition (query.Conditions q)
  | stepUpdateComma => query.Updates q <> ∅
  | _ => True
  end.

(** The values read from between quotes are literals. *)
Definition valuesShape (q : query.Query) : Prop :=
  Forall condShape (query.Conditions q)
  /\ Forall (Forall (fun v => literal v = true)) (query.Inserts q)
  /\ (forall f v, query.Updates q !! f = Some v -> literal v = true).

Definition Shape (p : parser) : Prop :=
  kindShape (query_ p) /\ stepShape p /\ valuesShape (query_ p).

(** Every name in the query is one that the tokenizer reads back as it is
    written: the table name, the fields, the aliases, the operands that are
    fields, the fields of the assignments, the columns and their types. *)
Definition tokenNames (q : query.Query) : Prop :=
  tokenName (query.TableName q) = true
  /\ Forall (fun f => tokenName f = true) (query.Fields q)
  /\ (forall f a, query.Aliases q !! f = Some a -> tokenName a = true)
  /\ Forall (fun c => tokenName (query.Operand1 c) = true
                      /\ (query.Operand2IsField c = true ->
                          tokenName (query.Operand2 c) = true))
       (query.Conditions q)
  /\ (forall f v, query.Updates q !! f = Some v -> tokenName f = true)
  /\ (forall f ty, query.CreateFields q !! f = Some ty ->
                   tokenName f = true /\ tokenName ty = true).

(** ** Vocabulary of the further properties *)

(** The keyword that opens a statement of each kind. *)
Definition typeKeyword (t : query.Type_) : string :=
  match t with
  | query.Select => "SELECT"
  | query.Insert => "INSERT INTO"
  | query.Update => "UPDATE"
  | query.Delete => "DELETE FROM"
  | query.Create => "CREATE TABLE"
  | query.UnknownType => ""
  end.

Definition typeKeywords : list string :=
  ["SELECT"; "INSERT INTO"; "UPDATE"; "DELETE FROM"; "CREATE TABLE"].

(** The byte before position [j] of a text that follows the byte [prev]. *)
Definition byteBefore (body : string) (prev : ascii) (j : nat) : option ascii :=
  match j with
  | O => Some prev
  | S j' => String.get j' body
  end.

(** The values a query holds: those of its rows, of its assignments and of
    its conditions, in a list or as a right operand that is no field. *)
Definition valueOf (q : query.Query) (v : string) : Prop :=
  (exists r, r ∈ query.Inserts q /\ v ∈ r)
  \/ (exists f, query.Updates q !! f = Some v)
  \/ (exists c, c ∈ query.Conditions q
                /\ (v ∈ query.InValues c
                    \/ (query.Operand2IsField c = false /\ query.Operand2 c = v))).

(** The operands of a condition that are fields have passed [isIdentifier]. *)
Definition condNames (c : query.Condition) : Prop :=
  isIdentifier (query.Operand1 c) = true
  /\ (query.Operand2IsField c = true -> isIdentifier (query.Operand2 c) = true).

(** The names the parser has put into the query have passed [isIdentifier]
    (or are the asterisk, for a field), and so has the field of the
    assignment under way. *)
Definition Names (p : parser) : Prop :=
  let q := query_ p in
  Forall (fun f => isIdentifierOrAsterisk f = true) (query.Fields q)
  /\ (forall f a, query.Aliases q !! f = Some a -> isIdentifier a = true)
  /\ Forall condNames (query.Conditions q)
  /\ (forall f v, query.Updates q !! f = Some v -> isIdentifier f = true)
  /\ match step_ p with
     | stepUpdateEquals | stepUpdateValue => isIdentifier (nextUpdateField p) = true
     | _ => True
     end.

(** Samples: a parser at the quoted value of a condition, with a quote
    behind a backslash in it; statements of three kinds as [Parse] returns
    them; a dataset of two records. *)
Definition sampleQuoted : parser :=
  mkParser 4 "a = 'it\'s' AND b" stepWhereValue query.zero None "".

Definition sampleDelete : query.Query :=
  query.mkQuery query.Delete "t"
    [query.mkCondition "a" true query.Eq "1" false [];
     query.mkCondition "b" true query.In "" false ["x"; "y"]]
    ∅ [] [] ∅ ∅.

Definition sampleSelect : query.Query :=
  query.mkQuery query.Select "t"
    [query.mkCondition "a" true query.Gt "b" true []]
    ∅ [] ["a"; "c"] {[ "c" := "d" ]} ∅.

Definition sampleUpdate : query.Query :=
  query.mkQuery query.Update "t"
    [query.mkCondition "b" true query.Eq "1" false []]
    {[ "a" := "it\'s" ]} [] [] ∅ ∅.

Definition sampleData : gmap string row :=
  {[ "1" := sampleRow; "2" := sampleNumberRow ]}.

(** * Properties *)

(** ** The tokenizer *)

Lemma length_substring_le (n m : nat) (s : string) :
  String.length (String.substring n m s) <= m.
Proof.
  revert n m; induction s as [|c s IH]; intros [|n] [|m]; simpl; try lia.
  - specialize (IH 0 m); lia.
  - apply (IH n 0).
  - apply (IH n (S m)).
Qed.

Lemma substring_zero (n : nat) (s : string) : String.substring n 0 s = "".
Proof.
  revert n; induction s as [|c s IH]; intros [|n]; simpl; auto.
Qed.

Lemma peekReserved_Some (p : parser) (words : list string) (r : string * nat) :
  peekReserved p words = Some r -> In (fst r) words /\ snd r = len (fst r).
Proof.
  induction words as [|w words IH]; simpl; [discriminate|].
  destruct (String.eqb_spec
              (ToUpper (slice (sql p) (i p) (Nat.min (len (sql p)) (i p + len w)))) w)
    as [E|_].
  - intros [= <-]; simpl; rewrite E; auto.
  - intros H; destruct (IH H); auto.
Qed.

Lemma reservedWords_nonempty (w : string) : In w reservedWords -> 0 < len w.
Proof.
  unfold reservedWords; simpl.
  intros H; repeat (destruct H as [<-|H]; [simpl; lia|]); destruct H.
Qed.

Lemma scanQuoted_length (s : string) (start j n : nat) (prev : ascii) :
  fst (scanQuoted s start j n prev) <> "" -> 0 < snd (scanQuoted s start j n prev).
Proof.
  revert j prev; induction n as [|n IH]; intros j prev; simpl; [congruence|].
  destruct (String.get j s) as [c|]; simpl; [|congruence].
  destruct (Ascii.eqb c quote && negb (Ascii.eqb prev backslash)); simpl; [lia|].
  apply IH.
Qed.

Lemma scanIdentifier_length (s : string) (start j n : nat) :
  fst (scanIdentifier s start j n) <> "" -> 0 < snd (scanIdentifier s start j n).
Proof.
  assert (Hsub : forall a b, String.substring a b s <> "" -> 0 < b).
  { intros a [|b] H; [|lia]. now rewrite substring_zero in H. }
  revert j; induction n as [|n IH]; intros j; simpl.
  - unfold from; apply Hsub.
  - destruct (String.get j s) as [ch|]; simpl; [|unfold from; apply Hsub].
    destruct (isIdentChar ch); simpl; [apply IH|unfold slice; apply Hsub].
Qed.

(** A token that is not empty has a positive length. *)
Lemma peekWithLength_length (p : parser) :
  peek p <> "" -> 0 < snd (peekWithLength p).
Proof.
  unfold peek, peekWithLength.
  destruct (len (sql p) <=? i p); [cbn [fst snd]; congruence|].
  destruct (peekReserved p reservedWords) as [[t n]|] eqn:E.
  - apply peekReserved_Some in E as [Hin Hs]. intros _.
    cbn [fst snd] in *; subst n. now apply reservedWords_nonempty.
  - destruct (at_is (sql p) (i p) quote).
    + unfold peekQuotedStringWithLength.
      destruct (len (sql p) <? i p); [cbn; congruence|].
      destruct (String.get (i p) (sql p)) as [c|]; [|cbn; congruence].
      destruct (negb (Ascii.eqb c quote)); [cbn; congruence|].
      cbn [default from_option]. apply scanQuoted_length.
    + apply scanIdentifier_length.
Qed.

(** Where [peekQuotedStringWithLength] finds a literal, [peekWithLength]
    finds a token of positive length. *)
Lemma peekWithLength_quoted (p : parser) (quotedValue : string) (ln : nat) :
  i p < len (sql p) ->
  peekQuotedStringWithLength p = Some (quotedValue, ln) -> ln <> 0 ->
  0 < snd (peekWithLength p).
Proof.
  intros Hi Hq Hln. unfold peekWithLength.
  destruct (Nat.leb_spec (len (sql p)) (i p)) as [?|_]; [lia|].
  destruct (peekReserved p reservedWords) as [r|] eqn:E.
  - destruct r as [t n]. apply peekReserved_Some in E as [Hin Hs].
    cbn [fst snd] in *; subst n. now apply reservedWords_nonempty.
  - assert (Hat : at_is (sql p) (i p) quote = true).
    { revert Hq. unfold peekQuotedStringWithLength, at_is.
      destruct (len (sql p) <? i p); [intros [= _ <-]; congruence|].
      destruct (String.get (i p) (sql p)) as [c|]; [|discriminate].
      destruct (Ascii.eqb c quote); simpl; [reflexivity|].
      intros [= _ <-]; congruence. }
    rewrite Hat, Hq; simpl; lia.
Qed.

Lemma skipSpaces_ge (s : string) (j n : nat) : j <= skipSpaces s j n.
Proof.
  revert j; induction n as [|n IH]; intros j; simpl; [lia|].
  destruct (at_is s j " "); [|lia]. specialize (IH (j + 1)); lia.
Qed.

Lemma sql_pop (p : parser) : sql (pop p) = sql p.
Proof. reflexivity. Qed.

Lemma step_pop (p : parser) : step_ (pop p) = step_ p.
Proof. reflexivity. Qed.

Lemma query_pop (p : parser) : query_ (pop p) = query_ p.
Proof. reflexivity. Qed.

Lemma pop_ge (p : parser) : i p + snd (peekWithLength p) <= i (pop p).
Proof.
  unfold pop, popWhitespace; cbn [i set_i sql].
  apply skipSpaces_ge.
Qed.

Lemma pop_gt (p : parser) : peek p <> "" -> i p < i (pop p).
Proof.
  intros H. pose proof (peekWithLength_length p H). pose proof (pop_ge p). lia.
Qed.

(** The tokenizer reads the cursor and the text only. *)
Lemma peekWithLength_cursor (p p' : parser) :
  i p = i p' -> sql p = sql p' -> peekWithLength p = peekWithLength p'.
Proof.
  destruct p, p'; simpl; intros -> ->. reflexivity.
Qed.

(** ** Termination: every turn of the loop moves the cursor forward *)

Lemma pop_ge' (p X : parser) : i X = i p -> sql X = sql p -> i p <= i (pop X).
Proof.
  intros Hi Hs. pose proof (pop_ge X). lia.
Qed.

Lemma pop_gt' (p X : parser) :
  i X = i p -> sql X = sql p -> peek p <> "" -> i p < i (pop X).
Proof.
  intros Hi Hs H. rewrite <- Hi. apply pop_gt.
  unfold peek. rewrite (peekWithLength_cursor X p Hi Hs). exact H.
Qed.

Lemma pop_gt_quoted (p X : parser) (quotedValue : string) (ln : nat) :
  i X = i p -> sql X = sql p -> i p < len (sql p) ->
  peekQuotedStringWithLength p = Some (quotedValue, ln) -> (ln =? 0) = false ->
  i p < i (pop X).
Proof.
  intros Hi Hs Hlt Hq Hln. apply Nat.eqb_neq in Hln.
  pose proof (peekWithLength_quoted p quotedValue ln Hlt Hq Hln).
  pose proof (pop_ge X). rewrite (peekWithLength_cursor X p Hi Hs) in *. lia.
Qed.

Ltac peek_nonempty :=
  let H := fresh in
  intros H; rewrite H in *;
  try discriminate; simpl in *; try discriminate; try congruence.

Ltac first_pop p :=
  match goal with
  | |- context [pop ?X] =>
      lazymatch X with
      | context [pop _] => fail
      | _ => idtac
      end;
      first [ assert (i p < i (pop X)) by (apply pop_gt'; [reflexivity|reflexivity|peek_nonempty])
            | match goal with
              | Hq : peekQuotedStringWithLength p = Some (_, _) |- _ =>
                  assert (i p < i (pop X)) by (eapply pop_gt_quoted; eauto)
              end ]
  end.

Ltac later_pops :=
  repeat match goal with
  | |- context [pop ?X] =>
      lazymatch goal with
      | _ : i X + _ <= i (pop X) |- _ => fail
      | _ => pose proof (pop_ge X)
      end
  end.

(** One goal of [doStep_progress]: the first [pop] of the turn moves the
    cursor forward, the later ones do not move it back. *)
Ltac progress_tac p :=
  intros [= <-]; (split; [reflexivity|]);
  cbn [i set_step set_query set_nextUpdateField setTableName appendField setLastCondition];
  first_pop p; later_pops;
  cbn [i set_step set_query set_nextUpdateField setTableName appendField setLastCondition] in *;
  lia.

Ltac unfold_steps :=
  unfold typeStep, selectFieldStep, createTableStep, parseCreateFieldsStep, tableStep,
    expectStep, updateFieldStep, updateValueStep, whereFieldStep, whereOperatorStep,
    whereInValueStep, whereInCommaOrClosingParensStep, whereValueStep, insertFieldsStep,
    insertFieldsCommaOrClosingParensStep, insertValuesOpeningParensStep, insertValuesStep,
    insertValuesCommaOrClosingParensStep, errorf in *.

Lemma doStep_progress (p p' : parser) :
  i p < len (sql p) -> doStep p = Next p' -> sql p' = sql p /\ i p < i p'.
Proof.
  intros Hlt. unfold doStep.
  destruct (step_ p); unfold_steps;
    repeat case_match; try discriminate; simplify_eq; progress_tac p.
Qed.

(** ** The invariant of the state machine: no panic, and a well-formed
       WHERE clause under construction *)

Lemma validateConditions_app (a b : list query.Condition) :
  validateConditions (a ++ b)%list =
  match validateConditions a with
  | Some e => Some e
  | None => validateConditions b
  end.
Proof.
  induction a as [|c a IH]; simpl; [reflexivity|].
  destruct (validateCondition c); [reflexivity|apply IH].
Qed.

Lemma setLast_snoc {A : Type} (l : list A) (x y : A) : setLast (l ++ [x])%list y = (l ++ [y])%list.
Proof.
  unfold setLast. rewrite length_app; simpl.
  replace (length l + 1 - 1) with (length l + 0) by lia.
  now rewrite insert_app_r.
Qed.

Lemma peekQuoted_Some (p : parser) :
  i p < len (sql p) -> peekQuotedStringWithLength p <> None.
Proof.
  intros Hlt. unfold peekQuotedStringWithLength.
  destruct (len (sql p) <? i p); [discriminate|].
  destruct (String.get (i p) (sql p)) as [c|] eqn:E.
  - destruct (negb (Ascii.eqb c quote)); discriminate.
  - exfalso. revert E Hlt. unfold len. generalize (i p) as n.
    induction (sql p) as [|c s IH]; intros [|n]; simpl; try lia; try discriminate.
    intros E Hlt. apply (IH n E). lia.
Qed.

Lemma len_eqb_empty (s : string) : (len s =? 0) = false -> String.eqb s "" = false.
Proof. destruct s; simpl; [discriminate|reflexivity]. Qed.

Lemma isIdentifier_nonempty (s : string) :
  isIdentifier s = true -> String.eqb s "" = false.
Proof. destruct s; [discriminate|reflexivity]. Qed.


Lemma setLast_nonempty {A : Type} (l : list A) (x y : A) :
  last l = Some x -> setLast l y <> [].
Proof.
  intros H E. apply (f_equal length) in E. unfold setLast in E.
  rewrite length_insert in E. destruct l; [discriminate|discriminate].
Qed.

Lemma lastIs_last (P : query.Condition -> bool) (conds : list query.Condition)
    (c : query.Condition) :
  lastIs P conds -> last conds = Some c ->
  exists init, conds = (init ++ [c])%list /\ validateConditions init = None /\ P c = true.
Proof.
  intros (init & c0 & -> & Hinit & HP). rewrite last_snoc. intros [= <-]. eauto.
Qed.

Lemma complete_snoc (init : list query.Condition) (c : query.Condition) :
  validateConditions init = None -> validateCondition c = None ->
  validateConditions (init ++ [c])%list = None.
Proof.
  intros Hi Hc. rewrite validateConditions_app, Hi. simpl. now rewrite Hc.
Qed.

Lemma operatorOf_known (token : string) (o : query.Operator) :
  operatorOf token = Some o -> query.Operator_eqb o query.UnknownOperator = false.
Proof.
  unfold operatorOf. repeat case_match; intros [= <-]; reflexivity.
Qed.

Lemma awaitsValue_complete (c : query.Condition) (v : string) (isField : bool) :
  awaitsValue c = true -> (String.eqb v "" && isField) = false ->
  validateCondition (query.set_Operand2 c v isField) = None.
Proof.
  unfold awaitsValue, hasOperand1, validateCondition. destruct c as [o1 f1 op o2 f2 iv]; simpl.
  intros H Hv.
  destruct (query.Operator_eqb op query.UnknownOperator); [now rewrite andb_false_r in H|].
  destruct (String.eqb o1 ""); [discriminate|]. simpl in *.
  destruct (isIn op); [discriminate|]. now rewrite Hv.
Qed.

Lemma hasInValue_complete (c : query.Condition) :
  hasInValue c = true -> validateCondition c = None.
Proof.
  unfold hasInValue, awaitsInValue, hasOperand1, validateCondition.
  destruct c as [o1 f1 op o2 f2 iv]; simpl.
  destruct (String.eqb o1 ""); [discriminate|]. simpl.
  destruct (isIn op) eqn:E; [|discriminate]. simpl.
  destruct (query.Operator_eqb op query.UnknownOperator) eqn:E'.
  - destruct op; discriminate.
  - destruct (length iv =? 0); [discriminate|reflexivity].
Qed.

Lemma snoc_nonempty {A : Type} (l : list A) (x : A) : (l ++ [x])%list <> [].
Proof. destruct l; discriminate. Qed.

Lemma lastIs_snoc (P : query.Condition -> bool) (init : list query.Condition)
    (c : query.Condition) :
  validateConditions init = None -> P c = true -> lastIs P (init ++ [c])%list.
Proof. intros; exists init, c; auto. Qed.

Lemma lastIs_weaken (P Q : query.Condition -> bool) (l : list query.Condition) :
  (forall c, P c = true -> Q c = true) -> lastIs P l -> lastIs Q l.
Proof. intros HPQ (init & c & -> & Hinit & HP). apply lastIs_snoc; auto. Qed.

Lemma lastIs_complete (l : list query.Condition) :
  lastIs hasInValue l -> validateConditions l = None /\ l <> [].
Proof.
  intros (init & c & -> & Hinit & HP). split; [|apply snoc_nonempty].
  apply complete_snoc; auto using hasInValue_complete.
Qed.

Lemma hasInValue_awaits (c : query.Condition) :
  hasInValue c = true -> awaitsInValue c = true.
Proof. unfold hasInValue. now intros [? _]%andb_prop. Qed.

Ltac inv_cbn :=
  cbn [step_ query_ pop popWhitespace set_i set_step set_query set_nextUpdateField
         setTableName appendField setLastCondition
         query.Type' query.TableName query.Conditions query.Inserts
         query.set_Type query.set_TableName query.set_Conditions query.set_Updates
         query.set_Inserts query.set_Fields query.set_Aliases query.set_CreateFields] in *.

(** Opens the invariant of a state that builds a condition. *)
Ltac open_last :=
  match goal with
  | HL : lastIs _ ?conds, H : last ?conds = Some ?c |- _ =>
      let init := fresh "init" in
      let Hc := fresh "Hc" in
      let Hinit := fresh "Hinit" in
      let HP := fresh "HP" in
      destruct (lastIs_last _ _ _ HL H) as (init & Hc & Hinit & HP);
      rewrite Hc in *; rewrite ?setLast_snoc
  end.

Ltac bools :=
  repeat match goal with
  | H : negb _ = false |- _ => apply negb_false_iff in H
  | H : negb _ = true |- _ => apply negb_true_iff in H
  | H : _ && _ = true |- _ => apply andb_prop in H as [? ?]
  end.

Lemma doStep_Inv (p p' : parser) :
  Inv p -> i p < len (sql p) -> doStep p = Next p' -> Inv p'.
Proof.
  intros HI Hlt. unfold Inv in HI. unfold doStep.
  destruct (step_ p) eqn:Es; unfold_steps;
    repeat case_match; try discriminate; simplify_eq; intros [= <-];
    unfold Inv, whereOK in *; inv_cbn; rewrite ?Es; try tauto.
  all: try (intuition (try congruence; auto using len_eqb_empty); fail).
  all: repeat match goal with H : _ /\ _ |- _ => destruct H end.
  all: try open_last.
  all: repeat split; auto using len_eqb_empty, snoc_nonempty.
  all: try match goal with H : query.Type' _ = _ |- _ => rewrite H; reflexivity end.
  all: try (eapply setLast_nonempty; eassumption).
  all: try (eapply lastIs_weaken; [apply hasInValue_awaits|assumption]).
  all: try (eapply lastIs_complete; eassumption).
  all: try (apply lastIs_snoc; [assumption|]).
  all: try (apply complete_snoc; [assumption|apply awaitsValue_complete; [assumption|]]).
  all: bools.
  all: rewrite ?andb_false_r; try reflexivity.
  all: unfold hasInValue, awaitsValue, awaitsInValue, hasOperand1 in *;
    try match goal with c : query.Condition |- _ => destruct c end;
    cbn [query.Operand1 query.Operator_ query.InValues query.set_Operator
           query.set_InValues] in *.
  all: repeat match goal with
         | H : isIdentifier _ = true |- _ => apply isIdentifier_nonempty in H
         | H : operatorOf _ = Some _ |- _ => apply operatorOf_known in H
         | H : _ = _ |- _ => rewrite H
         end; rewrite ?length_app; cbn [length]; rewrite ?Nat.add_1_r; reflexivity.
Qed.

Lemma doStep_no_panic (p : parser) :
  Inv p -> i p < len (sql p) -> doStep p <> Panic.
Proof.
  intros HI Hlt. pose proof (peekQuoted_Some p Hlt) as Hq.
  unfold Inv in HI. unfold doStep.
  destruct (step_ p) eqn:Es; unfold_steps;
    repeat case_match; try discriminate; try congruence; exfalso.
  all: repeat match goal with H : _ /\ _ |- _ => destruct H end.
  all: try match goal with
         | HL : lastIs _ ?l, H : last ?l = None |- _ =>
             destruct HL as (init & c & Hc & _); rewrite Hc, last_snoc in H; discriminate
         | HL : ?l <> [], H : last ?l = None |- _ => apply last_None in H; contradiction
         end.
Qed.

Lemma Inv_initial (text : string) : Inv (initial text).
Proof. reflexivity. Qed.

Lemma reaches_Inv (p p' : parser) : Inv p -> reaches p p' -> Inv p'.
Proof.
  intros HI H; induction H as [p|p p1 p' Hlt Hs _ IH]; [assumption|].
  apply IH. eapply doStep_Inv; eassumption.
Qed.

Lemma reaches_cursor (p p' : parser) :
  reaches p p' -> sql p' = sql p /\ i p <= i p'.
Proof.
  induction 1 as [p|p p1 p' Hlt Hs _ [IHs IHi]]; [split; [reflexivity|lia]|].
  destruct (doStep_progress p p1 Hlt Hs) as [Hsql Hi].
  split; [congruence|lia].
Qed.

Lemma reaches_trans (p p1 p2 : parser) : reaches p p1 -> reaches p1 p2 -> reaches p p2.
Proof.
  induction 1 as [p|p q p1 Hlt Hs _ IH]; [auto|].
  intros H2. eapply reaches_turn; eauto.
Qed.

(** ** [doParse] returns: the fuel is enough and nothing panics *)

Lemma doParse_run (p p1 p' : parser) (e : error) (fuel : nat) :
  reaches p p1 -> stops p1 p' e -> len (sql p) - i p < fuel ->
  doParse fuel p = Some (p', e).
Proof.
  intros Hr Hs; revert fuel.
  induction Hr as [p|p q p1 Hlt Hq _ IH]; intros fuel Hf.
  - destruct fuel as [|fuel]; [lia|]. simpl.
    destruct Hs as [p Hle|p p' e Hlt Hret].
    + destruct (Nat.leb_spec (len (sql p)) (i p)); [reflexivity|lia].
    + destruct (Nat.leb_spec (len (sql p)) (i p)); [lia|]. now rewrite Hret.
  - destruct fuel as [|fuel]; [lia|]. simpl.
    destruct (Nat.leb_spec (len (sql p)) (i p)); [lia|]. rewrite Hq.
    destruct (doStep_progress p q Hlt Hq) as [Hsql Hi].
    apply IH; [assumption|]. rewrite Hsql. lia.
Qed.

Lemma doParse_total (fuel : nat) (p : parser) :
  Inv p -> len (sql p) - i p < fuel ->
  exists p1 p' e, reaches p p1 /\ stops p1 p' e /\ doParse fuel p = Some (p', e).
Proof.
  revert p; induction fuel as [|fuel IH]; intros p HI Hf; [lia|].
  simpl. destruct (Nat.leb_spec (len (sql p)) (i p)) as [Hle|Hlt].
  - exists p, p, (err p); repeat split; constructor; assumption.
  - destruct (doStep p) as [q|q e|] eqn:Es.
    + destruct (doStep_progress p q Hlt Es) as [Hsql Hi].
      destruct (IH q) as (p1 & p' & e & Hreach & Hstop & Hr).
      * eapply doStep_Inv; eassumption.
      * rewrite Hsql; lia.
      * exists p1, p', e; repeat split; try assumption.
        eapply reaches_turn; eassumption.
    + exists p, q, e; repeat split; [constructor|now constructor].
    + now destruct (doStep_no_panic p HI Hlt).
Qed.

Lemma Parse_parse (text : string) :
  Parse text =
  match parse text with
  | None => None
  | Some (q, Some e) => Some (query.zero, Some e)
  | Some (q, None) => Some (q, None)
  end.
Proof.
  unfold Parse, ParseMany; simpl.
  destruct (parse text) as [[q [e|]]|]; reflexivity.
Qed.

(** [Parse] returns on every text: the loop of [doParse] ends and no index
    is out of range. *)
Lemma Parse_returns (text : string) : exists q e, Parse text = Some (q, e).
Proof.
  rewrite Parse_parse. unfold parse, parser_parse.
  destruct (doParse_total (S (len (sql (initial text)) - i (initial text))) (initial text))
    as (p1 & p' & e & _ & _ & ->); [apply Inv_initial|lia|].
  destruct e; [eauto|]. destruct (validate p'); eauto.
Qed.

Lemma Parse_run (text : string) (p1 p' : parser) (e : error) :
  reaches (initial text) p1 -> stops p1 p' e -> Parse text = Some (finish p' e).
Proof.
  intros Hr Hs. rewrite Parse_parse. unfold parse, parser_parse.
  rewrite (doParse_run _ _ _ _ _ Hr Hs) by lia.
  unfold finish. destruct e; [reflexivity|]. destruct (validate p'); reflexivity.
Qed.

Lemma Parse_inv (text : string) (q : query.Query) (e : error) :
  Parse text = Some (q, e) ->
  exists p1 p' e', reaches (initial text) p1 /\ stops p1 p' e' /\ (q, e) = finish p' e'.
Proof.
  destruct (doParse_total (S (len (sql (initial text)) - i (initial text))) (initial text))
    as (p1 & p' & e' & Hr & Hs & _); [apply Inv_initial|lia|].
  rewrite (Parse_run _ _ _ _ Hr Hs). intros [= H]. eauto 6.
Qed.

(** ** The tokenizer reads the text that is left *)

Lemma substring_full (s : string) : String.substring 0 (len s) s = s.
Proof. unfold len. induction s as [|c s IH]; simpl; [reflexivity|]. now rewrite IH. Qed.

Lemma substring_empty (n m : nat) : String.substring n m "" = "".
Proof. destruct n, m; reflexivity. Qed.

Lemma substring_from (s : string) (n k : nat) :
  String.substring n k s = prefix k (from s n).
Proof.
  unfold prefix, from. revert n k; induction s as [|c s IH]; intros n k.
  - now rewrite !substring_empty.
  - destruct n as [|n].
    + change (len (String c s) - 0) with (S (len s)). simpl String.substring at 3.
      fold (len s). now rewrite substring_full.
    + change (len (String c s) - S n) with (len s - n).
      simpl. apply IH.
Qed.

Lemma len_prefix (k : nat) (s : string) : len (prefix k s) = Nat.min k (len s).
Proof.
  unfold prefix, len. revert k; induction s as [|c s IH]; intros [|k]; simpl; auto.
Qed.

Lemma prefix_min (k : nat) (s : string) : prefix (Nat.min (len s) k) s = prefix k s.
Proof.
  unfold prefix, len. revert k; induction s as [|c s IH]; intros [|k]; simpl; auto.
  now rewrite IH.
Qed.

Lemma len_from (s : string) (n : nat) : len (from s n) = len s - n.
Proof.
  unfold from, len. revert n; induction s as [|c s IH]; intros [|n]; simpl; auto.
  pose proof (substring_full s) as E; unfold len in E. now rewrite E.
Qed.

Lemma from_0 (s : string) : from s 0 = s.
Proof. unfold from. rewrite Nat.sub_0_r. apply substring_full. Qed.

Lemma from_S (c : ascii) (s : string) (n : nat) : from (String c s) (S n) = from s n.
Proof. reflexivity. Qed.

Lemma from_from (s : string) (n m : nat) : from (from s n) m = from s (n + m).
Proof.
  revert n; induction s as [|c s IH]; intros n.
  - unfold from. now rewrite !substring_empty.
  - destruct n as [|n]; [now rewrite from_0|].
    rewrite from_S. simpl. rewrite from_S. apply IH.
Qed.

Lemma get_from (s : string) (n k : nat) : String.get (n + k) s = String.get k (from s n).
Proof.
  revert n; induction s as [|c s IH]; intros n.
  - unfold from. rewrite !substring_empty. now destruct (n + k), k.
  - destruct n as [|n]; [now rewrite from_0|]. rewrite from_S. simpl. apply IH.
Qed.

Lemma from_get (s : string) (n : nat) :
  from s n = match String.get n s with
             | Some c => String c (from s (S n))
             | None => ""
             end.
Proof.
  revert n; induction s as [|c s IH]; intros n.
  - unfold from. rewrite !substring_empty. now destruct n.
  - destruct n as [|n]; [now rewrite from_0, from_S, from_0|].
    rewrite !from_S. simpl. apply IH.
Qed.

Lemma slice_rest (p : parser) (k : nat) :
  i p <= len (sql p) ->
  slice (sql p) (i p) (Nat.min (len (sql p)) (i p + k)) = prefix k (rest p).
Proof.
  intros Hi. unfold slice, rest. rewrite substring_from.
  replace (Nat.min (len (sql p)) (i p + k) - i p) with (Nat.min (len (from (sql p) (i p))) k)
    by (rewrite len_from; lia).
  apply prefix_min.
Qed.

Lemma peekReserved_rest (p : parser) (words : list string) :
  i p <= len (sql p) -> peekReserved p words = lexReserved (rest p) words.
Proof.
  intros Hi. induction words as [|w words IH]; simpl; [reflexivity|].
  now rewrite slice_rest, IH.
Qed.

Lemma len_0 (s : string) : len s = 0 -> s = "".
Proof. destruct s; [reflexivity|discriminate]. Qed.

Lemma get_Some (s : string) (n : nat) : n < len s -> exists c, String.get n s = Some c.
Proof.
  unfold len. revert n; induction s as [|c s IH]; intros [|n]; simpl; try lia; eauto.
  intros H. apply IH. lia.
Qed.

Lemma from_end (s : string) (n : nat) : len s <= n -> from s n = "".
Proof. intros H. apply len_0. rewrite len_from. lia. Qed.

Lemma closingQuote_lt (body : string) (prev : ascii) (k : nat) :
  closingQuote body prev = Some k -> k < len body.
Proof.
  revert prev k; induction body as [|c body IH]; intros prev k; simpl; [discriminate|].
  destruct (Ascii.eqb c quote && negb (Ascii.eqb prev backslash)).
  - intros [= <-]. lia.
  - destruct (closingQuote body c) as [k'|] eqn:E; [|discriminate].
    intros [= <-]. specialize (IH c k' E). unfold len in *. lia.
Qed.

Lemma scanQuoted_rest (s : string) (start n j : nat) (prev : ascii) :
  j + n = len s ->
  scanQuoted s start j n prev
  = match closingQuote (from s j) prev with
    | Some k => (slice s (start + 1) (j + k), len (slice s (start + 1) (j + k)) + 2)
    | None => ("", 0)
    end.
Proof.
  revert j prev; induction n as [|n IH]; intros j prev Hj; simpl.
  - rewrite (from_end s j) by lia. reflexivity.
  - destruct (get_Some s j) as [c Hc]; [lia|].
    rewrite (from_get s j), Hc. simpl.
    destruct (Ascii.eqb c quote && negb (Ascii.eqb prev backslash)).
    + now rewrite Nat.add_0_r.
    + rewrite IH by lia. replace (j + 1) with (S j) by lia.
      destruct (closingQuote (from s (S j)) c) as [k|]; simpl; [|reflexivity].
      now replace (S (j + k)) with (j + S k) by lia.
Qed.

Lemma scanIdentifier_rest (s : string) (start n j : nat) :
  j + n = len s ->
  scanIdentifier s start j n
  = (slice s start (j + identLen (from s j)), j + identLen (from s j) - start).
Proof.
  revert j; induction n as [|n IH]; intros j Hj; simpl.
  - rewrite (from_end s j) by lia. simpl. rewrite Nat.add_0_r.
    replace j with (len s) by lia. reflexivity.
  - destruct (get_Some s j) as [c Hc]; [lia|].
    rewrite (from_get s j), Hc. simpl.
    destruct (isIdentChar c); simpl.
    + rewrite IH by lia. replace (j + 1) with (S j) by lia.
      now replace (j + S (identLen (from s (S j)))) with (S j + identLen (from s (S j))) by lia.
    + now rewrite Nat.add_0_r.
Qed.

Lemma identLen_le (r : string) : identLen r <= len r.
Proof.
  unfold len. induction r as [|c r IH]; simpl; [lia|]. destruct (isIdentChar c); lia.
Qed.

(** The tokenizer depends on the text from the cursor on, and on nothing
    else. *)
Lemma peekWithLength_lex (p : parser) :
  i p <= len (sql p) -> peekWithLength p = lex (rest p).
Proof.
  intros Hi. unfold peekWithLength.
  destruct (Nat.leb_spec (len (sql p)) (i p)) as [Hle|Hlt].
  - unfold rest. now rewrite from_end.
  - destruct (get_Some (sql p) (i p) Hlt) as [c Hc].
    rewrite (peekReserved_rest p reservedWords Hi).
    assert (Hr : rest p = String c (from (sql p) (S (i p)))).
    { unfold rest. now rewrite from_get, Hc. }
    unfold lex. rewrite Hr. rewrite <- Hr.
    destruct (lexReserved (rest p) reservedWords) as [t|]; [reflexivity|].
    unfold at_is. rewrite Hc.
    destruct (Ascii.eqb c quote) eqn:Eq.
    + unfold peekQuotedStringWithLength.
      destruct (Nat.ltb_spec (len (sql p)) (i p)); [lia|].
      rewrite Hc, Eq. simpl. rewrite scanQuoted_rest by lia.
      rewrite Hr. unfold lexQuoted. rewrite Eq.
      replace (i p + 1) with (S (i p)) by lia.
      destruct (closingQuote (from (sql p) (S (i p))) c) as [k|] eqn:Ek; [|reflexivity].
      unfold slice. replace (S (i p) + k - S (i p)) with k by lia.
      rewrite substring_from, len_prefix.
      apply closingQuote_lt in Ek. now replace (Nat.min k (len (from (sql p) (S (i p))))) with k by lia.
    + unfold peekIdentifierWithLength. rewrite scanIdentifier_rest by lia.
      unfold lexIdentifier, slice. fold (rest p).
      assert (HH : forall a b : nat, a + b - a = b) by (intros; lia). rewrite HH.
      now rewrite substring_from.
Qed.

Lemma ToUpper_cons2 (c d : ascii) (s : string) :
  ToUpper (String c (String d s))
  = if Ascii.eqb c (ascii_of_N 196) && Ascii.eqb d (ascii_of_N 177)
    then String "I" (ToUpper s)
    else if Ascii.eqb c (ascii_of_N 197) && Ascii.eqb d (ascii_of_N 191)
    then String "S" (ToUpper s)
    else String (upper_byte c) (ToUpper (String d s)).
Proof. reflexivity. Qed.

Lemma len_ToUpper_le (s : string) : len (ToUpper s) <= len s.
Proof.
  unfold len.
  assert (H : forall n s, String.length s <= n -> String.length (ToUpper s) <= String.length s).
  { clear s. induction n as [|n IH]; intros [|c [|d s]] Hn;
      try (cbn in *; lia).
    rewrite ToUpper_cons2. cbn [String.length] in Hn.
    pose proof (IH s ltac:(lia)). pose proof (IH (String d s) ltac:(cbn; lia)).
    repeat case_match; cbn [String.length] in *; lia. }
  eauto.
Qed.

Lemma lexReserved_Some (r : string) (words : list string) (t : string * nat) :
  lexReserved r words = Some t ->
  In (fst t) words /\ snd t = len (fst t) /\ ToUpper (prefix (len (fst t)) r) = fst t.
Proof.
  induction words as [|w words IH]; simpl; [discriminate|].
  destruct (String.eqb_spec (ToUpper (prefix (len w) r)) w) as [E|_].
  - intros [= <-]; simpl. rewrite E. auto.
  - intros H; destruct (IH H) as (? & ? & ?); auto.
Qed.

Lemma lex_len (r : string) : snd (lex r) <= len r.
Proof.
  unfold lex. destruct r as [|c r']; [simpl; lia|].
  set (r := String c r').
  destruct (lexReserved r reservedWords) as [t|] eqn:E.
  - apply lexReserved_Some in E as (_ & -> & E).
    rewrite <- E at 1. pose proof (len_ToUpper_le (prefix (len (fst t)) r)).
    rewrite len_prefix in *. lia.
  - destruct (Ascii.eqb c quote) eqn:Eq.
    + unfold lexQuoted, r. rewrite Eq.
      destruct (closingQuote r' c) as [k|] eqn:Ek; simpl; [|lia].
      apply closingQuote_lt in Ek. unfold len in *. lia.
    + apply identLen_le.
Qed.

Lemma skipSpaces_rest (s : string) (n j : nat) :
  j + n = len s ->
  skipSpaces s j n <= len s /\ from s (skipSpaces s j n) = skipSpace (from s j).
Proof.
  revert j; induction n as [|n IH]; intros j Hj; simpl.
  - rewrite (from_end s j) by lia. split; [lia|reflexivity].
  - destruct (get_Some s j) as [c Hc]; [lia|].
    unfold at_is. rewrite (from_get s j), Hc. simpl.
    destruct (Ascii.eqb c " ").
    + replace (j + 1) with (S j) by lia. apply IH. lia.
    + split; [lia|]. now rewrite (from_get s j), Hc.
Qed.

(** [pop] leaves the text after the token and its spaces. *)
Lemma rest_pop (p : parser) :
  i p <= len (sql p) ->
  i (pop p) <= len (sql p) /\ rest (pop p) = afterToken (rest p).
Proof.
  intros Hi. pose proof (lex_len (rest p)) as Hl.
  assert (Hr : len (rest p) = len (sql p) - i p) by apply len_from.
  unfold pop, popWhitespace, afterToken; cbn [i sql set_i].
  rewrite (peekWithLength_lex p Hi).
  set (n := snd (lex (rest p))) in *.
  replace (from (rest p) n) with (from (sql p) (i p + n))
    by (unfold rest; now rewrite from_from).
  apply skipSpaces_rest. lia.
Qed.

(** ** What a query returned without error satisfies *)

Lemma Parse_ok (text : string) (q : query.Query) :
  Parse text = Some (q, None) ->
  exists p', q = query_ p' /\ validate p' = None.
Proof.
  rewrite Parse_parse. unfold parse, parser_parse.
  destruct (doParse _ _) as [[p' [e|]]|]; try discriminate.
  destruct (validate p') as [e|] eqn:Ev; [discriminate|].
  intros [= <-]. eauto.
Qed.

Lemma validate_Insert (p : parser) :
  validate p = None -> query.Type' (query_ p) = query.Insert ->
  (length (query.Inserts (query_ p)) =? 0) = false
  /\ forallb (fun r => length r =? length (query.Fields (query_ p)))
       (query.Inserts (query_ p)) = true.
Proof.
  unfold validate. intros H HT. rewrite HT in H. simpl in H.
  repeat case_match; try discriminate; simplify_eq.
  all: split; [first [assumption|reflexivity]|].
  all: match goal with H : negb _ = false |- _ => now apply negb_false_iff in H end.
Qed.

(** Every kind but Create comes back with a table name. *)
Lemma Parse_tableName (text : string) (q : query.Query) :
  Parse text = Some (q, None) -> query.Type' q <> query.Create ->
  query.TableName q <> "".
Proof.
  intros (p' & -> & Hv)%Parse_ok HT. revert Hv. unfold validate.
  repeat case_match; try discriminate; intros _.
  all: try (destruct (query.Type' (query_ p')); try discriminate; congruence).
  all: intros E; rewrite E in *; discriminate.
Qed.

(** C8. For every Insert query that [Parse] returns without an error, there
    is at least one row of values and every row has as many values as the
    query has fields. *)
Theorem C8_insert_rows_match_fields (text : string) (q : query.Query) :
  Parse text = Some (q, None) ->
  query.Type' q = query.Insert ->
  1 <= length (query.Inserts q)
  /\ Forall (fun r => length r = length (query.Fields q)) (query.Inserts q).
Proof.
  intros (p' & -> & Hv)%Parse_ok HT.
  destruct (validate_Insert p' Hv HT) as [Hn Hall]. split.
  - apply Nat.eqb_neq in Hn. lia.
  - apply Forall_forall. intros r Hr.
    rewrite forallb_forall in Hall. apply Nat.eqb_eq, Hall.
    now apply list_elem_of_In.
Qed.

Definition sampleInsert : query.Query :=
  query.mkQuery query.Insert "a" [] ∅ [["1"; "2"]; ["3"; "4"]] ["b"; "c"] ∅ ∅.

Lemma C8_insert_rows_match_fields_witness :
  Parse "INSERT INTO 'a' (b, c) VALUES ('1', '2'), ('3', '4')" = Some (sampleInsert, None)
  /\ 1 <= length (query.Inserts sampleInsert)
  /\ Forall (fun r => length r = length (query.Fields sampleInsert))
       (query.Inserts sampleInsert).
Proof.
  split; [vm_compute; reflexivity|].
  apply (C8_insert_rows_match_fields
           "INSERT INTO 'a' (b, c) VALUES ('1', '2'), ('3', '4')" sampleInsert);
    vm_compute; reflexivity.
Defined.

(** C4. The claim asks for a table name in every query returned without an
    error, Create included.  On the text [CREATE TABLE] the loop of [doParse]
    ends before the state that reports a missing table name is entered, and
    [validate] returns early for Create, before its check of the table name:
    [Parse] returns a Create query with an empty table name and no error. *)
Theorem C4_create_without_table_name :
  Parse "CREATE TABLE"
  = Some (query.mkQuery query.Create "" [] ∅ [] [] ∅ ∅, None).
Proof. vm_compute. reflexivity. Qed.

(** ** Reachable states *)

Lemma pop_bound (p : parser) : i p <= len (sql p) -> i (pop p) <= len (sql (pop p)).
Proof. intros H. now destruct (rest_pop p H). Qed.

Ltac state_cbn :=
  cbn [i sql err step_ query_ set_i set_step set_query set_nextUpdateField setTableName
         appendField setLastCondition] in *.

Lemma doStep_bound (p p' : parser) :
  i p <= len (sql p) -> doStep p = Next p' -> i p' <= len (sql p').
Proof.
  intros Hi. unfold doStep.
  destruct (step_ p); unfold_steps;
    repeat case_match; try discriminate; simplify_eq; intros [= <-]; state_cbn;
    repeat (apply pop_bound; state_cbn); assumption.
Qed.

Lemma doStep_err (p p' : parser) : doStep p = Next p' -> err p' = err p.
Proof.
  unfold doStep.
  destruct (step_ p); unfold_steps;
    repeat case_match; try discriminate; simplify_eq; intros [= <-]; reflexivity.
Qed.

Lemma reaches_initial (text : string) (p : parser) :
  reaches (initial text) p -> Inv p /\ i p <= len (sql p) /\ err p = None.
Proof.
  intros H. split; [eapply reaches_Inv; [apply Inv_initial|eassumption]|].
  assert (G : forall p0, reaches p0 p -> i p0 <= len (sql p0) -> err p0 = None ->
                         i p <= len (sql p) /\ err p = None).
  { clear. induction 1 as [p|p p1 p' Hlt Hs _ IH]; [auto|]. intros Hi He.
    apply IH; [eapply doStep_bound; eassumption|].
    rewrite (doStep_err _ _ Hs). assumption. }
  apply (G _ H); [cbn; lia|reflexivity].
Qed.

Lemma turns_reaches (n : nat) (p : parser) : reaches p (turns n p).
Proof.
  revert p; induction n as [|n IH]; intros p; simpl; [constructor|].
  destruct (Nat.leb_spec (len (sql p)) (i p)); [constructor|].
  destruct (doStep p) as [p'| |] eqn:E; try constructor.
  eapply reaches_turn; eauto.
Qed.

(** ** Reserved words at the cursor *)

Lemma lexReserved_first (r : string) (words : list string) (w : string) :
  In w words -> ToUpper (prefix (len w) r) = w ->
  exists w', In w' words /\ lexReserved r words = Some (w', len w').
Proof.
  induction words as [|w0 words IH]; simpl; [tauto|]. intros Hin Hw.
  destruct (String.eqb_spec (ToUpper (prefix (len w0) r)) w0) as [E|N].
  - exists w0. rewrite E. auto.
  - destruct Hin as [->|Hin]; [contradiction|].
    destruct (IH Hin Hw) as (w' & ? & ?). eauto.
Qed.

Lemma peek_reserved (p : parser) (w : string) :
  i p < len (sql p) -> reservedAt p w ->
  exists w', In w' reservedWords /\ peekWithLength p = (w', len w').
Proof.
  intros Hi [Hin Hw].
  destruct (lexReserved_first _ _ _ Hin Hw) as (w' & Hin' & Hl).
  exists w'. split; [assumption|].
  rewrite peekWithLength_lex by lia. unfold lex.
  destruct (rest p) as [|c r] eqn:Er.
  - apply (f_equal len) in Er. unfold rest in Er. rewrite len_from in Er. simpl in Er. lia.
  - now rewrite Hl.
Qed.

Lemma isIdentifier_reserved (w : string) :
  In w reservedWords -> isIdentifierOrAsterisk w = false.
Proof.
  unfold reservedWords; simpl.
  intros H; repeat (destruct H as [<-|H]; [reflexivity|]); destruct H.
Qed.

Lemma isIdentifierOrAsterisk_false (w : string) :
  isIdentifierOrAsterisk w = false -> isIdentifier w = false.
Proof. unfold isIdentifierOrAsterisk. now intros [? _]%orb_false_elim. Qed.

Lemma doStep_reserved (p : parser) (w : string) :
  expectsFieldName (step_ p) = true -> In w reservedWords ->
  peekWithLength p = (w, len w) ->
  doStep p = Return p (Some (fieldError (step_ p))).
Proof.
  intros Hs Hin Hp.
  assert (Hpeek : peek p = w) by (unfold peek; now rewrite Hp).
  pose proof (isIdentifier_reserved w Hin) as H1.
  pose proof (isIdentifierOrAsterisk_false w H1) as H2.
  unfold doStep. destruct (step_ p); try discriminate;
    unfold selectFieldStep, insertFieldsStep, updateFieldStep, whereFieldStep, errorf;
    rewrite Hpeek, ?H1, ?H2; reflexivity.
Qed.

(** In the four states that check the name of a field with [isIdentifier]
    (the field list of SELECT, the field list of INSERT, the field of an
    UPDATE assignment, the field of a WHERE condition), a reserved word at
    the cursor makes [Parse] return the error of that state and no query. *)
Lemma reserved_prefix_rejected (text : string) (p : parser) (w : string) :
  reaches (initial text) p ->
  expectsFieldName (step_ p) = true ->
  i p < len (sql p) ->
  reservedAt p w ->
  Parse text = Some (query.zero, Some (fieldError (step_ p))).
Proof.
  intros Hr Hs Hi Hw.
  destruct (peek_reserved p w Hi Hw) as (w' & Hin & Hp).
  rewrite (Parse_run text p p (Some (fieldError (step_ p))) Hr); [reflexivity|].
  apply stops_return; [assumption|]. eapply doStep_reserved; eassumption.
Qed.

(** C9.  The claim asks that [Parse] reject a statement wherever the grammar
    expects the name of a field and an identifier begins with a reserved
    word.  In every state the tokenizer returns a reserved word of the table
    where one stands at the cursor, in any case of its letters, not the
    longer identifier; and the four states that check the name of a field
    with [isIdentifier] reject it, as for [SELECT info FROM 'b'].  The state
    of the columns of CREATE TABLE reads the name of a field as well and
    makes no such check: in [CREATE TABLE t (inx)] the identifier [inx]
    begins with IN, the tokenizer returns IN, and [Parse] returns a query
    with a column IN of type [x], and no error. *)
Theorem C9_create_field_unchecked :
  (forall (p : parser) (w : string),
      i p < len (sql p) -> reservedAt p w ->
      exists w', In w' reservedWords /\ peekWithLength p = (w', len w'))
  /\ (forall (text : string) (p : parser) (w : string),
         reaches (initial text) p -> expectsFieldName (step_ p) = true ->
         i p < len (sql p) -> reservedAt p w ->
         Parse text = Some (query.zero, Some (fieldError (step_ p))))
  /\ Parse "SELECT info FROM 'b'"
     = Some (query.zero, Some "at SELECT: expected field to SELECT")
  /\ step_ (turns 2 (initial "CREATE TABLE t (inx)")) = stepParseCreateFields
  /\ reservedAt (turns 2 (initial "CREATE TABLE t (inx)")) "IN"
  /\ Parse "CREATE TABLE t (inx)"
     = Some (query.mkQuery query.Create "t" [] ∅ [] [] ∅ (<["IN" := "x"]> ∅), None).
Proof.
  split; [intros p w Hi Hw; now apply (peek_reserved p w)|].
  split; [intros text p w; apply reserved_prefix_rejected|].
  split.
  { apply (reserved_prefix_rejected "SELECT info FROM 'b'"
             (turns 1 (initial "SELECT info FROM 'b'")) "IN").
    - apply turns_reaches.
    - reflexivity.
    - vm_compute. lia.
    - split; [vm_compute; tauto|vm_compute; reflexivity]. }
  split; [reflexivity|]. split; [|vm_compute; reflexivity].
  split; [vm_compute; tauto|vm_compute; reflexivity].
Qed.

(** ** A trailing AND *)

Lemma upper_byte_inv (c u : ascii) :
  upper_byte c = u -> byte_in "A" "Z" u = true ->
  c = u \/ c = ascii_of_N (N_of_ascii u + 32).
Proof.
  intros <-.
  destruct c as [[] [] [] [] [] [] [] []]; vm_compute; intros; try discriminate; auto.
Qed.

Lemma ToUpper_cons_nonempty (c : ascii) (r : string) : ToUpper (String c r) <> "".
Proof. destruct r; [discriminate|]. rewrite ToUpper_cons2. repeat case_match; discriminate. Qed.

Lemma ToUpper_AND (r : string) :
  ToUpper r = "AND" ->
  exists c1 c2 c3,
    r = String c1 (String c2 (String c3 ""))
    /\ (c1 = "A" \/ c1 = "a")%char /\ (c2 = "N" \/ c2 = "n")%char
    /\ (c3 = "D" \/ c3 = "d")%char.
Proof.
  destruct r as [|c1 [|c2 [|c3 [|c4 r]]]]; try discriminate.
  - rewrite ToUpper_cons2. repeat case_match; discriminate.
  - rewrite !ToUpper_cons2. repeat case_match; try discriminate.
    cbn [ToUpper]. intros [= U1 U2 U3].
    exists c1, c2, c3. split; [reflexivity|].
    apply upper_byte_inv in U1, U2, U3; try reflexivity. auto.
  - rewrite !ToUpper_cons2. repeat case_match; try discriminate.
    intros [= _ _ _ U]. now apply ToUpper_cons_nonempty in U.
Qed.

Lemma lex_AND (r : string) :
  ToUpper r = "AND" -> lex r = (r, 3) /\ afterToken r = "".
Proof.
  intros (c1 & c2 & c3 & -> & [-> | ->] & [-> | ->] & [-> | ->])%ToUpper_AND;
    split; reflexivity.
Qed.

Lemma validate_where (p : parser) :
  whereOK (query_ p) -> validateConditions (query.Conditions (query_ p)) = None ->
  query.Conditions (query_ p) <> [] -> validate p = None.
Proof.
  intros [Hk Ht] Hc Hn. unfold validate. rewrite Ht, Hc.
  destruct (query.Conditions (query_ p)) as [|c l]; [contradiction|].
  destruct (query.Type' (query_ p)); try discriminate; reflexivity.
Qed.

(** C10.  Whenever the loop of [doParse] is in the state that expects AND,
    after a condition, and the text left is exactly AND in any case of its
    letters, [Parse] returns the query built so far, with the conditions
    collected (there is at least one), and no error: the text ends in the
    middle of the WHERE grammar and is accepted. *)
Theorem C10_trailing_and_accepted (text : string) (p : parser) :
  reaches (initial text) p ->
  step_ p = stepWhereAnd ->
  ToUpper (rest p) = "AND" ->
  query.Conditions (query_ p) <> []
  /\ Parse text = Some (query_ p, None).
Proof.
  intros Hr Hs Hand.
  destruct (reaches_initial text p Hr) as (HI & Hi & He).
  unfold Inv in HI. rewrite Hs in HI. destruct HI as (Hw & Hc & Hn).
  split; [assumption|].
  destruct (lex_AND _ Hand) as [Hlex Hafter].
  assert (Hlt : i p < len (sql p)).
  { assert (len (rest p) = len (sql p) - i p) by apply len_from.
    destruct (rest p); [discriminate|]. simpl in *. lia. }
  set (p1 := set_step (pop p) stepWhereField).
  assert (Hstep : doStep p = Next p1).
  { unfold doStep. rewrite Hs. unfold expectStep, peek.
    rewrite (peekWithLength_lex p Hi), Hlex. cbn [fst]. now rewrite Hand. }
  destruct (rest_pop p Hi) as [Hb Hrest]. rewrite Hafter in Hrest.
  assert (Hend : len (sql p1) <= i p1).
  { apply (f_equal len) in Hrest. unfold rest in Hrest. rewrite len_from in Hrest.
    cbn in *. lia. }
  rewrite (Parse_run text p1 p1 (err p1)).
  - unfold finish. change (err p1) with (err p). rewrite He.
    rewrite validate_where; [reflexivity|assumption..].
  - eapply reaches_trans; [eassumption|].
    eapply reaches_turn; [eassumption|eassumption|constructor].
  - now constructor.
Qed.

Lemma C10_trailing_and_accepted_witness :
  query.Conditions (query_ (turns 8 (initial "SELECT a FROM 'b' WHERE a = '1' AND"))) <> []
  /\ Parse "SELECT a FROM 'b' WHERE a = '1' AND"
     = Some (query_ (turns 8 (initial "SELECT a FROM 'b' WHERE a = '1' AND")), None).
Proof.
  apply (C10_trailing_and_accepted "SELECT a FROM 'b' WHERE a = '1' AND").
  - apply turns_reaches.
  - vm_compute. reflexivity.
  - vm_compute. reflexivity.
Defined.

(** * The condition evaluators *)

(** ** Field resolution *)

Section EvaluatorFacts.

Context {rt : Runtime}.

Lemma resolveLoop_resolvePath (fieldParts parts : list string) (idx : nat) (m : row)
    (found : option value) :
  idx + length parts = length fieldParts ->
  resolveLoop fieldParts parts idx m found
  = match parts with
    | [] => found
    | _ :: _ => resolvePath m parts
    end.
Proof.
  revert idx m found; induction parts as [|part parts IH]; intros idx m found Hlen;
    [reflexivity|].
  cbn [resolveLoop resolvePath]. cbn [length] in Hlen.
  destruct parts as [|part' parts'].
  - cbn [length] in Hlen.
    destruct (Nat.eqb_spec idx (length fieldParts - 1)) as [_|N]; [reflexivity|lia].
  - cbn [length] in Hlen.
    destruct (Nat.eqb_spec idx (length fieldParts - 1)) as [E|_]; [lia|].
    destruct (m !! part) as [[]|]; try reflexivity.
    rewrite IH by (cbn [length]; lia). reflexivity.
Qed.

Lemma checkCondition_resolved (r : row) (cond : query.Condition) :
  resolveLoop (Split (query.Operand1 cond) ".") (Split (query.Operand1 cond) ".") 0 r None
  = resolved r cond.
Proof.
  unfold resolved. rewrite resolveLoop_resolvePath by reflexivity.
  now destruct (Split (query.Operand1 cond) ".").
Qed.

Lemma getFieldValueRecursive_n_resolvePath (n : nat) (data : row) (parts : list string)
    (idx : nat) :
  n = length parts - idx ->
  getFieldValueRecursive_n n data parts idx = resolvePath data (drop idx parts).
Proof.
  revert data idx; induction n as [|n IH]; intros data idx Hn;
    cbn [getFieldValueRecursive_n].
  - rewrite (lookup_ge_None_2 parts idx) by lia. now rewrite drop_ge by lia.
  - destruct (lookup_lt_is_Some_2 parts idx) as [part E]; [lia|].
    rewrite E, (drop_S _ _ _ E). cbn [resolvePath].
    assert (Hd : length (drop (S idx) parts) = n) by (rewrite length_drop; lia).
    destruct (data !! part) as [v|]; [|now destruct (drop (S idx) parts)].
    destruct (Nat.eqb_spec idx (length parts - 1)) as [Ei|Ni].
    + destruct (drop (S idx) parts); [reflexivity|cbn in Hd; lia].
    + destruct (drop (S idx) parts) as [|part' parts'] eqn:Ed; [cbn in Hd; lia|].
      destruct v; try reflexivity.
      replace (idx + 1) with (S idx) by lia. now rewrite IH, Ed by lia.
Qed.

Lemma evaluateConditionRecursive_resolved (r : row) (cond : query.Condition) :
  getFieldValueRecursive r (Split (query.Operand1 cond) ".") 0 = resolved r cond.
Proof.
  unfold getFieldValueRecursive, resolved.
  now rewrite getFieldValueRecursive_n_resolvePath by lia.
Qed.

(** ** The conjunction *)

Lemma checkConditions_forallb (r : row) (conditions : list query.Condition) :
  checkConditions r conditions = forallb (checkCondition r) conditions.
Proof.
  unfold checkConditions. destruct conditions as [|c l]; [reflexivity|].
  cbn [length Nat.eqb].
  induction (c :: l) as [|c' l' IH]; [reflexivity|].
  cbn [checkConditions_loop forallb]. rewrite IH. now destruct (checkCondition r c').
Qed.

Lemma evaluateConditionsRecursive_n_forallb (n : nat) (r : row)
    (conditions : list query.Condition) (idx : nat) :
  n = length conditions - idx ->
  evaluateConditionsRecursive_n n r conditions idx
  = forallb (evaluateConditionRecursive r) (drop idx conditions).
Proof.
  revert idx; induction n as [|n IH]; intros idx Hn; cbn [evaluateConditionsRecursive_n].
  - rewrite (lookup_ge_None_2 conditions idx) by lia. now rewrite drop_ge by lia.
  - destruct (lookup_lt_is_Some_2 conditions idx) as [c E]; [lia|].
    rewrite E, (drop_S _ _ _ E). cbn [forallb].
    replace (idx + 1) with (S idx) by lia. rewrite <- IH by lia.
    now destruct (evaluateConditionRecursive r c).
Qed.

Lemma evaluateConditionsRecursive_forallb (r : row) (conditions : list query.Condition) :
  evaluateConditionsRecursive r conditions 0
  = forallb (evaluateConditionRecursive r) conditions.
Proof.
  unfold evaluateConditionsRecursive.
  now rewrite evaluateConditionsRecursive_n_forallb by lia.
Qed.

Lemma evaluateInRecursive_existsb (v : value) (inValues : list string) :
  evaluateInRecursive v inValues 0
  = existsb (fun inValue => String.eqb (Sprint v) inValue) inValues.
Proof.
  unfold evaluateInRecursive.
  assert (G : forall n idx, n = length inValues - idx ->
            evaluateInRecursive_n n v inValues idx
            = existsb (fun inValue => String.eqb (Sprint v) inValue) (drop idx inValues)).
  { induction n as [|n IH]; intros idx Hn; cbn [evaluateInRecursive_n].
    - rewrite (lookup_ge_None_2 inValues idx) by lia. now rewrite drop_ge by lia.
    - destruct (lookup_lt_is_Some_2 inValues idx) as [x E]; [lia|].
      rewrite E, (drop_S _ _ _ E). cbn [existsb].
      replace (idx + 1) with (S idx) by lia. rewrite <- IH by lia.
      now destruct (String.eqb (Sprint v) x). }
  now rewrite G by lia.
Qed.

(** ** The two translations of a LIKE pattern *)

(** [convertLikePatternRecursive] byte by byte. *)
Definition likePiece (c : ascii) : string :=
  if Ascii.eqb c "%" then ".*"
  else if Ascii.eqb c "_" then "."
  else if regexMeta c then String backslash EmptyString ++ string_of_byte c
  else string_of_byte c.

Fixpoint likePieces (s : string) : string :=
  match s with
  | EmptyString => EmptyString
  | String c s' => likePiece c ++ likePieces s'
  end.

Lemma append_cons (x : ascii) (a b : string) : String x a ++ b = String x (a ++ b).
Proof. reflexivity. Qed.

Lemma append_assoc (a b c : string) : (a ++ b) ++ c = a ++ (b ++ c).
Proof. induction a as [|x a IH]; [reflexivity|]. now rewrite !append_cons, IH. Qed.

Lemma append_nil_r (a : string) : a ++ "" = a.
Proof. induction a as [|x a IH]; [reflexivity|]. now rewrite append_cons, IH. Qed.

Lemma get_ge (s : string) (n : nat) : len s <= n -> String.get n s = None.
Proof.
  unfold len. revert n; induction s as [|c s IH]; intros [|n]; cbn; try lia; auto.
  intros H. apply IH. lia.
Qed.

Lemma convertLikePatternRecursive_n_pieces (n : nat) (pattern : string) (idx : nat)
    (result : string) :
  n = len pattern - idx ->
  convertLikePatternRecursive_n n pattern idx result
  = result ++ likePieces (from pattern idx).
Proof.
  revert idx result; induction n as [|n IH]; intros idx result Hn;
    cbn [convertLikePatternRecursive_n]; rewrite (from_get pattern idx).
  - rewrite get_ge by lia. now rewrite append_nil_r.
  - destruct (get_Some pattern idx) as [c E]; [lia|]. rewrite E.
    cbn [likePieces]. replace (idx + 1) with (S idx) by lia.
    rewrite IH by lia. unfold likePiece.
    repeat case_match; now rewrite ?append_assoc.
Qed.

Lemma convertLikePatternRecursive_pieces (pattern : string) :
  convertLikePatternRecursive pattern 0 "" = likePieces pattern.
Proof.
  unfold convertLikePatternRecursive.
  rewrite convertLikePatternRecursive_n_pieces by lia. now rewrite from_0.
Qed.

Lemma ReplaceAll_append (a b : string) (old : ascii) (new : string) :
  ReplaceAll (a ++ b) old new = ReplaceAll a old new ++ ReplaceAll b old new.
Proof.
  induction a as [|x a IH]; [reflexivity|]. rewrite append_cons.
  cbn [ReplaceAll]. rewrite IH.
  destruct (Ascii.eqb x old); [now rewrite append_assoc|reflexivity].
Qed.

Lemma plain_likePieces (pattern : string) :
  plainPattern pattern = true ->
  likePieces pattern = ReplaceAll (ReplaceAll pattern "%" ".*") "_" ".".
Proof.
  unfold plainPattern. induction pattern as [|c s IH]; [reflexivity|].
  cbn [list_ascii_of_string forallb likePieces ReplaceAll].
  intros [Hc Hs]%andb_prop. rewrite (IH Hs). clear IH Hs.
  unfold likePiece, plainByte, string_of_byte in *.
  apply andb_prop in Hc as [Ha Hm]. rewrite Ha. apply negb_true_iff in Hm. rewrite Hm.
  destruct (Ascii.eqb_spec c "%") as [->|Np].
  - now rewrite ReplaceAll_append.
  - cbn [ReplaceAll]. destruct (Ascii.eqb_spec c "_") as [->|Nu]; reflexivity.
Qed.

(** ** Where the two evaluators agree *)

Lemma compare_fallback (v : value) (operand2 operation : string) :
  numValue v = None \/ ParseFloat operand2 = None ->
  compareValuesRecursive v operand2 operation
  = compareStringRecursive (Sprint v) operand2 operation.
Proof.
  unfold compareValuesRecursive, compareNumericRecursive.
  intros [-> | H]; [reflexivity|]. rewrite H. now destruct (numValue v).
Qed.

Lemma agreeOn_same (r : row) (cond : query.Condition) :
  agreeOn r cond -> checkCondition r cond = evaluateConditionRecursive r cond.
Proof.
  unfold agreeOn, checkCondition, evaluateConditionRecursive.
  rewrite checkCondition_resolved, evaluateConditionRecursive_resolved.
  destruct (resolved r cond) as [v|]; [|reflexivity].
  unfold evaluateOperatorRecursive.
  destruct (query.Operator_ cond); intros H;
    rewrite ?(compare_fallback _ _ _ H), ?evaluateInRecursive_existsb; try reflexivity.
  - destruct H as [H|H]; [destruct v; try discriminate; reflexivity|].
    destruct v; try reflexivity. unfold evaluateLikeRecursive, matched, likePattern.
    now rewrite convertLikePatternRecursive_pieces, (plain_likePieces _ H).
  - destruct H as [Hs H]. destruct v; try discriminate.
    unfold evaluateLikeRecursive, matched, likePattern.
    now rewrite convertLikePatternRecursive_pieces, (plain_likePieces _ H).
Qed.

End EvaluatorFacts.

(** ** Unresolved operands, and where the two evaluators agree *)

(** C7.  A condition whose left operand does not resolve in the record (a
    segment before the last is missing or is bound to something that is not
    a mapping, or the last segment is missing) is false for both evaluators;
    they are total functions to [bool], so nothing is raised, and a condition
    list that holds such a condition rejects the record and no more. *)
Theorem C7_unresolved_is_false {rt : Runtime} (r : row) (c : query.Condition)
    (conditions : list query.Condition) :
  resolved r c = None ->
  checkCondition r c = false
  /\ evaluateConditionRecursive r c = false
  /\ (In c conditions ->
      checkConditions r conditions = false
      /\ evaluateConditionsRecursive r conditions 0 = false).
Proof.
  intros H.
  assert (H1 : checkCondition r c = false).
  { unfold checkCondition. now rewrite checkCondition_resolved, H. }
  assert (H2 : evaluateConditionRecursive r c = false).
  { unfold evaluateConditionRecursive. now rewrite evaluateConditionRecursive_resolved, H. }
  repeat split; try assumption.
  - rewrite checkConditions_forallb. apply not_true_is_false. intros Hall.
    rewrite forallb_forall in Hall. rewrite (Hall c) in H1; [discriminate|assumption].
  - rewrite evaluateConditionsRecursive_forallb. apply not_true_is_false. intros Hall.
    rewrite forallb_forall in Hall. rewrite (Hall c) in H2; [discriminate|assumption].
Qed.

Lemma C7_unresolved_is_false_witness :
  resolved sampleRow (cond "id.non_existent_field" query.Eq "123") = None
  /\ @checkCondition Std.runtime sampleRow (cond "id.non_existent_field" query.Eq "123")
     = false
  /\ @evaluateConditionRecursive Std.runtime sampleRow
       (cond "id.non_existent_field" query.Eq "123") = false.
Proof.
  split; [vm_compute; reflexivity|].
  destruct (@C7_unresolved_is_false Std.runtime sampleRow
              (cond "id.non_existent_field" query.Eq "123") [])
    as (H1 & H2 & _); [vm_compute; reflexivity|].
  split; assumption.
Defined.

(** C2, as amended.  The iterative evaluator and the recursive evaluator
    started at index 0 return the same boolean on a record for every list of
    conditions each of which is one of: a condition whose left operand does
    not resolve in the record; an In or NotIn condition (or one without
    operator); an Eq, Ne, Gt, Gte, Lt or Lte condition whose value is no
    number for the recursive evaluator or whose right operand does not parse
    as a [float64]; a Like condition on a value that is not a string, or whose
    pattern is made of plain bytes; a NotLike condition on a string whose
    pattern is made of plain bytes. *)
Theorem C2_evaluators_agree {rt : Runtime} (r : row) (conditions : list query.Condition) :
  Forall (agreeOn r) conditions ->
  checkConditions r conditions = evaluateConditionsRecursive r conditions 0.
Proof.
  rewrite checkConditions_forallb, evaluateConditionsRecursive_forallb.
  induction 1 as [|c l Hc _ IH]; [reflexivity|].
  cbn [forallb]. now rewrite IH, (agreeOn_same r c Hc).
Qed.

Lemma C2_evaluators_agree_witness :
  Forall (@agreeOn Std.runtime sampleRow) sampleConditions
  /\ @checkConditions Std.runtime sampleRow sampleConditions
     = @evaluateConditionsRecursive Std.runtime sampleRow sampleConditions 0.
Proof.
  assert (H : Forall (@agreeOn Std.runtime sampleRow) sampleConditions).
  { unfold sampleConditions.
    repeat (apply List.Forall_cons; [vm_compute; auto|]). apply List.Forall_nil. }
  split; [exact H|]. exact (@C2_evaluators_agree Std.runtime sampleRow sampleConditions H).
Defined.

(** C2 as stated fails: on the first record of the test data, whose age is
    the string 30, the condition [age > '5'] is false for the iterative
    evaluator (strings) and true for the recursive one (numbers); on a record
    whose age is the number 25, [age NOT LIKE 'J%'] is false for the iterative
    evaluator and true for the recursive one. *)
Lemma C2_evaluators_differ :
  (@checkConditions Std.runtime sampleRow [cond "age" query.Gt "5"] = false
   /\ @evaluateConditionsRecursive Std.runtime sampleRow [cond "age" query.Gt "5"] 0 = true)
  /\ (@checkConditions Std.runtime sampleNumberRow [cond "age" query.NotLike "J%"] = false
      /\ @evaluateConditionsRecursive Std.runtime sampleNumberRow
           [cond "age" query.NotLike "J%"] 0 = true).
Proof. repeat split; vm_compute; reflexivity. Qed.

(** ** The ordering operators *)

Lemma compareStringRecursive_ordering (o : query.Operator) (x y : string) :
  isComparison o = true ->
  compareStringRecursive x y
    (match o with
     | query.Gt => "gt" | query.Gte => "gte" | query.Lt => "lt" | _ => "lte"
     end)
  = compareStrings o x y.
Proof. destruct o; try discriminate; reflexivity. Qed.

Lemma performNumericComparisonRecursive_ordering (o : query.Operator) (a b : spec_float) :
  isComparison o = true ->
  performNumericComparisonRecursive a b
    (match o with
     | query.Gt => "gt" | query.Gte => "gte" | query.Lt => "lt" | _ => "lte"
     end)
  = compareFloats o a b.
Proof. destruct o; try discriminate; reflexivity. Qed.




(** ** LIKE and NOT LIKE *)

(** On a value that is not a string, NOT LIKE is true for the recursive
    evaluator and false for the iterative one, whatever the pattern. *)
Lemma NotLike_non_string {rt : Runtime} (r : row) (c : query.Condition) (v : value) :
  resolved r c = Some v -> isString v = false ->
  query.Operator_ c = query.NotLike ->
  evaluateConditionRecursive r c = true /\ checkCondition r c = false.
Proof.
  intros Hv Hs Ho. unfold evaluateConditionRecursive, checkCondition.
  rewrite evaluateConditionRecursive_resolved, checkCondition_resolved, Hv.
  unfold evaluateOperatorRecursive. rewrite Ho.
  destruct v; try discriminate; split; reflexivity.
Qed.

(** C5.  The claim asks that LIKE and NOT LIKE be false on a value that is
    not a string, and that every metacharacter of the pattern but [%] and [_]
    be escaped.  The recursive evaluator returns true for NOT LIKE on the
    number 25; the iterative evaluator does not escape, so that the pattern
    [J.hn Doe] matches the name John Doe (the recursive one, which escapes,
    says it does not). *)
Theorem C5_like_divergences :
  (resolved sampleNumberRow (cond "age" query.NotLike "John%") = Some (VInt 25)
   /\ @evaluateConditionRecursive Std.runtime sampleNumberRow
        (cond "age" query.NotLike "John%") = true
   /\ @checkCondition Std.runtime sampleNumberRow (cond "age" query.NotLike "John%")
      = false)
  /\ (@checkCondition Std.runtime sampleRow (cond "name" query.Like "J.hn Doe") = true
      /\ @evaluateConditionRecursive Std.runtime sampleRow
           (cond "name" query.Like "J.hn Doe") = false).
Proof. repeat split; vm_compute; reflexivity. Qed.

(** ** The filters *)

Lemma filterRows_lookup (check : row -> bool) (entries : list (string * row))
    (acc : gmap string row) (k : string) (r : row) :
  NoDup (entries.*1) ->
  (forall k' r', (k', r') ∈ entries -> acc !! k' = None) ->
  foldl (fun filteredData kr =>
           if check (snd kr) then <[fst kr := snd kr]> filteredData else filteredData)
    acc entries !! k = Some r
  <-> acc !! k = Some r \/ ((k, r) ∈ entries /\ check r = true).
Proof.
  revert acc; induction entries as [|[k0 r0] entries IH]; intros acc Hnd Hacc.
  - cbn. split; [auto|]. intros [H|[H _]]; [exact H|]. now apply elem_of_nil in H.
  - cbn [foldl fst snd]. cbn [fmap list_fmap fst] in Hnd. apply NoDup_cons in Hnd as [Hk0 Hnd].
    rewrite IH; [|assumption|].
    + destruct (check r0) eqn:Ec.
      * rewrite lookup_insert_Some. split.
        -- intros [[[<- <-]|[Hne H]]|[Hin Hc]].
           ++ right. split; [apply elem_of_cons; auto|assumption].
           ++ auto.
           ++ right. split; [apply elem_of_cons; auto|assumption].
        -- intros [H|[Hin Hc]].
           ++ left. right. split; [|assumption]. intros <-.
              rewrite (Hacc k0 r0) in H; [discriminate|apply elem_of_cons; auto].
           ++ apply elem_of_cons in Hin as [[= -> ->]|Hin]; [left; left; auto|].
              right; auto.
      * split.
        -- intros [H|[Hin Hc]]; [auto|]. right. split; [apply elem_of_cons; auto|assumption].
        -- intros [H|[Hin Hc]]; [auto|].
           apply elem_of_cons in Hin as [[= -> ->]|Hin]; [congruence|]. right; auto.
    + intros k' r' Hin. destruct (check r0).
      * rewrite lookup_insert_ne.
        -- apply (Hacc k' r'). apply elem_of_cons; auto.
        -- intros <-. apply Hk0. apply list_elem_of_fmap. exists (k0, r'). auto.
      * apply (Hacc k' r'). apply elem_of_cons; auto.
Qed.

(** The loop of the filters keeps exactly the records that pass the check,
    each under its key and unchanged, in whatever order [range] visits the
    data. *)
Lemma filterRows_spec {rt : Runtime} (check : row -> bool) (data : gmap string row)
    (k : string) (r : row) :
  filterRows check (Range data) !! k = Some r
  <-> data !! k = Some r /\ check r = true.
Proof.
  unfold filterRows. rewrite filterRows_lookup.
  - rewrite lookup_empty. rewrite (Range_perm row data), elem_of_map_to_list.
    split; [intros [H|H]; [discriminate|exact H]|auto].
  - rewrite (Range_perm row data). apply NoDup_fst_map_to_list.
  - intros. apply lookup_empty.
Qed.

Lemma forallb_Forall_true {A : Type} (f : A -> bool) (l : list A) :
  forallb f l = true <-> Forall (fun x => f x = true) l.
Proof.
  rewrite forallb_forall, Forall_forall. split; intros H x Hx; apply H.
  - now apply list_elem_of_In.
  - now apply list_elem_of_In.
Qed.

(** C6.  Both filters return on every text and dataset.  They return an
    error exactly when [Parse] returns one or the query is not a Select;
    otherwise they return the records of the dataset for which every
    condition is true for their evaluator, each under its key and unchanged,
    and so the whole dataset when there is no condition. *)
Theorem C6_filter_spec {rt : Runtime} (text : string) (data : gmap string row) :
  exists (q : query.Query) (perr : error),
    Parse text = Some (q, perr)
    /\ match perr with
       | Some msg =>
           Filter text data = Some (∅, Some ("failed to parse SQL: " ++ msg))
           /\ FilterRecursive text data = Some (∅, Some ("failed to parse SQL: " ++ msg))
       | None =>
           if query.Type_eqb (query.Type' q) query.Select then
             exists res res' : gmap string row,
               Filter text data = Some (res, None)
               /\ FilterRecursive text data = Some (res', None)
               /\ (forall k r,
                     res !! k = Some r
                     <-> data !! k = Some r
                         /\ Forall (fun c => checkCondition r c = true) (query.Conditions q))
               /\ (forall k r,
                     res' !! k = Some r
                     <-> data !! k = Some r
                         /\ Forall (fun c => evaluateConditionRecursive r c = true)
                              (query.Conditions q))
               /\ (query.Conditions q = [] -> res = data /\ res' = data)
           else
             Filter text data = Some (∅, Some "only SELECT queries can be filtered")
             /\ FilterRecursive text data
                = Some (∅, Some "only SELECT queries can be filtered")
       end.
Proof.
  destruct (Parse_returns text) as (q & perr & HP). exists q, perr.
  split; [exact HP|]. unfold Filter, FilterRecursive. rewrite HP.
  destruct perr as [msg|]; [split; reflexivity|].
  destruct (query.Type_eqb (query.Type' q) query.Select); [|split; reflexivity].
  cbn [negb].
  set (res := filterRows (fun r => checkConditions r (query.Conditions q)) (Range data)).
  set (res' := filterRows (fun r => evaluateConditionsRecursive r (query.Conditions q) 0)
                 (Range data)).
  assert (H1 : forall k r,
             res !! k = Some r
             <-> data !! k = Some r
                 /\ Forall (fun c => checkCondition r c = true) (query.Conditions q)).
  { intros k r. unfold res. rewrite filterRows_spec, checkConditions_forallb.
    now rewrite forallb_Forall_true. }
  assert (H2 : forall k r,
             res' !! k = Some r
             <-> data !! k = Some r
                 /\ Forall (fun c => evaluateConditionRecursive r c = true)
                      (query.Conditions q)).
  { intros k r. unfold res'. rewrite filterRows_spec, evaluateConditionsRecursive_forallb.
    now rewrite forallb_Forall_true. }
  exists res, res'. split; [reflexivity|]. split; [reflexivity|].
  split; [exact H1|]. split; [exact H2|]. intros Hnil.
  split; apply map_eq; intros k; apply option_eq; intros r;
    rewrite ?H1, ?H2, Hnil;
    (split; [now intros [? _]|intros; split; [assumption|constructor]]).
Qed.

(** * The round trip through [Query.String] *)

(** ** Text built by appending *)

Lemma nameByte_ascii7 (c : ascii) : nameByte c = true -> ascii7 c = true.
Proof. destruct c as [[] [] [] [] [] [] [] []]; vm_compute; intros; congruence. Qed.

Lemma isSep_ascii7 (c : ascii) : isSep c = true -> ascii7 c = true.
Proof. destruct c as [[] [] [] [] [] [] [] []]; vm_compute; intros; congruence. Qed.

Lemma ToUpper_ascii7 (c : ascii) (r : string) :
  ascii7 c = true -> ToUpper (String c r) = String (upper_byte c) (ToUpper r).
Proof.
  intros Hc. destruct r as [|d r]; [reflexivity|]. rewrite ToUpper_cons2.
  assert (H1 : Ascii.eqb c (ascii_of_N 196) = false)
    by (destruct c as [[] [] [] [] [] [] [] []]; vm_compute in *; congruence).
  assert (H2 : Ascii.eqb c (ascii_of_N 197) = false)
    by (destruct c as [[] [] [] [] [] [] [] []]; vm_compute in *; congruence).
  now rewrite H1, H2.
Qed.

Lemma ToUpper_app (f x : string) :
  forallb ascii7 (list_ascii_of_string f) = true ->
  ToUpper (f ++ x) = ToUpper f ++ ToUpper x.
Proof.
  induction f as [|c f IH]; [reflexivity|].
  cbn [list_ascii_of_string forallb]. intros [Hc Hf]%andb_prop.
  rewrite append_cons, !ToUpper_ascii7, append_cons, IH by assumption. reflexivity.
Qed.

Lemma len_ToUpper_ascii (f : string) :
  forallb ascii7 (list_ascii_of_string f) = true -> len (ToUpper f) = len f.
Proof.
  induction f as [|c f IH]; [reflexivity|].
  cbn [list_ascii_of_string forallb]. intros [Hc Hf]%andb_prop.
  rewrite ToUpper_ascii7 by assumption. unfold len in *. cbn. now rewrite IH.
Qed.

Lemma len_app (a b : string) : len (a ++ b) = len a + len b.
Proof.
  unfold len. induction a as [|c a IH]; [reflexivity|].
  rewrite append_cons. cbn. now rewrite IH.
Qed.

Lemma prefix_app_le (k : nat) (f x : string) :
  k <= len f -> prefix k (f ++ x) = prefix k f.
Proof.
  unfold prefix, len. revert k; induction f as [|c f IH]; intros [|k] Hk;
    rewrite ?substring_zero; try reflexivity; cbn in Hk; try lia.
  rewrite append_cons. cbn. rewrite IH by lia. reflexivity.
Qed.

Lemma prefix_app_ge (k : nat) (f x : string) :
  len f <= k -> prefix k (f ++ x) = f ++ prefix (k - len f) x.
Proof.
  unfold prefix, len. revert k; induction f as [|c f IH]; intros k Hk.
  - cbn. now rewrite Nat.sub_0_r.
  - destruct k as [|k]; [cbn in Hk; lia|].
    rewrite !append_cons. cbn in *. rewrite IH by lia. reflexivity.
Qed.

Lemma from_app (f x : string) : from (f ++ x) (len f) = x.
Proof.
  induction f as [|c f IH]; [apply from_0|].
  rewrite append_cons. unfold len. cbn [String.length]. rewrite from_S. apply IH.
Qed.

Lemma list_ascii_app (a b : string) :
  list_ascii_of_string (a ++ b) = (list_ascii_of_string a ++ list_ascii_of_string b)%list.
Proof.
  induction a as [|c a IH]; [reflexivity|]. rewrite append_cons. cbn. now rewrite IH.
Qed.

Lemma nameByte_isIdentChar (c : ascii) : nameByte c = true -> isIdentChar c = true.
Proof. destruct c as [[] [] [] [] [] [] [] []]; vm_compute; intros; congruence. Qed.

Lemma isSep_not_ident (c : ascii) : isSep c = true -> isIdentChar c = false.
Proof. destruct c as [[] [] [] [] [] [] [] []]; vm_compute; intros; congruence. Qed.

Lemma identLen_app (f x : string) :
  forallb nameByte (list_ascii_of_string f) = true -> tailSep x ->
  identLen (f ++ x) = len f.
Proof.
  intros Hf Hx. induction f as [|c f IH].
  - change ("" ++ x) with x. destruct x as [|d x]; [reflexivity|].
    cbn [identLen]. cbn in Hx. now rewrite isSep_not_ident.
  - cbn [list_ascii_of_string forallb] in Hf. apply andb_prop in Hf as [Hc Hf].
    rewrite append_cons. cbn [identLen]. rewrite nameByte_isIdentChar by assumption.
    rewrite IH by assumption. reflexivity.
Qed.

Lemma prefix_full (a : string) : prefix (len a) a = a.
Proof. apply substring_full. Qed.

Lemma get_app_r (a b : string) : String.get (len a) (a ++ b) = String.get 0 b.
Proof.
  unfold len. induction a as [|c a IH]; [reflexivity|].
  rewrite append_cons. cbn. apply IH.
Qed.

Lemma forallb_nameByte_ascii7 (f : string) :
  forallb nameByte (list_ascii_of_string f) = true ->
  forallb ascii7 (list_ascii_of_string f) = true.
Proof.
  induction (list_ascii_of_string f) as [|c l IH]; [reflexivity|]. cbn.
  intros [Hc Hl]%andb_prop. now rewrite nameByte_ascii7, IH.
Qed.

Lemma isSep_upper (c : ascii) : isSep c = true -> upper_byte c = c.
Proof. destruct c as [[] [] [] [] [] [] [] []]; vm_compute; intros; congruence. Qed.

(** No reserved word stands where a plain name begins. *)
Lemma no_clash_no_match (f w x : string) :
  forallb ascii7 (list_ascii_of_string f) = true ->
  clash f w = false -> tailSep x ->
  String.eqb (ToUpper (prefix (len w) (f ++ x))) w = false.
Proof.
  intros Hf Hc Hx. unfold clash in Hc.
  destruct (Nat.leb_spec (len w) (len f)) as [Hle|Hlt].
  - now rewrite prefix_app_le.
  - rewrite prefix_app_ge by lia.
    rewrite ToUpper_app by assumption.
    apply not_true_is_false. intros E%String.eqb_eq.
    pose proof (len_ToUpper_ascii f Hf) as Hlen.
    assert (H1 : prefix (len f) w = ToUpper f).
    { rewrite <- E, <- Hlen. rewrite prefix_app_le by lia. apply prefix_full. }
    rewrite H1, String.eqb_refl in Hc. cbn [andb] in Hc.
    assert (H2 : String.get (len f) w
                 = String.get 0 (ToUpper (prefix (len w - len f) x))).
    { rewrite <- E at 1. rewrite <- Hlen. apply get_app_r. }
    rewrite H2 in Hc. destruct x as [|s x].
    + apply (f_equal len) in E. rewrite len_app, Hlen in E.
      unfold prefix in E. rewrite substring_empty in E. cbn in E. lia.
    + cbn in Hx. destruct (len w - len f) as [|k] eqn:Ek; [lia|].
      unfold prefix in Hc. cbn [String.substring] in Hc.
      rewrite ToUpper_ascii7 in Hc by now apply isSep_ascii7.
      cbn [String.get] in Hc. rewrite isSep_upper in Hc by assumption. congruence.
Qed.

Lemma tokenName_parts (f : string) :
  tokenName f = true ->
  f <> ""
  /\ forallb nameByte (list_ascii_of_string f) = true
  /\ forallb (fun w => negb (clash f w)) reservedWords = true.
Proof.
  unfold tokenName. intros [[Hn ?]%andb_prop ?]%andb_prop.
  repeat split; try assumption. intros ->. discriminate.
Qed.

Lemma plainName_token (f : string) : plainName f = true -> tokenName f = true.
Proof. unfold plainName. now intros [_ ?]%andb_prop. Qed.

Lemma plainName_parts (f : string) :
  plainName f = true ->
  isIdentifier f = true
  /\ forallb nameByte (list_ascii_of_string f) = true
  /\ forallb (fun w => negb (clash f w)) reservedWords = true.
Proof.
  unfold plainName. intros [Hi (_ & ? & ?)%tokenName_parts]%andb_prop. auto.
Qed.

Lemma lexReserved_token (f x : string) :
  tokenName f = true -> tailSep x -> lexReserved (f ++ x) reservedWords = None.
Proof.
  intros (_ & Hf & Hw)%tokenName_parts Hx.
  induction reservedWords as [|w words IH]; [reflexivity|].
  cbn [forallb] in Hw. apply andb_prop in Hw as [Hc Hw].
  cbn [lexReserved]. apply negb_true_iff in Hc.
  rewrite (no_clash_no_match f w x (forallb_nameByte_ascii7 f Hf) Hc Hx). now apply IH.
Qed.

Lemma nameByte_not_quote (c : ascii) : nameByte c = true -> Ascii.eqb c quote = false.
Proof. destruct c as [[] [] [] [] [] [] [] []]; vm_compute; intros; congruence. Qed.

Lemma nameByte_not_space (c : ascii) : nameByte c = true -> Ascii.eqb c " " = false.
Proof. destruct c as [[] [] [] [] [] [] [] []]; vm_compute; intros; congruence. Qed.

Lemma tokenName_cons (f : string) :
  tokenName f = true -> exists c f', f = String c f' /\ nameByte c = true.
Proof.
  intros (Hi & Hf & _)%tokenName_parts. destruct f as [|c f']; [now contradiction Hi|].
  cbn [list_ascii_of_string forallb] in Hf. apply andb_prop in Hf as [Hc _]. eauto.
Qed.

Lemma plainName_cons (f : string) :
  plainName f = true -> exists c f', f = String c f' /\ nameByte c = true.
Proof. intros H. now apply tokenName_cons, plainName_token. Qed.

(** The token at such a name is the name. *)
Lemma lex_token (f x : string) :
  tokenName f = true -> tailSep x ->
  lex (f ++ x) = (f, len f) /\ afterToken (f ++ x) = skipSpace x.
Proof.
  intros Hp Hx.
  assert (Hl : lex (f ++ x) = (f, len f)).
  { destruct (tokenName_cons f Hp) as (c & f' & Ef & Hc).
    destruct (tokenName_parts f Hp) as (_ & Hf & _).
    unfold lex. rewrite (lexReserved_token f x Hp Hx).
    rewrite Ef at 1. rewrite append_cons. rewrite nameByte_not_quote by assumption.
    unfold lexIdentifier. rewrite identLen_app by assumption.
    now rewrite prefix_app_le, prefix_full by lia. }
  split; [exact Hl|]. unfold afterToken. rewrite Hl. cbn [snd]. now rewrite from_app.
Qed.

Lemma lex_name (f x : string) :
  plainName f = true -> tailSep x ->
  lex (f ++ x) = (f, len f) /\ afterToken (f ++ x) = skipSpace x.
Proof. intros H. now apply lex_token, plainName_token. Qed.

Lemma prefix_all (k : nat) (s : string) : len s <= k -> prefix k s = s.
Proof.
  intros H. rewrite <- prefix_min. replace (Nat.min (len s) k) with (len s) by lia.
  apply prefix_full.
Qed.

(** The reserved words met at [f] followed by a separator are those met at
    [f] alone, unless a longer word goes on over the separator. *)
Lemma lexReserved_app (f x : string) (words : list string) :
  forallb ascii7 (list_ascii_of_string f) = true -> tailSep x ->
  forallb (fun w => (len w <=? len f) || negb (clash f w)) words = true ->
  lexReserved (f ++ x) words = lexReserved f words.
Proof.
  intros Hf Hx. induction words as [|w words IH]; [reflexivity|].
  cbn [forallb lexReserved]. intros [Hw Hws]%andb_prop.
  destruct (Nat.leb_spec (len w) (len f)) as [Hle|Hlt].
  - rewrite prefix_app_le by assumption. case_match; [reflexivity|]. now apply IH.
  - cbn [orb] in Hw. apply negb_true_iff in Hw.
    rewrite (no_clash_no_match f w x Hf Hw Hx).
    rewrite (prefix_all (len w) f) by lia.
    destruct (String.eqb_spec (ToUpper f) w) as [E|N]; [|now apply IH].
    apply (f_equal len) in E.
    rewrite len_ToUpper_ascii in E by assumption. lia.
Qed.

Lemma lex_keyword (k x : string) :
  forallb ascii7 (list_ascii_of_string k) = true -> tailSep x ->
  forallb (fun w => (len w <=? len k) || negb (clash k w)) reservedWords = true ->
  lexReserved k reservedWords = Some (k, len k) ->
  lex (k ++ x) = (k, len k) /\ afterToken (k ++ x) = skipSpace x.
Proof.
  intros Hk Hx Hw Hl.
  assert (E : lex (k ++ x) = (k, len k)).
  { unfold lex. rewrite (lexReserved_app k x _ Hk Hx Hw), Hl.
    destruct k; [discriminate|]. now rewrite append_cons. }
  split; [exact E|]. unfold afterToken. now rewrite E, from_app.
Qed.

Lemma lex_SELECT (x : string) :
  tailSep x -> lex ("SELECT" ++ x) = ("SELECT", 6) /\ afterToken ("SELECT" ++ x) = skipSpace x.
Proof. intros Hx. now apply (lex_keyword "SELECT" x). Qed.

Lemma lex_FROM (x : string) :
  tailSep x -> lex ("FROM" ++ x) = ("FROM", 4) /\ afterToken ("FROM" ++ x) = skipSpace x.
Proof. intros Hx. now apply (lex_keyword "FROM" x). Qed.

Lemma lex_comma (x : string) :
  lex ("," ++ x) = (",", 1) /\ afterToken ("," ++ x) = skipSpace x.
Proof.
  assert (E : lex ("," ++ x) = (",", 1)).
  { unfold lex. rewrite append_cons. cbn [lexReserved reservedWords].
    destruct x as [|c x]; reflexivity. }
  split; [exact E|]. unfold afterToken. rewrite E. cbn [snd].
  change 1 with (len ","). now rewrite from_app.
Qed.

(** ** Quoted values *)

Lemma lexReserved_quote (r : string) (words : list string) :
  forallb (fun w => match w with
                    | String d _ => negb (Ascii.eqb quote d)
                    | EmptyString => false
                    end) words = true ->
  lexReserved (String quote r) words = None.
Proof.
  induction words as [|w words IH]; [reflexivity|].
  cbn [forallb lexReserved]. intros [Hw Hws]%andb_prop.
  destruct w as [|d w]; [discriminate|].
  change (prefix (len (String d w)) (String quote r))
    with (String quote (prefix (len w) r)).
  rewrite ToUpper_ascii7 by reflexivity.
  change (upper_byte quote) with quote. cbn [String.eqb].
  apply negb_true_iff in Hw. rewrite Hw. now apply IH.
Qed.

(** ** Texts that [TrimSpace] leaves as they are *)

Lemma trim_left_keep (fuel : nat) (a : ascii) (l : list ascii) :
  inkByte a = true -> trim_left fuel (a :: l) = a :: l.
Proof.
  intros H. destruct fuel as [|fuel]; [reflexivity|]. cbn [trim_left].
  assert (H1 : ascii_space a = false).
  { unfold inkByte in H. apply andb_prop in H as [_ H]. now apply negb_true_iff. }
  assert (H2 : forall b, space2 a b = false).
  { intros b. unfold space2.
    replace (N_of_ascii a =? 194)%N with false; [reflexivity|].
    destruct a as [[] [] [] [] [] [] [] []]; try reflexivity; discriminate. }
  assert (H3 : forall b c, space3 a b c = false).
  { intros b c. unfold space3.
    replace (N_of_ascii a =? 225)%N with false
      by (destruct a as [[] [] [] [] [] [] [] []]; try reflexivity; discriminate).
    replace (N_of_ascii a =? 226)%N with false
      by (destruct a as [[] [] [] [] [] [] [] []]; try reflexivity; discriminate).
    replace (N_of_ascii a =? 227)%N with false
      by (destruct a as [[] [] [] [] [] [] [] []]; try reflexivity; discriminate).
    reflexivity. }
  rewrite H1. destruct l as [|b [|c l]]; rewrite ?H2, ?H3; reflexivity.
Qed.

Lemma trim_right_rev_keep (fuel : nat) (a : ascii) (l : list ascii) :
  inkByte a = true -> trim_right_rev fuel (a :: l) = a :: l.
Proof.
  intros H. destruct fuel as [|fuel]; [reflexivity|]. cbn [trim_right_rev].
  assert (H1 : ascii_space a = false).
  { unfold inkByte in H. apply andb_prop in H as [_ H]. now apply negb_true_iff. }
  assert (H2 : forall b, space2 b a = false).
  { intros b. unfold space2.
    replace ((N_of_ascii a =? 133) || (N_of_ascii a =? 160))%N with false;
      [apply andb_false_r|].
    destruct a as [[] [] [] [] [] [] [] []]; try reflexivity; discriminate. }
  assert (H3 : forall b c, space3 c b a = false).
  { intros b c. unfold space3.
    replace (N_of_ascii a =? 128)%N with false
      by (destruct a as [[] [] [] [] [] [] [] []]; try reflexivity; discriminate).
    replace (N_of_ascii a =? 159)%N with false
      by (destruct a as [[] [] [] [] [] [] [] []]; try reflexivity; discriminate).
    replace ((128 <=? N_of_ascii a) && (N_of_ascii a <=? 138)
             || (N_of_ascii a =? 168) || (N_of_ascii a =? 169)
             || (N_of_ascii a =? 175))%N with false
      by (destruct a as [[] [] [] [] [] [] [] []]; try reflexivity; discriminate).
    now rewrite !andb_false_r. }
  rewrite H1. destruct l as [|b [|c l]]; rewrite ?H2, ?H3; reflexivity.
Qed.

Lemma TrimSpace_keep (s : string) (a b : ascii) (l l' : list ascii) :
  list_ascii_of_string s = a :: l -> inkByte a = true ->
  rev (list_ascii_of_string s) = b :: l' -> inkByte b = true ->
  TrimSpace s = s.
Proof.
  intros E Ha E' Hb. unfold TrimSpace. rewrite E, trim_left_keep by assumption.
  rewrite <- E, E', trim_right_rev_keep by assumption.
  now rewrite <- E', rev_involutive, string_of_list_ascii_of_string.
Qed.

(** ** Turns of the loop, by the text that is left *)

Lemma rest_cons_lt (p : parser) (c : ascii) (r : string) :
  rest p = String c r -> i p < len (sql p).
Proof.
  intros E. apply (f_equal len) in E. unfold rest in E. rewrite len_from in E.
  cbn in E. lia.
Qed.

Lemma rest_empty_ge (p : parser) : rest p = "" -> len (sql p) <= i p.
Proof.
  intros E. apply (f_equal len) in E. unfold rest in E. rewrite len_from in E.
  cbn in E. lia.
Qed.

Lemma peek_rest (p : parser) (r t : string) (n : nat) :
  i p <= len (sql p) -> rest p = r -> lex r = (t, n) -> peek p = t.
Proof. intros Hi <- E. unfold peek. now rewrite peekWithLength_lex, E. Qed.

Lemma pop_rest (p : parser) (r r' : string) :
  i p <= len (sql p) -> rest p = r -> afterToken r = r' ->
  rest (pop p) = r' /\ i (pop p) <= len (sql (pop p)).
Proof. intros Hi <- <-. destruct (rest_pop p Hi). auto. Qed.

Lemma turn_type (p : parser) (q : query.Query) (x : string) :
  at_state p stepType q ("SELECT" ++ x) -> tailSep x ->
  exists p1, reaches p p1
             /\ at_state p1 stepSelectField (query.set_Type q query.Select) (skipSpace x).
Proof.
  intros (Hs & Hq & Hr & Hi) Hx. destruct (lex_SELECT x Hx) as [Hl Ha].
  pose proof (peek_rest p _ _ _ Hi Hr Hl) as Hp.
  set (p0 := set_query p (query.set_Type (query_ p) query.Select)).
  destruct (pop_rest p0 _ _ Hi Hr Ha) as [Hr1 Hi1].
  exists (set_step (pop p0) stepSelectField). split.
  - eapply reaches_turn; [eapply rest_cons_lt; exact Hr| |constructor].
    unfold doStep. rewrite Hs. unfold typeStep. rewrite Hp. reflexivity.
  - repeat split; [now rewrite <- Hq|exact Hr1|exact Hi1].
Qed.

Lemma turn_comma (p : parser) (q : query.Query) (y : string) :
  at_state p stepSelectComma q ("," ++ y) ->
  exists p1, reaches p p1 /\ at_state p1 stepSelectField q (skipSpace y).
Proof.
  intros (Hs & Hq & Hr & Hi). destruct (lex_comma y) as [Hl Ha].
  pose proof (peek_rest p _ _ _ Hi Hr Hl) as Hp.
  destruct (pop_rest p _ _ Hi Hr Ha) as [Hr1 Hi1].
  exists (set_step (pop p) stepSelectField). split.
  - eapply reaches_turn; [eapply rest_cons_lt; exact Hr| |constructor].
    unfold doStep. rewrite Hs. unfold expectStep. rewrite Hp. reflexivity.
  - repeat split; [exact Hq|exact Hr1|exact Hi1].
Qed.

Lemma turn_from (p : parser) (q : query.Query) (y : string) :
  at_state p stepSelectFrom q ("FROM" ++ y) -> tailSep y ->
  exists p1, reaches p p1 /\ at_state p1 stepSelectFromTable q (skipSpace y).
Proof.
  intros (Hs & Hq & Hr & Hi) Hy. destruct (lex_FROM y Hy) as [Hl Ha].
  pose proof (peek_rest p _ _ _ Hi Hr Hl) as Hp.
  destruct (pop_rest p _ _ Hi Hr Ha) as [Hr1 Hi1].
  exists (set_step (pop p) stepSelectFromTable). split.
  - eapply reaches_turn; [eapply rest_cons_lt; exact Hr| |constructor].
    unfold doStep. rewrite Hs. unfold expectStep. rewrite Hp. reflexivity.
  - repeat split; [exact Hq|exact Hr1|exact Hi1].
Qed.

Lemma skipSpace_token (f x : string) :
  tokenName f = true -> skipSpace (f ++ x) = f ++ x.
Proof.
  intros (c & f' & -> & Hc)%tokenName_cons. rewrite append_cons. cbn [skipSpace].
  now rewrite nameByte_not_space.
Qed.

Lemma skipSpace_name (f x : string) :
  plainName f = true -> skipSpace (f ++ x) = f ++ x.
Proof. intros H. now apply skipSpace_token, plainName_token. Qed.

Lemma set_Fields_app (q : query.Query) (a b : list string) :
  let q1 := query.set_Fields q (query.Fields q ++ a)%list in
  query.set_Fields q1 (query.Fields q1 ++ b)%list
  = query.set_Fields q (query.Fields q ++ a ++ b)%list.
Proof. destruct q. cbn. now rewrite <- app_assoc. Qed.

Lemma nameByte_inkByte (c : ascii) : nameByte c = true -> inkByte c = true.
Proof. destruct c as [[] [] [] [] [] [] [] []]; vm_compute; intros; congruence. Qed.

Lemma rev_name (t : string) :
  tokenName t = true ->
  exists b l, rev (list_ascii_of_string t) = b :: l /\ inkByte b = true.
Proof.
  intros Ht. destruct (tokenName_cons t Ht) as (c & t' & -> & _).
  destruct (tokenName_parts _ Ht) as (_ & Hn & _).
  destruct (rev (list_ascii_of_string (String c t'))) as [|b l] eqn:E.
  - apply (f_equal (@rev ascii)) in E. rewrite rev_involutive in E. discriminate.
  - exists b, l. split; [reflexivity|]. apply nameByte_inkByte.
    apply (f_equal (@rev ascii)) in E. rewrite rev_involutive in E. rewrite E in Hn.
    cbn [rev] in Hn. rewrite forallb_app in Hn. apply andb_prop in Hn as [_ Hn].
    cbn in Hn. now apply andb_prop in Hn as [Hn _].
Qed.

Lemma closingQuote_app (a x : string) (prev : ascii) (n : nat) :
  closingQuote a prev = Some n -> closingQuote (a ++ x) prev = Some n.
Proof.
  revert prev n. induction a as [|c a IH]; intros prev n; [discriminate|].
  rewrite append_cons. cbn [closingQuote].
  destruct (Ascii.eqb c quote && negb (Ascii.eqb prev backslash)); [auto|].
  destruct (closingQuote a c) as [k|] eqn:E; [|discriminate].
  intros [= <-]. now rewrite (IH c k E).
Qed.

Lemma len_quoted (v : string) : len (quoted v) = len v + 2.
Proof. unfold quoted. rewrite !len_app. cbn. lia. Qed.

Lemma literal_closingQuote (v : string) :
  literal v = true -> closingQuote (v ++ "'") quote = Some (len v).
Proof.
  unfold literal. destruct (closingQuote (v ++ "'") quote) as [n|]; [|discriminate].
  now intros ->%Nat.eqb_eq.
Qed.

(** The token at a quoted value is the value. *)
Lemma lex_literal (v x : string) :
  literal v = true ->
  lexQuoted (quoted v ++ x) = (v, len v + 2)
  /\ lex (quoted v ++ x) = (v, len v + 2)
  /\ afterToken (quoted v ++ x) = skipSpace x.
Proof.
  intros Hv%literal_closingQuote.
  assert (E : quoted v ++ x = String quote ((v ++ "'") ++ x)).
  { unfold quoted. now rewrite !append_assoc. }
  assert (Q : lexQuoted (quoted v ++ x) = (v, len v + 2)).
  { rewrite E. unfold lexQuoted. rewrite Ascii.eqb_refl.
    rewrite (closingQuote_app _ x _ _ Hv).
    now rewrite append_assoc, prefix_app_le, prefix_full by lia. }
  assert (L : lex (quoted v ++ x) = (v, len v + 2)).
  { rewrite <- Q. rewrite E. unfold lex. rewrite lexReserved_quote by reflexivity.
    now rewrite Ascii.eqb_refl. }
  split; [exact Q|]. split; [exact L|]. unfold afterToken. rewrite L. cbn [snd].
  now rewrite <- len_quoted, from_app.
Qed.

Lemma peekQuoted_lex (p : parser) :
  i p < len (sql p) -> peekQuotedStringWithLength p = Some (lexQuoted (rest p)).
Proof.
  intros Hlt. unfold peekQuotedStringWithLength.
  destruct (Nat.ltb_spec (len (sql p)) (i p)); [lia|].
  destruct (get_Some (sql p) (i p) Hlt) as [c Hc]. rewrite Hc.
  assert (Hr : rest p = String c (from (sql p) (S (i p)))).
  { unfold rest. now rewrite (from_get (sql p) (i p)), Hc. }
  rewrite Hr. unfold lexQuoted.
  destruct (Ascii.eqb c quote) eqn:Eq; [|reflexivity]. cbn [negb].
  rewrite scanQuoted_rest by lia.
  replace (i p + 1) with (S (i p)) by lia.
  destruct (closingQuote (from (sql p) (S (i p))) c) as [k|] eqn:Ek; [|reflexivity].
  unfold slice. replace (S (i p) + k - S (i p)) with k by lia.
  rewrite substring_from, len_prefix.
  apply closingQuote_lt in Ek.
  now replace (Nat.min k (len (from (sql p) (S (i p))))) with k by lia.
Qed.

Lemma lexReserved_head (c : ascii) (r : string) (words : list string) :
  ascii7 c = true ->
  forallb (fun w => match w with
                    | String d _ => negb (Ascii.eqb (upper_byte c) d)
                    | EmptyString => false
                    end) words = true ->
  lexReserved (String c r) words = None.
Proof.
  intros Hc. induction words as [|w words IH]; [reflexivity|].
  cbn [forallb lexReserved]. intros [Hw Hws]%andb_prop.
  destruct w as [|d w]; [discriminate|].
  change (prefix (len (String d w)) (String c r)) with (String c (prefix (len w) r)).
  rewrite ToUpper_ascii7 by assumption. cbn [String.eqb].
  apply negb_true_iff in Hw. rewrite Hw. now apply IH.
Qed.

Lemma lex_star (x : string) :
  tailSep x -> lex ("*" ++ x) = ("*", 1) /\ afterToken ("*" ++ x) = skipSpace x.
Proof.
  intros Hx.
  assert (E : lex ("*" ++ x) = ("*", 1)).
  { rewrite append_cons. change ("" ++ x) with x. unfold lex.
    rewrite lexReserved_head by reflexivity. cbn [Ascii.eqb Bool.eqb quote].
    unfold lexIdentifier. cbn [identLen].
    change (isIdentChar "*") with true. cbv iota.
    assert (H0 : identLen x = 0).
    { destruct x as [|c x]; [reflexivity|]. cbn in Hx. cbn [identLen].
      now rewrite isSep_not_ident. }
    rewrite H0. unfold prefix. cbn [String.substring]. now rewrite substring_zero. }
  split; [exact E|]. unfold afterToken. rewrite E. cbn [snd].
  change 1 with (len "*"). now rewrite from_app.
Qed.

Lemma lex_operator (o : query.Operator) (x : string) :
  o <> query.UnknownOperator -> tailSep x ->
  lex (query.Operator_String o ++ x)
  = (query.Operator_String o, len (query.Operator_String o))
  /\ afterToken (query.Operator_String o ++ x) = skipSpace x
  /\ operatorOf (query.Operator_String o) = Some o.
Proof.
  intros Ho Hx.
  assert (H : lex (query.Operator_String o ++ x)
              = (query.Operator_String o, len (query.Operator_String o))
              /\ afterToken (query.Operator_String o ++ x) = skipSpace x).
  { destruct o; try contradiction; now apply lex_keyword. }
  destruct H as [H1 H2]. repeat split; try assumption.
  destruct o; try contradiction; reflexivity.
Qed.

Lemma lex_WHERE (x : string) :
  tailSep x -> lex ("WHERE" ++ x) = ("WHERE", 5) /\ afterToken ("WHERE" ++ x) = skipSpace x.
Proof. intros Hx. now apply (lex_keyword "WHERE" x). Qed.

Lemma lex_AS (x : string) :
  tailSep x -> lex ("AS" ++ x) = ("AS", 2) /\ afterToken ("AS" ++ x) = skipSpace x.
Proof. intros Hx. now apply (lex_keyword "AS" x). Qed.

Lemma lex_DELETE_FROM (x : string) :
  tailSep x ->
  lex ("DELETE FROM" ++ x) = ("DELETE FROM", 11)
  /\ afterToken ("DELETE FROM" ++ x) = skipSpace x.
Proof. intros Hx. now apply (lex_keyword "DELETE FROM" x). Qed.

Lemma plainName_AND : plainName "AND" = true.
Proof. reflexivity. Qed.

(** ** Turns of the WHERE states *)

Lemma lex_paren (x : string) :
  lex ("(" ++ x) = ("(", 1) /\ afterToken ("(" ++ x) = skipSpace x.
Proof.
  assert (E : lex ("(" ++ x) = ("(", 1)).
  { unfold lex. rewrite append_cons. cbn [lexReserved reservedWords].
    destruct x as [|c x]; reflexivity. }
  split; [exact E|]. unfold afterToken. rewrite E. cbn [snd].
  change 1 with (len "("). now rewrite from_app.
Qed.

Lemma lex_close (x : string) :
  lex (")" ++ x) = (")", 1) /\ afterToken (")" ++ x) = skipSpace x.
Proof.
  assert (E : lex (")" ++ x) = (")", 1)).
  { unfold lex. rewrite append_cons. cbn [lexReserved reservedWords].
    destruct x as [|c x]; reflexivity. }
  split; [exact E|]. unfold afterToken. rewrite E. cbn [snd].
  change 1 with (len ")"). now rewrite from_app.
Qed.

Lemma plainName_isIdentifier (f : string) : plainName f = true -> isIdentifier f = true.
Proof. now intros (H & _)%plainName_parts. Qed.

Lemma set_Conditions_twice (q : query.Query) (a b : list query.Condition) :
  query.set_Conditions (query.set_Conditions q a) b = query.set_Conditions q b.
Proof. now destruct q. Qed.

Lemma turn_expect (p : parser) (st next : step) (q : query.Query)
    (k x msg : string) (n : nat) (ok : bool) :
  at_state p st q (k ++ x) -> k <> "" ->
  lex (k ++ x) = (k, n) -> afterToken (k ++ x) = skipSpace x ->
  (peek p = k -> step_ p = st -> doStep p = expectStep p ok msg next) ->
  (peek p = k -> ok = true) ->
  exists p1, reaches p p1 /\ at_state p1 next q (skipSpace x).
Proof.
  intros (Hs & Hq & Hr & Hi) Hk Hl Ha Hd Hok.
  pose proof (peek_rest p _ _ _ Hi Hr Hl) as Hp.
  destruct (pop_rest p _ _ Hi Hr Ha) as [Hr1 Hi1].
  exists (set_step (pop p) next). split.
  - eapply reaches_turn; [| |constructor].
    + destruct k; [contradiction|]. eapply rest_cons_lt; exact Hr.
    + rewrite (Hd Hp Hs). unfold expectStep. now rewrite (Hok Hp).
  - repeat split; [exact Hq|exact Hr1|exact Hi1].
Qed.

Lemma turn_where (p : parser) (q : query.Query) (x : string) :
  at_state p stepWhere q ("WHERE" ++ x) -> tailSep x ->
  exists p1, reaches p p1 /\ at_state p1 stepWhereField q (skipSpace x).
Proof.
  intros H Hx. destruct (lex_WHERE x Hx) as [Hl Ha].
  eapply (turn_expect p stepWhere); try eassumption; [discriminate| |].
  - intros _ Hs. unfold doStep. now rewrite Hs.
  - now intros ->.
Qed.

Lemma turn_and (p : parser) (q : query.Query) (x : string) :
  at_state p stepWhereAnd q ("AND" ++ x) -> tailSep x ->
  exists p1, reaches p p1 /\ at_state p1 stepWhereField q (skipSpace x).
Proof.
  intros H Hx. destruct (lex_name "AND" x plainName_AND Hx) as [Hl Ha].
  eapply (turn_expect p stepWhereAnd); try eassumption; [discriminate| |].
  - intros _ Hs. unfold doStep. now rewrite Hs.
  - now intros ->.
Qed.

Lemma turn_inOpen (p : parser) (q : query.Query) (x : string) :
  at_state p stepWhereInOpeningParens q ("(" ++ x) ->
  exists p1, reaches p p1 /\ at_state p1 stepWhereInValue q (skipSpace x).
Proof.
  intros H. destruct (lex_paren x) as [Hl Ha].
  eapply (turn_expect p stepWhereInOpeningParens); try eassumption; [discriminate| |].
  - intros _ Hs. unfold doStep. now rewrite Hs.
  - now intros ->.
Qed.

Lemma turn_whereField (p : parser) (q : query.Query) (f x : string) :
  at_state p stepWhereField q (f ++ x) -> plainName f = true -> tailSep x ->
  exists p1,
    reaches p p1
    /\ at_state p1 stepWhereOperator
         (query.set_Conditions q
            (query.Conditions q
               ++ [query.mkCondition f true query.UnknownOperator "" false []])%list)
         (skipSpace x).
Proof.
  intros (Hs & Hq & Hr & Hi) Hf Hx. destruct (lex_name f x Hf Hx) as [Hl Ha].
  pose proof (peek_rest p _ _ _ Hi Hr Hl) as Hp.
  set (c := query.mkCondition f true query.UnknownOperator "" false []).
  set (p0 := set_query p
               (query.set_Conditions (query_ p) (query.Conditions (query_ p) ++ [c])%list)).
  destruct (pop_rest p0 _ _ Hi Hr Ha) as [Hr1 Hi1].
  exists (set_step (pop p0) stepWhereOperator). split.
  - eapply reaches_turn; [| |constructor].
    + destruct (plainName_cons f Hf) as (c' & f' & -> & _). eapply rest_cons_lt; exact Hr.
    + unfold doStep. rewrite Hs. unfold whereFieldStep. cbv zeta. rewrite Hp.
      now rewrite plainName_isIdentifier.
  - unfold at_state. subst q. split; [reflexivity|]. split; [reflexivity|].
    split; [exact Hr1|exact Hi1].
Qed.

Lemma turn_whereOperator (p : parser) (q : query.Query) (o : query.Operator) (x : string)
    (cs : list query.Condition) (c0 : query.Condition) :
  at_state p stepWhereOperator q (query.Operator_String o ++ x) ->
  o <> query.UnknownOperator -> tailSep x ->
  query.Conditions q = (cs ++ [c0])%list ->
  exists p1,
    reaches p p1
    /\ at_state p1 (if isIn o then stepWhereInOpeningParens else stepWhereValue)
         (query.set_Conditions q (cs ++ [query.set_Operator c0 o])%list)
         (skipSpace x).
Proof.
  intros (Hs & Hq & Hr & Hi) Ho Hx Hc. destruct (lex_operator o x Ho Hx) as (Hl & Ha & Hop).
  pose proof (peek_rest p _ _ _ Hi Hr Hl) as Hp.
  set (p0 := setLastCondition p (query.set_Operator c0 o)).
  destruct (pop_rest p0 _ _ Hi Hr Ha) as [Hr1 Hi1].
  exists (set_step (pop p0) (if isIn o then stepWhereInOpeningParens else stepWhereValue)).
  split.
  - eapply reaches_turn; [| |constructor].
    + destruct o; try contradiction; eapply rest_cons_lt; exact Hr.
    + unfold doStep. rewrite Hs. unfold whereOperatorStep. cbv zeta.
      rewrite Hp, Hq, Hc, last_snoc, Hop. fold p0. now destruct (isIn o).
  - unfold at_state. split; [reflexivity|]. split; [|split; [exact Hr1|exact Hi1]].
    unfold p0, setLastCondition. cbn [query_ pop popWhitespace set_step set_query set_i].
    rewrite Hq, Hc. now rewrite setLast_snoc.
Qed.

Lemma rest_quoted_lt (p : parser) (v x : string) :
  rest p = quoted v ++ x -> i p < len (sql p).
Proof. unfold quoted. rewrite append_cons. apply rest_cons_lt. Qed.

Lemma turn_whereValue_field (p : parser) (q : query.Query) (f x : string)
    (cs : list query.Condition) (c0 : query.Condition) :
  at_state p stepWhereValue q (f ++ x) -> plainName f = true -> tailSep x ->
  query.Conditions q = (cs ++ [c0])%list -> isLike (query.Operator_ c0) = false ->
  exists p1,
    reaches p p1
    /\ at_state p1 stepWhereAnd
         (query.set_Conditions q (cs ++ [query.set_Operand2 c0 f true])%list)
         (skipSpace x).
Proof.
  intros (Hs & Hq & Hr & Hi) Hf Hx Hc Hlike. destruct (lex_name f x Hf Hx) as [Hl Ha].
  pose proof (peek_rest p _ _ _ Hi Hr Hl) as Hp.
  set (p0 := setLastCondition p (query.set_Operand2 c0 f true)).
  destruct (pop_rest p0 _ _ Hi Hr Ha) as [Hr1 Hi1].
  exists (set_step (pop p0) stepWhereAnd). split.
  - eapply reaches_turn; [| |constructor].
    + destruct (plainName_cons f Hf) as (c' & f' & -> & _). eapply rest_cons_lt; exact Hr.
    + unfold doStep. rewrite Hs. unfold whereValueStep. cbv zeta.
      rewrite Hq, Hc, last_snoc, Hlike, Hp. now rewrite plainName_isIdentifier.
  - unfold at_state. split; [reflexivity|]. split; [|split; [exact Hr1|exact Hi1]].
    unfold p0, setLastCondition. cbn [query_ pop popWhitespace set_step set_query set_i].
    rewrite Hq, Hc. now rewrite setLast_snoc.
Qed.

Lemma turn_whereValue_literal (p : parser) (q : query.Query) (v x : string)
    (cs : list query.Condition) (c0 : query.Condition) :
  at_state p stepWhereValue q (quoted v ++ x) -> literal v = true ->
  query.Conditions q = (cs ++ [c0])%list ->
  isLike (query.Operator_ c0) || negb (isIdentifier v) = true ->
  exists p1,
    reaches p p1
    /\ at_state p1 stepWhereAnd
         (query.set_Conditions q (cs ++ [query.set_Operand2 c0 v false])%list)
         (skipSpace x).
Proof.
  intros (Hs & Hq & Hr & Hi) Hv Hc Hk. destruct (lex_literal v x Hv) as (HQ & Hl & Ha).
  pose proof (peek_rest p _ _ _ Hi Hr Hl) as Hp.
  pose proof (rest_quoted_lt p v x Hr) as Hlt.
  set (p0 := setLastCondition p (query.set_Operand2 c0 v false)).
  destruct (pop_rest p0 _ _ Hi Hr Ha) as [Hr1 Hi1].
  assert (Hn : (len v + 2 =? 0) = false) by (apply Nat.eqb_neq; lia).
  exists (set_step (pop p0) stepWhereAnd). split.
  - eapply reaches_turn; [exact Hlt| |constructor].
    unfold doStep. rewrite Hs. unfold whereValueStep. cbv zeta.
    rewrite Hq, Hc, last_snoc, (peekQuoted_lex p Hlt), Hr, HQ, Hn, Hp.
    destruct (isLike (query.Operator_ c0)); [reflexivity|].
    cbn [orb] in Hk. apply negb_true_iff in Hk. now rewrite Hk.
  - unfold at_state. split; [reflexivity|]. split; [|split; [exact Hr1|exact Hi1]].
    unfold p0, setLastCondition. cbn [query_ pop popWhitespace set_step set_query set_i].
    rewrite Hq, Hc. now rewrite setLast_snoc.
Qed.

Lemma turn_inValue (p : parser) (q : query.Query) (v x : string)
    (cs : list query.Condition) (c0 : query.Condition) :
  at_state p stepWhereInValue q (quoted v ++ x) -> literal v = true ->
  query.Conditions q = (cs ++ [c0])%list ->
  exists p1,
    reaches p p1
    /\ at_state p1 stepWhereInCommaOrClosingParens
         (query.set_Conditions q
            (cs ++ [query.set_InValues c0 (query.InValues c0 ++ [v])%list])%list)
         (skipSpace x).
Proof.
  intros (Hs & Hq & Hr & Hi) Hv Hc. destruct (lex_literal v x Hv) as (HQ & Hl & Ha).
  pose proof (rest_quoted_lt p v x Hr) as Hlt.
  set (p0 := setLastCondition p
               (query.set_InValues c0 (query.InValues c0 ++ [v])%list)).
  destruct (pop_rest p0 _ _ Hi Hr Ha) as [Hr1 Hi1].
  assert (Hn : (len v + 2 =? 0) = false) by (apply Nat.eqb_neq; lia).
  exists (set_step (pop p0) stepWhereInCommaOrClosingParens). split.
  - eapply reaches_turn; [exact Hlt| |constructor].
    unfold doStep. rewrite Hs. unfold whereInValueStep. cbv zeta.
    now rewrite (peekQuoted_lex p Hlt), Hr, HQ, Hn, Hq, Hc, last_snoc.
  - unfold at_state. split; [reflexivity|]. split; [|split; [exact Hr1|exact Hi1]].
    unfold p0, setLastCondition. cbn [query_ pop popWhitespace set_step set_query set_i].
    rewrite Hq, Hc. now rewrite setLast_snoc.
Qed.

Lemma turn_inComma (p : parser) (q : query.Query) (x : string) :
  at_state p stepWhereInCommaOrClosingParens q ("," ++ x) ->
  exists p1, reaches p p1 /\ at_state p1 stepWhereInValue q (skipSpace x).
Proof.
  intros (Hs & Hq & Hr & Hi). destruct (lex_comma x) as [Hl Ha].
  pose proof (peek_rest p _ _ _ Hi Hr Hl) as Hp.
  destruct (pop_rest p _ _ Hi Hr Ha) as [Hr1 Hi1].
  exists (set_step (pop p) stepWhereInValue). split.
  - eapply reaches_turn; [eapply rest_cons_lt; exact Hr| |constructor].
    unfold doStep. rewrite Hs. unfold whereInCommaOrClosingParensStep. cbv zeta.
    now rewrite Hp.
  - repeat split; [exact Hq|exact Hr1|exact Hi1].
Qed.

Lemma turn_inClose (p : parser) (q : query.Query) (x : string) :
  at_state p stepWhereInCommaOrClosingParens q (")" ++ x) ->
  exists p1, reaches p p1 /\ at_state p1 stepWhereAnd q (skipSpace x).
Proof.
  intros (Hs & Hq & Hr & Hi). destruct (lex_close x) as [Hl Ha].
  pose proof (peek_rest p _ _ _ Hi Hr Hl) as Hp.
  destruct (pop_rest p _ _ Hi Hr Ha) as [Hr1 Hi1].
  exists (set_step (pop p) stepWhereAnd). split.
  - eapply reaches_turn; [eapply rest_cons_lt; exact Hr| |constructor].
    unfold doStep. rewrite Hs. unfold whereInCommaOrClosingParensStep. cbv zeta.
    now rewrite Hp.
  - repeat split; [exact Hq|exact Hr1|exact Hi1].
Qed.

(** ** Runs over the conditions *)

Lemma set_InValues_app (c : query.Condition) (a b : list string) :
  let c1 := query.set_InValues c (query.InValues c ++ a)%list in
  query.set_InValues c1 (query.InValues c1 ++ b)%list
  = query.set_InValues c (query.InValues c ++ a ++ b)%list.
Proof. destruct c. cbn. now rewrite <- app_assoc. Qed.

Lemma Join_cons2 (a b : string) (l : list string) (sep : string) :
  Join (a :: b :: l) sep = a ++ sep ++ Join (b :: l) sep.
Proof. reflexivity. Qed.

(** The turns over the values of an IN list, from its first value on. *)
Lemma run_inValues (vs : list string) (x : string) :
  Forall (fun v => literal v = true) vs ->
  forall (v : string) (p : parser) (q : query.Query)
         (cs : list query.Condition) (c0 : query.Condition),
    literal v = true ->
    at_state p stepWhereInValue q ("'" ++ Join (v :: vs) "', '" ++ "')" ++ x) ->
    query.Conditions q = (cs ++ [c0])%list ->
    exists p1,
      reaches p p1
      /\ at_state p1 stepWhereAnd
           (query.set_Conditions q
              (cs ++ [query.set_InValues c0 (query.InValues c0 ++ v :: vs)%list])%list)
           (skipSpace x).
Proof.
  induction 1 as [|v2 vs Hv2 Hvs IH]; intros v p q cs c0 Hv Hp Hc.
  - assert (E : "'" ++ Join [v] "', '" ++ "')" ++ x = quoted v ++ ")" ++ x).
    { unfold quoted. cbn [Join]. now rewrite !append_assoc. }
    rewrite E in Hp.
    destruct (turn_inValue p q v _ cs c0 Hp Hv Hc) as (p1 & R1 & H1).
    destruct (turn_inClose p1 _ x H1) as (p2 & R2 & H2).
    exists p2. split; [eauto using reaches_trans|exact H2].
  - assert (E : "'" ++ Join (v :: v2 :: vs) "', '" ++ "')" ++ x
                = quoted v ++ "," ++ String " " ("'" ++ Join (v2 :: vs) "', '" ++ "')" ++ x)).
    { unfold quoted. rewrite Join_cons2. now rewrite !append_assoc. }
    rewrite E in Hp.
    destruct (turn_inValue p q v _ cs c0 Hp Hv Hc) as (p1 & R1 & H1).
    destruct (turn_inComma p1 _ _ H1) as (p2 & R2 & H2).
    destruct (IH v2 p2 _ cs _ Hv2 H2 eq_refl) as (p3 & R3 & H3).
    exists p3. split; [eauto using reaches_trans|].
    rewrite set_Conditions_twice in H3.
    now rewrite (set_InValues_app c0 [v] (v2 :: vs)) in H3.
Qed.

Lemma skipSpace_operator (o : query.Operator) (y : string) :
  skipSpace (query.Operator_String o ++ y) = query.Operator_String o ++ y.
Proof. now destruct o. Qed.

Lemma Operator_eqb_neq (o : query.Operator) :
  query.Operator_eqb o query.UnknownOperator = false -> o <> query.UnknownOperator.
Proof. now intros H ->. Qed.

(** The turns over one condition. *)
Lemma run_condition (c : query.Condition) (x : string) (p : parser) (q : query.Query) :
  plainCondition c = true -> tailSep x ->
  at_state p stepWhereField q (renderCondition c ++ x) ->
  exists p1,
    reaches p p1
    /\ at_state p1 stepWhereAnd
         (query.set_Conditions q (query.Conditions q ++ [c])%list) (skipSpace x).
Proof.
  destruct c as [f b1 o v b2 vs]. unfold plainCondition, renderCondition.
  cbn [query.Operand1 query.Operand1IsField query.Operator_ query.Operand2
         query.Operand2IsField query.InValues].
  intros H Hx Hp.
  apply andb_prop in H as [H Hrhs]. apply andb_prop in H as [H Ho].
  apply andb_prop in H as [-> Hf].
  apply negb_true_iff, Operator_eqb_neq in Ho.
  rewrite !append_assoc in Hp.
  destruct (turn_whereField p q f _ Hp Hf eq_refl) as (p1 & R1 & H1).
  change (skipSpace (" " ++ ?y)) with (skipSpace y) in H1.
  rewrite skipSpace_operator in H1.
  destruct (turn_whereOperator p1 _ o _ (query.Conditions q) _ H1 Ho eq_refl eq_refl)
    as (p2 & R2 & H2).
  rewrite set_Conditions_twice in H2.
  change (skipSpace (" " ++ ?y)) with (skipSpace y) in H2.
  destruct (isIn o) eqn:Ein.
  - apply andb_prop in Hrhs as [Hrhs Hvs]. apply andb_prop in Hrhs as [Hrhs Hn].
    apply andb_prop in Hrhs as [Hv Hb2].
    apply String.eqb_eq in Hv as ->. apply negb_true_iff in Hb2 as ->.
    destruct vs as [|v1 vs]; [discriminate|].
    cbn [forallb] in Hvs. apply andb_prop in Hvs as [Hv1 Hvs].
    rewrite !append_assoc in H2.
    change ("('" ++ ?y) with ("(" ++ "'" ++ y) in H2.
    destruct (turn_inOpen p2 _ _ H2) as (p3 & R3 & H3).
    change (skipSpace ("'" ++ ?y)) with ("'" ++ y) in H3.
    apply forallb_Forall_true in Hvs.
    destruct (run_inValues vs x Hvs v1 p3 _ (query.Conditions q) _ Hv1 H3 eq_refl)
      as (p4 & R4 & H4).
    rewrite set_Conditions_twice in H4.
    exists p4. split; [eauto using reaches_trans|exact H4].
  - apply andb_prop in Hrhs as [Hn Hrhs].
    destruct vs; [|discriminate]. destruct b2.
    + apply andb_prop in Hrhs as [Hv Hlike]. apply negb_true_iff in Hlike.
      rewrite skipSpace_name in H2 by assumption.
      destruct (turn_whereValue_field p2 _ v x (query.Conditions q) _ H2 Hv Hx eq_refl Hlike)
        as (p3 & R3 & H3).
      rewrite set_Conditions_twice in H3.
      exists p3. split; [eauto using reaches_trans|exact H3].
    + apply andb_prop in Hrhs as [Hv Hk].
      change (skipSpace (quoted v ++ x)) with (quoted v ++ x) in H2.
      destruct (turn_whereValue_literal p2 _ v x (query.Conditions q) _ H2 Hv eq_refl Hk)
        as (p3 & R3 & H3).
      rewrite set_Conditions_twice in H3.
      exists p3. split; [eauto using reaches_trans|exact H3].
Qed.

Lemma Join_head_sep (f : string) (fs : list string) (sep w : string) :
  exists z, Join (f :: fs) sep ++ w = f ++ z.
Proof.
  destruct fs as [|g fs]; [now exists w|].
  exists (sep ++ Join (g :: fs) sep ++ w).
  rewrite Join_cons2. now rewrite !append_assoc.
Qed.

Lemma plainCondition_Operand1 (c : query.Condition) :
  plainCondition c = true -> plainName (query.Operand1 c) = true.
Proof.
  unfold plainCondition. intros H. apply andb_prop in H as [H _].
  apply andb_prop in H as [H _]. now apply andb_prop in H as [_ H].
Qed.

Lemma renderCondition_head (c : query.Condition) (w : string) :
  plainCondition c = true ->
  exists z, renderCondition c ++ w = query.Operand1 c ++ z.
Proof.
  intros H. unfold plainCondition in H. apply andb_prop in H as [H _].
  apply andb_prop in H as [H _]. apply andb_prop in H as [H _].
  unfold renderCondition. rewrite H. rewrite append_assoc. eauto.
Qed.

Lemma skipSpace_conditions (c : query.Condition) (cs : list query.Condition) (w : string) :
  plainCondition c = true ->
  skipSpace (Join (map renderCondition (c :: cs)) " AND " ++ w)
  = Join (map renderCondition (c :: cs)) " AND " ++ w.
Proof.
  intros Hc. cbn [map].
  destruct (Join_head_sep (renderCondition c) (map renderCondition cs) " AND " w)
    as (z & ->).
  destruct (renderCondition_head c z Hc) as (z' & ->).
  apply skipSpace_name. now apply plainCondition_Operand1.
Qed.

(** The turns over the conditions of a WHERE clause. *)
Lemma run_conditions (cs : list query.Condition) :
  Forall (fun c => plainCondition c = true) cs ->
  forall (c : query.Condition) (p : parser) (q : query.Query),
    plainCondition c = true ->
    at_state p stepWhereField q (Join (map renderCondition (c :: cs)) " AND ") ->
    exists p1,
      reaches p p1
      /\ at_state p1 stepWhereAnd
           (query.set_Conditions q (query.Conditions q ++ c :: cs)%list) "".
Proof.
  induction 1 as [|c2 cs Hc2 Hcs IH]; intros c p q Hc Hp.
  - cbn [map Join] in Hp. rewrite <- (append_nil_r (renderCondition c)) in Hp.
    exact (run_condition c "" p q Hc I Hp).
  - cbn [map] in Hp. rewrite Join_cons2 in Hp.
    set (J := Join (renderCondition c2 :: map renderCondition cs) " AND ") in *.
    destruct (run_condition c (" AND " ++ J) p q Hc eq_refl Hp) as (p1 & R1 & H1).
    destruct (turn_and p1 _ (String " " J) H1 eq_refl) as (p2 & R2 & H2).
    unfold J in H2.
    change (skipSpace (String " " ?y)) with (skipSpace y) in H2.
    rewrite <- (append_nil_r (Join _ _)) in H2.
    change (renderCondition c2 :: map renderCondition cs)
      with (map renderCondition (c2 :: cs)) in H2.
    rewrite skipSpace_conditions in H2 by assumption. rewrite append_nil_r in H2.
    destruct (IH c2 p2 _ Hc2 H2) as (p3 & R3 & H3).
    exists p3. split; [eauto using reaches_trans|].
    rewrite set_Conditions_twice in H3. cbn [query.Conditions query.set_Conditions] in H3.
    now rewrite <- app_assoc in H3.
Qed.

(** ** Runs over the field list of a SELECT *)

Lemma lex_field (f x : string) :
  fieldName f = true -> tailSep x ->
  lex (f ++ x) = (f, len f) /\ afterToken (f ++ x) = skipSpace x.
Proof.
  unfold fieldName. intros [Hf|Hf%String.eqb_eq]%orb_prop Hx.
  - now apply lex_name.
  - subst f. now apply lex_star.
Qed.

Lemma fieldName_cons (f : string) :
  fieldName f = true ->
  exists c f', f = String c f' /\ Ascii.eqb c " " = false.
Proof.
  unfold fieldName. intros [Hf|Hf%String.eqb_eq]%orb_prop.
  - destruct (plainName_cons f Hf) as (c & f' & -> & Hc).
    exists c, f'. split; [reflexivity|now apply nameByte_not_space].
  - subst f. now exists "*"%char, "".
Qed.

Lemma fieldName_isIdentifierOrAsterisk (f : string) :
  fieldName f = true -> isIdentifierOrAsterisk f = true.
Proof.
  unfold fieldName, isIdentifierOrAsterisk.
  intros [Hf|Hf]%orb_prop; [|now rewrite Hf, orb_true_r].
  now rewrite plainName_isIdentifier.
Qed.

Lemma skipSpace_field (f x : string) :
  fieldName f = true -> skipSpace (f ++ x) = f ++ x.
Proof.
  intros (c & f' & -> & Hc)%fieldName_cons. rewrite append_cons. cbn [skipSpace].
  now rewrite Hc.
Qed.

Lemma turn_field_plain (p : parser) (q : query.Query) (f x r : string) (n : nat) :
  at_state p stepSelectField q (f ++ x) -> fieldName f = true -> tailSep x ->
  lex (skipSpace x) = (r, n) -> String.eqb (ToUpper r) "AS" = false ->
  exists p1, reaches p p1
             /\ at_state p1 (nextSelect r)
                  (query.set_Fields q (query.Fields q ++ [f])%list) (skipSpace x).
Proof.
  intros (Hs & Hq & Hr & Hi) Hf Hx Hn Has. destruct (lex_field f x Hf Hx) as [Hl Ha].
  pose proof (peek_rest p _ _ _ Hi Hr Hl) as Hp.
  destruct (pop_rest (appendField p f) _ _ Hi Hr Ha) as [Hr1 Hi1].
  pose proof (peek_rest _ _ _ _ Hi1 Hr1 Hn) as Hp1.
  exists (set_step (pop (appendField p f)) (nextSelect r)). split.
  - eapply reaches_turn; [| |constructor].
    + destruct (fieldName_cons f Hf) as (c & f' & -> & _). eapply rest_cons_lt; exact Hr.
    + unfold doStep. rewrite Hs. unfold selectFieldStep. cbv zeta. rewrite Hp.
      rewrite fieldName_isIdentifierOrAsterisk by assumption. cbn [negb].
      rewrite Hp1, Has, Hp1. unfold nextSelect.
      now destruct (String.eqb (ToUpper r) "FROM").
  - unfold at_state. subst q. split; [reflexivity|]. split; [reflexivity|].
    split; [exact Hr1|exact Hi1].
Qed.

Lemma turn_field_alias (p : parser) (q : query.Query) (f a x r : string) (n : nat) :
  at_state p stepSelectField q (f ++ " AS " ++ a ++ x) ->
  fieldName f = true -> plainName a = true -> tailSep x ->
  lex (skipSpace x) = (r, n) ->
  exists p1,
    reaches p p1
    /\ at_state p1 (nextSelect r)
         (query.set_Aliases (query.set_Fields q (query.Fields q ++ [f])%list)
            (<[f := a]> (query.Aliases q)))
         (skipSpace x).
Proof.
  intros (Hs & Hq & Hr & Hi) Hf Ha Hx Hn.
  destruct (lex_field f (" AS " ++ a ++ x) Hf eq_refl) as [Hl1 Ha1].
  pose proof (peek_rest p _ _ _ Hi Hr Hl1) as Hp.
  set (p1 := pop (appendField p f)).
  change (skipSpace (" AS " ++ a ++ x)) with ("AS" ++ String " " (a ++ x)) in Ha1.
  destruct (pop_rest (appendField p f) _ _ Hi Hr Ha1) as [Hr1 Hi1]. fold p1 in Hr1, Hi1.
  destruct (lex_AS (String " " (a ++ x)) eq_refl) as [Hl2 Ha2].
  pose proof (peek_rest p1 _ _ _ Hi1 Hr1 Hl2) as Hp1.
  change (skipSpace (String " " (a ++ x))) with (skipSpace (a ++ x)) in Ha2.
  rewrite skipSpace_name in Ha2 by assumption.
  destruct (pop_rest p1 _ _ Hi1 Hr1 Ha2) as [Hr2 Hi2].
  destruct (lex_name a x Ha Hx) as [Hl3 Ha3].
  pose proof (peek_rest (pop p1) _ _ _ Hi2 Hr2 Hl3) as Hp2.
  set (p2 := set_query (pop p1)
               (query.set_Aliases (query_ (pop p1))
                  (<[f := a]> (query.Aliases (query_ (pop p1)))))).
  destruct (pop_rest p2 _ _ Hi2 Hr2 Ha3) as [Hr3 Hi3].
  pose proof (peek_rest (pop p2) _ _ _ Hi3 Hr3 Hn) as Hp3.
  exists (set_step (pop p2) (nextSelect r)). split.
  - eapply reaches_turn; [| |constructor].
    + destruct (fieldName_cons f Hf) as (c & f' & -> & _). eapply rest_cons_lt; exact Hr.
    + unfold doStep. rewrite Hs. unfold selectFieldStep. cbv zeta. rewrite Hp.
      rewrite fieldName_isIdentifierOrAsterisk by assumption. cbn [negb].
      fold p1. rewrite Hp1. change (String.eqb (ToUpper "AS") "AS") with true. cbv iota.
      rewrite Hp2, plainName_isIdentifier by assumption. cbn [negb].
      fold p2. rewrite Hp3. unfold nextSelect.
      now destruct (String.eqb (ToUpper r) "FROM").
  - unfold at_state. subst q. split; [reflexivity|]. split; [reflexivity|].
    split; [exact Hr3|exact Hi3].
Qed.

Lemma turn_selectField (A : gmap string string) (p : parser) (q : query.Query)
    (f x r : string) (n : nat) :
  at_state p stepSelectField q (renderSelectField A f ++ x) ->
  fieldName f = true -> (forall a, A !! f = Some a -> plainName a = true) ->
  tailSep x -> lex (skipSpace x) = (r, n) -> String.eqb (ToUpper r) "AS" = false ->
  exists p1, reaches p p1 /\ at_state p1 (nextSelect r) (addField A q f) (skipSpace x).
Proof.
  unfold renderSelectField, addField. intros Hp Hf HA Hx Hn Has.
  destruct (A !! f) as [a|] eqn:E.
  - rewrite !append_assoc in Hp. eapply turn_field_alias; eauto.
  - now apply (turn_field_plain p q f x r n).
Qed.

Lemma renderSelectField_head (A : gmap string string) (f w : string) :
  exists z, renderSelectField A f ++ w = f ++ z.
Proof.
  unfold renderSelectField. destruct (A !! f) as [a|]; [|now exists w].
  exists (" AS " ++ a ++ w). now rewrite !append_assoc.
Qed.

Lemma skipSpace_fields (A : gmap string string) (f : string) (fs : list string) (w : string) :
  fieldName f = true ->
  skipSpace (Join (map (renderSelectField A) (f :: fs)) ", " ++ w)
  = Join (map (renderSelectField A) (f :: fs)) ", " ++ w.
Proof.
  intros Hf. cbn [map].
  destruct (Join_head_sep (renderSelectField A f) (map (renderSelectField A) fs) ", " w)
    as (z & ->).
  destruct (renderSelectField_head A f z) as (z' & ->).
  now apply skipSpace_field.
Qed.

(** The turns over the field list of a SELECT, aliases included. *)
Lemma run_selectFields (A : gmap string string) (fs : list string) (tt : string) :
  Forall (fun g => fieldName g = true) fs ->
  (forall g a, A !! g = Some a -> plainName a = true) ->
  forall (f : string) (p : parser) (q : query.Query),
    fieldName f = true ->
    at_state p stepSelectField q
      (Join (map (renderSelectField A) (f :: fs)) ", " ++ " FROM " ++ tt) ->
    exists p1, reaches p p1
               /\ at_state p1 stepSelectFrom (foldl (addField A) q (f :: fs))
                    ("FROM" ++ String " " tt).
Proof.
  intros Hfs HA. induction Hfs as [|g fs Hg Hfs IH]; intros f p q Hf Hp.
  - cbn [map Join] in Hp.
    apply (turn_selectField A p q f (" FROM " ++ tt) "FROM" 4); try assumption;
      try reflexivity.
    apply HA.
  - cbn [map] in Hp. rewrite Join_cons2 in Hp. rewrite !append_assoc in Hp.
    set (y := Join (renderSelectField A g :: map (renderSelectField A) fs) ", "
              ++ " FROM " ++ tt) in *.
    destruct (turn_selectField A p q f (", " ++ y) "," 1 Hp Hf (HA f) eq_refl)
      as (p1 & R1 & H1); try reflexivity.
    destruct (turn_comma p1 _ (String " " y) H1) as (p2 & R2 & H2).
    change (skipSpace (String " " y)) with (skipSpace y) in H2. unfold y in H2.
    change (renderSelectField A g :: map (renderSelectField A) fs)
      with (map (renderSelectField A) (g :: fs)) in H2.
    rewrite skipSpace_fields in H2 by assumption.
    destruct (IH g p2 _ Hg H2) as (p3 & R3 & H3).
    exists p3. split; [eauto using reaches_trans|exact H3].
Qed.

Lemma foldl_addField (A : gmap string string) (fs : list string) (q : query.Query) :
  foldl (addField A) q fs
  = query.mkQuery (query.Type' q) (query.TableName q) (query.Conditions q)
      (query.Updates q) (query.Inserts q) (query.Fields q ++ fs)%list
      (foldl (aliasStep A) (query.Aliases q) fs) (query.CreateFields q).
Proof.
  revert q. induction fs as [|f fs IH]; intros q.
  - destruct q. cbn. now rewrite app_nil_r.
  - cbn [foldl]. rewrite IH. unfold addField, aliasStep.
    destruct q. cbn. destruct (A !! f); cbn; now rewrite <- app_assoc.
Qed.

Lemma aliasStep_lookup (A : gmap string string) (fs : list string) :
  forall (B : gmap string string) (k : string),
    foldl (aliasStep A) B fs !! k
    = match (if decide (k ∈ fs) then A !! k else None) with
      | Some a => Some a
      | None => B !! k
      end.
Proof.
  induction fs as [|f fs IH]; intros B k.
  - cbn [foldl]. destruct (decide (k ∈ [])) as [H|H]; [|reflexivity].
    now apply elem_of_nil in H.
  - cbn [foldl]. rewrite IH. unfold aliasStep.
    destruct (decide (k ∈ fs)) as [Hin|Hin].
    + destruct (decide (k ∈ f :: fs)) as [_|Hn]; [|exfalso; apply Hn; now right].
      destruct (A !! k) as [a|] eqn:Ek; [reflexivity|].
      destruct (decide (k = f)) as [->|Hne]; [now rewrite Ek|].
      destruct (A !! f); [now rewrite lookup_insert_ne|reflexivity].
    + destruct (decide (k = f)) as [->|Hne].
      * destruct (decide (f ∈ f :: fs)) as [_|Hn]; [|exfalso; apply Hn; now left].
        destruct (A !! f) as [a|]; [now rewrite lookup_insert_eq|reflexivity].
      * destruct (decide (k ∈ f :: fs)) as [Hk|_].
        { apply elem_of_cons in Hk as [->|Hk]; contradiction. }
        destruct (A !! f); [now rewrite lookup_insert_ne|reflexivity].
Qed.

Lemma aliasStep_all (A : gmap string string) (fs : list string) :
  (forall k a, A !! k = Some a -> k ∈ fs) ->
  foldl (aliasStep A) ∅ fs = A.
Proof.
  intros H. apply map_eq. intros k. rewrite aliasStep_lookup.
  destruct (decide (k ∈ fs)) as [Hin|Hin].
  - destruct (A !! k); [reflexivity|apply lookup_empty].
  - rewrite lookup_empty. destruct (A !! k) as [a|] eqn:E; [|reflexivity].
    exfalso. eauto.
Qed.

(** ** The table name and the WHERE clause *)

Lemma turn_tableName (p : parser) (st next : step) (msg : string) (q : query.Query)
    (t x : string) :
  at_state p st q (t ++ x) -> tokenName t = true -> tailSep x ->
  (step_ p = st -> doStep p = tableStep p msg next) ->
  exists p1, reaches p p1 /\ at_state p1 next (query.set_TableName q t) (skipSpace x).
Proof.
  intros (Hs & Hq & Hr & Hi) Ht Hx Hd. destruct (lex_token t x Ht Hx) as [Hl Ha].
  pose proof (peek_rest p _ _ _ Hi Hr Hl) as Hp.
  destruct (pop_rest (setTableName p t) _ _ Hi Hr Ha) as [Hr1 Hi1].
  destruct (tokenName_cons t Ht) as (c & t' & Et & _).
  exists (set_step (pop (setTableName p t)) next). split.
  - eapply reaches_turn; [| |constructor].
    + rewrite Et in Hr. eapply rest_cons_lt; exact Hr.
    + rewrite (Hd Hs). unfold tableStep. cbv zeta. rewrite Hp. now rewrite Et.
  - unfold at_state. subst q. split; [reflexivity|]. split; [reflexivity|].
    split; [exact Hr1|exact Hi1].
Qed.

Lemma set_Conditions_same (q : query.Query) :
  query.set_Conditions q (query.Conditions q) = q.
Proof. now destruct q. Qed.

Lemma tailSep_renderWhere (cs : list query.Condition) : tailSep (renderWhere cs).
Proof. destruct cs; [exact I|reflexivity]. Qed.

(** The turns over a WHERE clause, from the state after the table name to
    the end of the text. *)
Lemma run_where (cs : list query.Condition) (p : parser) (q : query.Query) :
  Forall (fun c => plainCondition c = true) cs ->
  at_state p stepWhere q (skipSpace (renderWhere cs)) -> query.Conditions q = [] ->
  exists p1,
    reaches p p1
    /\ at_state p1 (match cs with [] => stepWhere | _ => stepWhereAnd end)
         (query.set_Conditions q cs) "".
Proof.
  intros Hcs Hp Hq. destruct Hcs as [|c cs Hc Hcs].
  - exists p. split; [constructor|]. rewrite <- Hq, set_Conditions_same. exact Hp.
  - unfold renderWhere in Hp. change (0 <? length (c :: cs)) with true in Hp. cbv iota in Hp.
    set (J := Join (map renderCondition (c :: cs)) " AND ") in *.
    destruct (turn_where p q (String " " J) Hp eq_refl) as (p1 & R1 & H1).
    change (skipSpace (String " " J)) with (skipSpace J) in H1.
    rewrite <- (append_nil_r J) in H1. unfold J in H1.
    rewrite skipSpace_conditions, append_nil_r in H1 by assumption.
    destruct (run_conditions cs Hcs c p1 q Hc H1) as (p2 & R2 & H2).
    rewrite Hq in H2. exists p2. split; [eauto using reaches_trans|exact H2].
Qed.

Lemma plainCondition_valid (c : query.Condition) :
  plainCondition c = true -> validateCondition c = None.
Proof.
  destruct c as [f b1 o v b2 vs]. unfold plainCondition, validateCondition.
  cbn [query.Operand1 query.Operand1IsField query.Operator_ query.Operand2
         query.Operand2IsField query.InValues].
  intros H. apply andb_prop in H as [H Hrhs]. apply andb_prop in H as [H Ho].
  apply andb_prop in H as [-> Hf]. apply negb_true_iff in Ho. rewrite Ho.
  destruct (plainName_cons f Hf) as (c & f' & -> & _). cbn [String.eqb andb].
  destruct (isIn o).
  - apply andb_prop in Hrhs as [Hrhs _]. apply andb_prop in Hrhs as [_ Hn].
    apply negb_true_iff in Hn. now rewrite Hn.
  - apply andb_prop in Hrhs as [_ Hrhs]. destruct b2; [|now rewrite andb_false_r].
    apply andb_prop in Hrhs as [Hv _].
    now destruct (plainName_cons v Hv) as (c' & v' & -> & _).
Qed.

Lemma plainConditions_valid (cs : list query.Condition) :
  Forall (fun c => plainCondition c = true) cs -> validateConditions cs = None.
Proof.
  induction 1 as [|c cs Hc _ IH]; [reflexivity|].
  cbn [validateConditions]. now rewrite plainCondition_valid.
Qed.

(** ** Rendered texts and [TrimSpace] *)

Lemma lastInk_app (a b : string) : lastInk b = true -> lastInk (a ++ b) = true.
Proof.
  unfold lastInk. rewrite list_ascii_app, rev_app_distr.
  now destruct (rev (list_ascii_of_string b)).
Qed.

Lemma lastInk_cons (c : ascii) (r : string) : lastInk r = true -> lastInk (String c r) = true.
Proof. apply (lastInk_app (String c "") r). Qed.

Lemma lastInk_token (t : string) : tokenName t = true -> lastInk t = true.
Proof. intros (b & l & E & Hb)%rev_name. unfold lastInk. now rewrite E. Qed.

Lemma lastInk_name (t : string) : plainName t = true -> lastInk t = true.
Proof. intros H. now apply lastInk_token, plainName_token. Qed.

Lemma lastInk_quoted (v : string) : lastInk (quoted v) = true.
Proof. unfold quoted. now do 2 apply lastInk_app. Qed.

Lemma lastInk_renderCondition (c : query.Condition) :
  plainCondition c = true -> lastInk (renderCondition c) = true.
Proof.
  intros H. unfold renderCondition. do 4 apply lastInk_app.
  unfold plainCondition in H. apply andb_prop in H as [_ H].
  destruct (isIn (query.Operator_ c)); [now do 2 apply lastInk_app|].
  apply andb_prop in H as [_ H].
  destruct (query.Operand2IsField c); [|apply lastInk_quoted].
  apply andb_prop in H as [H _]. now apply lastInk_name.
Qed.

Lemma lastInk_Join (l : list string) (sep : string) :
  l <> [] -> Forall (fun s => lastInk s = true) l -> lastInk (Join l sep) = true.
Proof.
  intros Hn H. induction H as [|a l Ha Hl IH]; [contradiction|].
  destruct l as [|b l]; [exact Ha|].
  rewrite Join_cons2. do 2 apply lastInk_app. now apply IH.
Qed.

Lemma lastInk_renderWhere (t : string) (cs : list query.Condition) :
  tokenName t = true -> Forall (fun c => plainCondition c = true) cs ->
  lastInk (t ++ renderWhere cs) = true.
Proof.
  intros Ht Hcs. destruct cs as [|c cs].
  - unfold renderWhere. cbn [length Nat.ltb Nat.leb]. rewrite append_nil_r.
    now apply lastInk_token.
  - unfold renderWhere. change (0 <? length (c :: cs)) with true. cbv iota.
    do 2 apply lastInk_app. apply lastInk_Join; [discriminate|].
    apply Forall_map. eapply Forall_impl; [exact Hcs|].
    intros c' Hc'. now apply lastInk_renderCondition.
Qed.

Lemma TrimSpace_ink (c : ascii) (r : string) :
  inkByte c = true -> lastInk (String c r) = true -> TrimSpace (String c r) = String c r.
Proof.
  intros Hc Hl. unfold lastInk in Hl.
  destruct (rev (list_ascii_of_string (String c r))) as [|b l] eqn:E; [discriminate|].
  now apply (TrimSpace_keep _ c b (list_ascii_of_string r) l).
Qed.

(** ** Parsing what [Query.String] renders *)

Lemma finish_where (text : string) (p : parser) (q : query.Query)
    (cs : list query.Condition) :
  reaches (initial text) p ->
  at_state p (match cs with [] => stepWhere | _ => stepWhereAnd end) q "" ->
  query.Conditions q = cs ->
  Forall (fun c => plainCondition c = true) cs ->
  String.eqb (query.TableName q) "" = false ->
  (query.Type' q = query.Select
   \/ (query.Type' q = query.Delete \/ query.Type' q = query.Update) /\ cs <> []) ->
  Parse text = Some (q, None).
Proof.
  intros R (Hs & Hq & Hr & Hi) Hc Hcs Ht Hk.
  destruct (reaches_initial text p R) as (_ & _ & He).
  rewrite (Parse_run text p p (err p) R); [|constructor; now apply rest_empty_ge].
  unfold finish. rewrite He.
  assert (Hv : validate p = None); [|now rewrite Hv, Hq].
  unfold validate. rewrite Hs, Hq, Hc, Ht, (plainConditions_valid cs Hcs).
  destruct Hk as [->|[[->| ->] Hn]]; now destruct cs.
Qed.

Lemma Parse_render_select {rt : Runtime} (t : string) (cs : list query.Condition)
    (fs : list string) (A : gmap string string) :
  fs <> [] -> Forall (fun f => fieldName f = true) fs ->
  tokenName t = true ->
  (forall f a, A !! f = Some a -> f ∈ fs /\ plainName a = true) ->
  Forall (fun c => plainCondition c = true) cs ->
  let q := query.mkQuery query.Select t cs ∅ [] fs A ∅ in
  Parse (Query_String q) = Some (q, None).
Proof.
  intros Hn Hfs Ht HA Hcs q. destruct fs as [|f fs]; [contradiction|].
  apply Forall_cons in Hfs as [Hf Hfs].
  set (tt := t ++ renderWhere cs).
  set (body := Join (map (renderSelectField A) (f :: fs)) ", " ++ " FROM " ++ tt).
  assert (Etext : Query_String q = "SELECT" ++ String " " body) by reflexivity.
  rewrite Etext. set (text := "SELECT" ++ String " " body).
  assert (Htrim : TrimSpace text = text).
  { apply TrimSpace_ink; [reflexivity|].
    do 7 apply lastInk_cons. unfold body, tt.
    do 2 apply lastInk_app. now apply lastInk_renderWhere. }
  assert (H0 : at_state (initial text) stepType query.zero ("SELECT" ++ String " " body)).
  { unfold at_state, initial, rest. cbn [step_ query_ sql i]. rewrite Htrim, from_0.
    repeat split; lia. }
  destruct (turn_type _ _ _ H0 eq_refl) as (p1 & R1 & H1).
  change (skipSpace (String " " body)) with (skipSpace body) in H1. unfold body in H1.
  rewrite skipSpace_fields in H1 by assumption.
  destruct (run_selectFields A fs tt Hfs (fun g a E => proj2 (HA g a E)) f p1 _ Hf H1)
    as (p2 & R2 & H2).
  destruct (turn_from p2 _ _ H2 eq_refl) as (p3 & R3 & H3).
  change (skipSpace (String " " tt)) with (skipSpace tt) in H3. unfold tt in H3.
  rewrite skipSpace_token in H3 by assumption.
  destruct (turn_tableName p3 _ stepWhere "at SELECT: expected quoted table name" _ t _
              H3 Ht (tailSep_renderWhere cs))
    as (p4 & R4 & H4).
  { intros Hs. unfold doStep. now rewrite Hs. }
  rewrite foldl_addField in H4.
  destruct (run_where cs p4 _ Hcs H4 eq_refl) as (p5 & R5 & H5).
  cbn [query.set_Type query.set_TableName query.set_Conditions query.Type' query.TableName
         query.Conditions query.Updates query.Inserts query.Fields query.Aliases
         query.CreateFields query.zero app] in H5.
  rewrite aliasStep_all in H5 by (intros k a E; now apply (HA k a E)).
  apply (finish_where text p5 q cs); try assumption; try reflexivity.
  - eauto using reaches_trans.
  - cbn. now destruct (tokenName_cons t Ht) as (c & t' & -> & _).
  - now left.
Qed.

Lemma turn_type_delete (p : parser) (q : query.Query) (x : string) :
  at_state p stepType q ("DELETE FROM" ++ x) -> tailSep x ->
  exists p1, reaches p p1
             /\ at_state p1 stepDeleteFromTable (query.set_Type q query.Delete) (skipSpace x).
Proof.
  intros (Hs & Hq & Hr & Hi) Hx. destruct (lex_DELETE_FROM x Hx) as [Hl Ha].
  pose proof (peek_rest p _ _ _ Hi Hr Hl) as Hp.
  set (p0 := set_query p (query.set_Type (query_ p) query.Delete)).
  destruct (pop_rest p0 _ _ Hi Hr Ha) as [Hr1 Hi1].
  exists (set_step (pop p0) stepDeleteFromTable). split.
  - eapply reaches_turn; [eapply rest_cons_lt; exact Hr| |constructor].
    unfold doStep. rewrite Hs. unfold typeStep. rewrite Hp. reflexivity.
  - repeat split; [now rewrite <- Hq|exact Hr1|exact Hi1].
Qed.

Lemma Parse_render_delete {rt : Runtime} (t : string) (cs : list query.Condition) :
  tokenName t = true -> cs <> [] ->
  Forall (fun c => plainCondition c = true) cs ->
  let q := query.mkQuery query.Delete t cs ∅ [] [] ∅ ∅ in
  Parse (Query_String q) = Some (q, None).
Proof.
  intros Ht Hn Hcs q.
  set (tt := t ++ renderWhere cs).
  assert (Etext : Query_String q = "DELETE FROM" ++ String " " tt) by reflexivity.
  rewrite Etext. set (text := "DELETE FROM" ++ String " " tt).
  assert (Htrim : TrimSpace text = text).
  { apply TrimSpace_ink; [reflexivity|].
    do 12 apply lastInk_cons. unfold tt. now apply lastInk_renderWhere. }
  assert (H0 : at_state (initial text) stepType query.zero ("DELETE FROM" ++ String " " tt)).
  { unfold at_state, initial, rest. cbn [step_ query_ sql i]. rewrite Htrim, from_0.
    repeat split; lia. }
  destruct (turn_type_delete _ _ _ H0 eq_refl) as (p1 & R1 & H1).
  change (skipSpace (String " " tt)) with (skipSpace tt) in H1. unfold tt in H1.
  rewrite skipSpace_token in H1 by assumption.
  destruct (turn_tableName p1 _ stepWhere "at DELETE FROM: expected quoted table name" _ t _
              H1 Ht (tailSep_renderWhere cs))
    as (p2 & R2 & H2).
  { intros Hs. unfold doStep. now rewrite Hs. }
  destruct (run_where cs p2 _ Hcs H2 eq_refl) as (p3 & R3 & H3).
  apply (finish_where text p3 q cs); try assumption; try reflexivity.
  - eauto using reaches_trans.
  - cbn. now destruct (tokenName_cons t Ht) as (c & t' & -> & _).
  - right. split; [now left|assumption].
Qed.

(** ** Runs over an INSERT *)

Lemma lex_INSERT_INTO (x : string) :
  tailSep x ->
  lex ("INSERT INTO" ++ x) = ("INSERT INTO", 11)
  /\ afterToken ("INSERT INTO" ++ x) = skipSpace x.
Proof. intros Hx. now apply (lex_keyword "INSERT INTO" x). Qed.

Lemma lex_VALUES (x : string) :
  tailSep x ->
  lex ("VALUES" ++ x) = ("VALUES", 6) /\ afterToken ("VALUES" ++ x) = skipSpace x.
Proof. intros Hx. now apply (lex_keyword "VALUES" x). Qed.

Lemma turn_type_insert (p : parser) (q : query.Query) (x : string) :
  at_state p stepType q ("INSERT INTO" ++ x) -> tailSep x ->
  exists p1, reaches p p1
             /\ at_state p1 stepInsertTable (query.set_Type q query.Insert) (skipSpace x).
Proof.
  intros (Hs & Hq & Hr & Hi) Hx. destruct (lex_INSERT_INTO x Hx) as [Hl Ha].
  pose proof (peek_rest p _ _ _ Hi Hr Hl) as Hp.
  set (p0 := set_query p (query.set_Type (query_ p) query.Insert)).
  destruct (pop_rest p0 _ _ Hi Hr Ha) as [Hr1 Hi1].
  exists (set_step (pop p0) stepInsertTable). split.
  - eapply reaches_turn; [eapply rest_cons_lt; exact Hr| |constructor].
    unfold doStep. rewrite Hs. unfold typeStep. rewrite Hp. reflexivity.
  - repeat split; [now rewrite <- Hq|exact Hr1|exact Hi1].
Qed.

Lemma turn_insertOpen (p : parser) (q : query.Query) (x : string) :
  at_state p stepInsertFieldsOpeningParens q ("(" ++ x) ->
  exists p1, reaches p p1 /\ at_state p1 stepInsertFields q (skipSpace x).
Proof.
  intros H. destruct (lex_paren x) as [Hl Ha].
  eapply (turn_expect p stepInsertFieldsOpeningParens); try eassumption; [discriminate| |].
  - intros _ Hs. unfold doStep. now rewrite Hs.
  - now intros ->.
Qed.

Lemma turn_insertField (p : parser) (q : query.Query) (f x : string) :
  at_state p stepInsertFields q (f ++ x) -> plainName f = true -> tailSep x ->
  exists p1,
    reaches p p1
    /\ at_state p1 stepInsertFieldsCommaOrClosingParens
         (query.set_Fields q (query.Fields q ++ [f])%list) (skipSpace x).
Proof.
  intros (Hs & Hq & Hr & Hi) Hf Hx. destruct (lex_name f x Hf Hx) as [Hl Ha].
  pose proof (peek_rest p _ _ _ Hi Hr Hl) as Hp.
  destruct (pop_rest (appendField p f) _ _ Hi Hr Ha) as [Hr1 Hi1].
  exists (set_step (pop (appendField p f)) stepInsertFieldsCommaOrClosingParens). split.
  - eapply reaches_turn; [| |constructor].
    + destruct (plainName_cons f Hf) as (c' & f' & -> & _). eapply rest_cons_lt; exact Hr.
    + unfold doStep. rewrite Hs. unfold insertFieldsStep. cbv zeta. rewrite Hp.
      now rewrite plainName_isIdentifier.
  - unfold at_state. subst q. split; [reflexivity|]. split; [reflexivity|].
    split; [exact Hr1|exact Hi1].
Qed.

Lemma turn_insertFieldsComma (p : parser) (q : query.Query) (x : string) :
  at_state p stepInsertFieldsCommaOrClosingParens q ("," ++ x) ->
  exists p1, reaches p p1 /\ at_state p1 stepInsertFields q (skipSpace x).
Proof.
  intros (Hs & Hq & Hr & Hi). destruct (lex_comma x) as [Hl Ha].
  pose proof (peek_rest p _ _ _ Hi Hr Hl) as Hp.
  destruct (pop_rest p _ _ Hi Hr Ha) as [Hr1 Hi1].
  exists (set_step (pop p) stepInsertFields). split.
  - eapply reaches_turn; [eapply rest_cons_lt; exact Hr| |constructor].
    unfold doStep. rewrite Hs. unfold insertFieldsCommaOrClosingParensStep. cbv zeta.
    now rewrite Hp.
  - repeat split; [exact Hq|exact Hr1|exact Hi1].
Qed.

Lemma turn_insertFieldsClose (p : parser) (q : query.Query) (x : string) :
  at_state p stepInsertFieldsCommaOrClosingParens q (")" ++ x) ->
  exists p1, reaches p p1 /\ at_state p1 stepInsertValuesRWord q (skipSpace x).
Proof.
  intros (Hs & Hq & Hr & Hi). destruct (lex_close x) as [Hl Ha].
  pose proof (peek_rest p _ _ _ Hi Hr Hl) as Hp.
  destruct (pop_rest p _ _ Hi Hr Ha) as [Hr1 Hi1].
  exists (set_step (pop p) stepInsertValuesRWord). split.
  - eapply reaches_turn; [eapply rest_cons_lt; exact Hr| |constructor].
    unfold doStep. rewrite Hs. unfold insertFieldsCommaOrClosingParensStep. cbv zeta.
    now rewrite Hp.
  - repeat split; [exact Hq|exact Hr1|exact Hi1].
Qed.

Lemma skipSpace_names (f : string) (fs : list string) (w : string) :
  plainName f = true -> skipSpace (Join (f :: fs) ", " ++ w) = Join (f :: fs) ", " ++ w.
Proof.
  intros Hf. destruct (Join_head_sep f fs ", " w) as (z & ->). now apply skipSpace_name.
Qed.

(** The turns over the field list of an INSERT. *)
Lemma run_insertFields (fs : list string) (y : string) :
  Forall (fun g => plainName g = true) fs ->
  forall (f : string) (p : parser) (q : query.Query),
    plainName f = true ->
    at_state p stepInsertFields q (Join (f :: fs) ", " ++ ")" ++ y) ->
    exists p1, reaches p p1
               /\ at_state p1 stepInsertValuesRWord
                    (query.set_Fields q (query.Fields q ++ f :: fs)%list) (skipSpace y).
Proof.
  induction 1 as [|g fs Hg Hfs IH]; intros f p q Hf Hp.
  - cbn [Join] in Hp.
    destruct (turn_insertField p q f (")" ++ y) Hp Hf eq_refl) as (p1 & R1 & H1).
    destruct (turn_insertFieldsClose p1 _ y H1) as (p2 & R2 & H2).
    exists p2. split; [eauto using reaches_trans|exact H2].
  - rewrite Join_cons2 in Hp. rewrite !append_assoc in Hp.
    set (J := Join (g :: fs) ", " ++ ")" ++ y) in *.
    destruct (turn_insertField p q f (", " ++ J) Hp Hf eq_refl) as (p1 & R1 & H1).
    destruct (turn_insertFieldsComma p1 _ (String " " J) H1) as (p2 & R2 & H2).
    change (skipSpace (String " " J)) with (skipSpace J) in H2. unfold J in H2.
    rewrite skipSpace_names in H2 by assumption.
    destruct (IH g p2 _ Hg H2) as (p3 & R3 & H3).
    exists p3. split; [eauto using reaches_trans|].
    now rewrite (set_Fields_app q [f] (g :: fs)) in H3.
Qed.

Lemma turn_values (p : parser) (q : query.Query) (x : string) :
  at_state p stepInsertValuesRWord q ("VALUES" ++ x) -> tailSep x ->
  exists p1, reaches p p1 /\ at_state p1 stepInsertValuesOpeningParens q (skipSpace x).
Proof.
  intros H Hx. destruct (lex_VALUES x Hx) as [Hl Ha].
  eapply (turn_expect p stepInsertValuesRWord); try eassumption; [discriminate| |].
  - intros _ Hs. unfold doStep. now rewrite Hs.
  - now intros ->.
Qed.

Lemma turn_rowOpen (p : parser) (q : query.Query) (x : string) :
  at_state p stepInsertValuesOpeningParens q ("(" ++ x) ->
  exists p1,
    reaches p p1
    /\ at_state p1 stepInsertValues
         (query.set_Inserts q (query.Inserts q ++ [[]])%list) (skipSpace x).
Proof.
  intros (Hs & Hq & Hr & Hi). destruct (lex_paren x) as [Hl Ha].
  pose proof (peek_rest p _ _ _ Hi Hr Hl) as Hp.
  set (p0 := set_query p (query.set_Inserts (query_ p) (query.Inserts (query_ p) ++ [[]])%list)).
  destruct (pop_rest p0 _ _ Hi Hr Ha) as [Hr1 Hi1].
  exists (set_step (pop p0) stepInsertValues). split.
  - eapply reaches_turn; [eapply rest_cons_lt; exact Hr| |constructor].
    unfold doStep. rewrite Hs. unfold insertValuesOpeningParensStep. cbv zeta.
    now rewrite Hp.
  - unfold at_state. subst q. split; [reflexivity|]. split; [reflexivity|].
    split; [exact Hr1|exact Hi1].
Qed.

Lemma turn_rowValue (p : parser) (q : query.Query) (v x : string)
    (rows : list (list string)) (row : list string) :
  at_state p stepInsertValues q (quoted v ++ x) -> literal v = true ->
  query.Inserts q = (rows ++ [row])%list ->
  exists p1,
    reaches p p1
    /\ at_state p1 stepInsertValuesCommaOrClosingParens
         (query.set_Inserts q (rows ++ [row ++ [v]])%list) (skipSpace x).
Proof.
  intros (Hs & Hq & Hr & Hi) Hv Hc. destruct (lex_literal v x Hv) as (HQ & Hl & Ha).
  pose proof (rest_quoted_lt p v x Hr) as Hlt.
  set (p0 := set_query p
               (query.set_Inserts (query_ p)
                  (setLast (query.Inserts (query_ p)) (row ++ [v])%list))).
  destruct (pop_rest p0 _ _ Hi Hr Ha) as [Hr1 Hi1].
  assert (Hn : (len v + 2 =? 0) = false) by (apply Nat.eqb_neq; lia).
  exists (set_step (pop p0) stepInsertValuesCommaOrClosingParens). split.
  - eapply reaches_turn; [exact Hlt| |constructor].
    unfold doStep. rewrite Hs. unfold insertValuesStep. cbv zeta.
    rewrite (peekQuoted_lex p Hlt), Hr, HQ, Hn.
    assert (Hlast : last (query.Inserts (query_ p)) = Some row)
      by now rewrite Hq, Hc, last_snoc.
    now rewrite Hlast.
  - unfold at_state. split; [reflexivity|]. split; [|split; [exact Hr1|exact Hi1]].
    unfold p0. cbn [query_ pop popWhitespace set_step set_query set_i].
    rewrite Hq, Hc. now rewrite setLast_snoc.
Qed.

Lemma turn_rowComma (p : parser) (q : query.Query) (x : string) :
  at_state p stepInsertValuesCommaOrClosingParens q ("," ++ x) ->
  exists p1, reaches p p1 /\ at_state p1 stepInsertValues q (skipSpace x).
Proof.
  intros (Hs & Hq & Hr & Hi). destruct (lex_comma x) as [Hl Ha].
  pose proof (peek_rest p _ _ _ Hi Hr Hl) as Hp.
  destruct (pop_rest p _ _ Hi Hr Ha) as [Hr1 Hi1].
  exists (set_step (pop p) stepInsertValues). split.
  - eapply reaches_turn; [eapply rest_cons_lt; exact Hr| |constructor].
    unfold doStep. rewrite Hs. unfold insertValuesCommaOrClosingParensStep. cbv zeta.
    now rewrite Hp.
  - repeat split; [exact Hq|exact Hr1|exact Hi1].
Qed.

Lemma turn_rowClose (p : parser) (q : query.Query) (x : string)
    (rows : list (list string)) (row : list string) :
  at_state p stepInsertValuesCommaOrClosingParens q (")" ++ x) ->
  query.Inserts q = (rows ++ [row])%list ->
  length (query.Fields q) <= length row ->
  exists p1,
    reaches p p1 /\ at_state p1 stepInsertValuesCommaBeforeOpeningParens q (skipSpace x).
Proof.
  intros (Hs & Hq & Hr & Hi) Hc Hlen. destruct (lex_close x) as [Hl Ha].
  pose proof (peek_rest p _ _ _ Hi Hr Hl) as Hp.
  destruct (pop_rest p _ _ Hi Hr Ha) as [Hr1 Hi1].
  exists (set_step (pop p) stepInsertValuesCommaBeforeOpeningParens). split.
  - eapply reaches_turn; [eapply rest_cons_lt; exact Hr| |constructor].
    unfold doStep. rewrite Hs. unfold insertValuesCommaOrClosingParensStep. cbv zeta.
    rewrite Hp. cbn [String.eqb Ascii.eqb Bool.eqb negb andb].
    rewrite query_pop.
    assert (Hlast : last (query.Inserts (query_ p)) = Some row)
      by now rewrite Hq, Hc, last_snoc.
    rewrite Hlast.
    assert (Hlt : (length row <? length (query.Fields (query_ p))) = false)
      by (apply Nat.ltb_ge; now rewrite Hq).
    now rewrite Hlt.
  - repeat split; [exact Hq|exact Hr1|exact Hi1].
Qed.

Lemma turn_rowsComma (p : parser) (q : query.Query) (x : string) :
  at_state p stepInsertValuesCommaBeforeOpeningParens q ("," ++ x) ->
  exists p1, reaches p p1 /\ at_state p1 stepInsertValuesOpeningParens q (skipSpace x).
Proof.
  intros H. destruct (lex_comma x) as [Hl Ha].
  eapply (turn_expect p stepInsertValuesCommaBeforeOpeningParens); try eassumption;
    [discriminate| |].
  - intros _ Hs. unfold doStep. now rewrite Hs.
  - now intros ->.
Qed.

Lemma set_Inserts_twice (q : query.Query) (a b : list (list string)) :
  query.set_Inserts (query.set_Inserts q a) b = query.set_Inserts q b.
Proof. now destruct q. Qed.

(** The turns over the values of a row, from its first value on. *)
Lemma run_rowValues (vs : list string) (x : string) :
  Forall (fun v => literal v = true) vs ->
  forall (v : string) (p : parser) (q : query.Query)
         (rows : list (list string)) (row : list string),
    literal v = true ->
    at_state p stepInsertValues q ("'" ++ Join (v :: vs) "', '" ++ "')" ++ x) ->
    query.Inserts q = (rows ++ [row])%list ->
    length (query.Fields q) <= length (row ++ v :: vs) ->
    exists p1,
      reaches p p1
      /\ at_state p1 stepInsertValuesCommaBeforeOpeningParens
           (query.set_Inserts q (rows ++ [row ++ v :: vs])%list) (skipSpace x).
Proof.
  induction 1 as [|v2 vs Hv2 Hvs IH]; intros v p q rows row Hv Hp Hc Hlen.
  - assert (E : "'" ++ Join [v] "', '" ++ "')" ++ x = quoted v ++ ")" ++ x).
    { unfold quoted. cbn [Join]. now rewrite !append_assoc. }
    rewrite E in Hp.
    destruct (turn_rowValue p q v _ rows row Hp Hv Hc) as (p1 & R1 & H1).
    destruct (turn_rowClose p1 _ x rows (row ++ [v])%list H1 eq_refl Hlen)
      as (p2 & R2 & H2).
    exists p2. split; [eauto using reaches_trans|exact H2].
  - assert (E : "'" ++ Join (v :: v2 :: vs) "', '" ++ "')" ++ x
                = quoted v ++ "," ++ String " " ("'" ++ Join (v2 :: vs) "', '" ++ "')" ++ x)).
    { unfold quoted. rewrite Join_cons2. now rewrite !append_assoc. }
    rewrite E in Hp.
    destruct (turn_rowValue p q v _ rows row Hp Hv Hc) as (p1 & R1 & H1).
    destruct (turn_rowComma p1 _ _ H1) as (p2 & R2 & H2).
    destruct (IH v2 p2 _ rows (row ++ [v])%list Hv2 H2 eq_refl) as (p3 & R3 & H3).
    { now rewrite <- app_assoc. }
    exists p3. split; [eauto using reaches_trans|].
    rewrite set_Inserts_twice in H3. now rewrite <- app_assoc in H3.
Qed.

(** The turns over the rows of an INSERT. *)
Lemma run_rows (rs : list (list string)) (n : nat) :
  Forall (fun r => n <= length r /\ r <> [] /\ Forall (fun v => literal v = true) r) rs ->
  forall (r : list string) (p : parser) (q : query.Query),
    n <= length r -> r <> [] -> Forall (fun v => literal v = true) r ->
    length (query.Fields q) = n ->
    at_state p stepInsertValuesOpeningParens q (Join (map renderRow (r :: rs)) ", ") ->
    exists p1,
      reaches p p1
      /\ at_state p1 stepInsertValuesCommaBeforeOpeningParens
           (query.set_Inserts q (query.Inserts q ++ r :: rs)%list) "".
Proof.
  assert (Hrow : forall r x p q,
             n <= length r -> r <> [] -> Forall (fun v => literal v = true) r ->
             length (query.Fields q) = n ->
             at_state p stepInsertValuesOpeningParens q (renderRow r ++ x) ->
             exists p1,
               reaches p p1
               /\ at_state p1 stepInsertValuesCommaBeforeOpeningParens
                    (query.set_Inserts q (query.Inserts q ++ [r])%list) (skipSpace x)).
  { intros r x p q Hlen Hne Hr Hq Hp. destruct Hr as [|v vs Hv Hvs]; [contradiction|].
    unfold renderRow in Hp. rewrite !append_assoc in Hp.
    change ("('" ++ ?y) with ("(" ++ "'" ++ y) in Hp.
    destruct (turn_rowOpen p q _ Hp) as (p1 & R1 & H1).
    change (skipSpace ("'" ++ ?y)) with ("'" ++ y) in H1.
    destruct (run_rowValues vs x Hvs v p1 _ (query.Inserts q) [] Hv H1 eq_refl)
      as (p2 & R2 & H2).
    { cbn [query.Fields query.set_Inserts app]. destruct q; cbn in *. lia. }
    rewrite set_Inserts_twice in H2.
    exists p2. split; [eauto using reaches_trans|exact H2]. }
  induction 1 as [|r2 rs (Hl2 & Hn2 & Hr2) Hrs IH]; intros r p q Hlen Hne Hr Hq Hp.
  - cbn [map Join] in Hp. rewrite <- (append_nil_r (renderRow r)) in Hp.
    exact (Hrow r "" p q Hlen Hne Hr Hq Hp).
  - cbn [map] in Hp. rewrite Join_cons2 in Hp.
    set (J := Join (renderRow r2 :: map renderRow rs) ", ") in *.
    destruct (Hrow r (", " ++ J) p q Hlen Hne Hr Hq Hp) as (p1 & R1 & H1).
    destruct (turn_rowsComma p1 _ (String " " J) H1) as (p2 & R2 & H2).
    assert (EJ : skipSpace (String " " J) = J).
    { unfold J. now destruct rs. }
    rewrite EJ in H2.
    destruct (IH r2 p2 (query.set_Inserts q (query.Inserts q ++ [r])%list) Hl2 Hn2 Hr2)
      as (p3 & R3 & H3); [now destruct q|exact H2|].
    exists p3. split; [eauto using reaches_trans|].
    rewrite set_Inserts_twice in H3. cbn [query.Inserts query.set_Inserts] in H3.
    now rewrite <- app_assoc in H3.
Qed.

Lemma skipSpace_rows (r : list string) (rs : list (list string)) (w : string) :
  skipSpace (Join (map renderRow (r :: rs)) ", " ++ w)
  = Join (map renderRow (r :: rs)) ", " ++ w.
Proof.
  cbn [map]. destruct (Join_head_sep (renderRow r) (map renderRow rs) ", " w) as (z & ->).
  reflexivity.
Qed.

Lemma lastInk_renderRow (r : list string) : lastInk (renderRow r) = true.
Proof. unfold renderRow. now do 2 apply lastInk_app. Qed.

Lemma Parse_render_insert {rt : Runtime} (t : string) (rows : list (list string))
    (fs : list string) :
  tokenName t = true -> fs <> [] -> Forall (fun f => plainName f = true) fs ->
  rows <> [] ->
  Forall (fun r => length r = length fs /\ Forall (fun v => literal v = true) r) rows ->
  let q := query.mkQuery query.Insert t [] ∅ rows fs ∅ ∅ in
  Parse (Query_String q) = Some (q, None).
Proof.
  intros Ht Hn Hfs Hrn Hrows q.
  destruct fs as [|f fs]; [contradiction|]. destruct rows as [|r rows]; [contradiction|].
  apply Forall_cons in Hfs as [Hf Hfs]. apply Forall_cons in Hrows as [[Hr1 Hr2] Hrows].
  set (R := Join (map renderRow (r :: rows)) ", ").
  set (F := Join (f :: fs) ", " ++ ")" ++ String " " ("VALUES" ++ String " " R)).
  set (text := "INSERT INTO" ++ String " " (t ++ String " " ("(" ++ F))).
  assert (Etext : Query_String q = text).
  { unfold Query_String, q, text, F, R, renderWhere.
    cbn [query.Type' query.TableName query.Fields query.Inserts query.Conditions length
           Nat.ltb Nat.leb].
    change (map (fun r0 => "('" ++ Join r0 "', '" ++ "')") (r :: rows))
      with (map renderRow (r :: rows)).
    now rewrite append_nil_r. }
  rewrite Etext.
  assert (Htrim : TrimSpace text = text).
  { apply TrimSpace_ink; [reflexivity|]. do 12 apply lastInk_cons.
    apply lastInk_app. do 2 apply lastInk_cons. unfold F. do 2 apply lastInk_app.
    do 8 apply lastInk_cons. unfold R. apply lastInk_Join; [discriminate|].
    apply Forall_map, Forall_forall. intros r' _. apply lastInk_renderRow. }
  assert (H0 : at_state (initial text) stepType query.zero text).
  { unfold at_state, initial, rest. cbn [step_ query_ sql i]. rewrite Htrim, from_0.
    repeat split; lia. }
  destruct (turn_type_insert _ _ _ H0 eq_refl) as (p1 & R1 & H1).
  change (skipSpace (String " " ?y)) with (skipSpace y) in H1.
  rewrite skipSpace_token in H1 by assumption.
  destruct (turn_tableName p1 _ stepInsertFieldsOpeningParens
              "at INSERT INTO: expected quoted table name" _ t _ H1 Ht eq_refl)
    as (p2 & R2 & H2).
  { intros Hs. unfold doStep. now rewrite Hs. }
  change (skipSpace (String " " ("(" ++ F))) with ("(" ++ F) in H2.
  destruct (turn_insertOpen p2 _ _ H2) as (p3 & R3 & H3). unfold F in H3.
  rewrite skipSpace_names in H3 by assumption.
  destruct (run_insertFields fs _ Hfs f p3 _ Hf H3) as (p4 & R4 & H4).
  change (skipSpace (String " " ?y)) with y in H4.
  destruct (turn_values p4 _ _ H4 eq_refl) as (p5 & R5 & H5).
  change (skipSpace (String " " R)) with (skipSpace R) in H5.
  rewrite <- (append_nil_r R) in H5. unfold R in H5.
  rewrite skipSpace_rows, append_nil_r in H5.
  assert (Hrows' : Forall (fun r0 => length (f :: fs) <= length r0 /\ r0 <> []
                                     /\ Forall (fun v => literal v = true) r0) rows).
  { eapply Forall_impl; [exact Hrows|]. intros r0 [E HF]. rewrite E.
    split; [lia|]. split; [|exact HF]. now destruct r0. }
  assert (Hr3 : r <> []) by now destruct r.
  assert (Hr4 : length (f :: fs) <= length r) by (rewrite Hr1; lia).
  destruct (run_rows rows (length (f :: fs)) Hrows' r p5
              (query.mkQuery query.Insert t [] ∅ [] (f :: fs) ∅ ∅) Hr4 Hr3 Hr2 eq_refl H5)
    as (p6 & R6 & H6).
  destruct H6 as (Hs6 & Hq6 & Hr6 & Hi6).
  assert (RR : reaches (initial text) p6) by eauto 10 using reaches_trans.
  destruct (reaches_initial text p6 RR) as (_ & _ & He).
  rewrite (Parse_run text p6 p6 (err p6) RR); [|constructor; now apply rest_empty_ge].
  unfold finish. rewrite He.
  assert (Hq : query_ p6 = q) by (rewrite Hq6; reflexivity).
  assert (Hv : validate p6 = None); [|now rewrite Hv, Hq].
  unfold validate. rewrite Hs6, Hq. unfold q.
  cbn [query.Type' query.TableName query.Fields query.Inserts query.Conditions length
         Nat.eqb andb query.Type_eqb orb validateConditions].
  destruct (tokenName_cons t Ht) as (c & t' & -> & _). cbn [String.eqb].
  assert (Hall : forallb (fun r0 => length r0 =? S (length fs)) (r :: rows) = true).
  { apply forallb_forall. intros r0 [<-|Hin]; [now apply Nat.eqb_eq|].
    apply Nat.eqb_eq. rewrite Forall_forall in Hrows.
    now apply Hrows, list_elem_of_In. }
  now rewrite Hall.
Qed.

(** ** Runs over an UPDATE *)

Lemma lex_UPDATE (x : string) :
  tailSep x -> lex ("UPDATE" ++ x) = ("UPDATE", 6) /\ afterToken ("UPDATE" ++ x) = skipSpace x.
Proof. intros Hx. now apply (lex_keyword "UPDATE" x). Qed.

Lemma lex_SET (x : string) :
  tailSep x -> lex ("SET" ++ x) = ("SET", 3) /\ afterToken ("SET" ++ x) = skipSpace x.
Proof. intros Hx. now apply (lex_keyword "SET" x). Qed.

Lemma lex_equals (x : string) :
  tailSep x -> lex ("=" ++ x) = ("=", 1) /\ afterToken ("=" ++ x) = skipSpace x.
Proof. intros Hx. now apply (lex_keyword "=" x). Qed.

Lemma turn_type_update (p : parser) (q : query.Query) (x : string) :
  at_state p stepType q ("UPDATE" ++ x) -> tailSep x ->
  exists p1,
    reaches p p1
    /\ at_state p1 stepUpdateTable
         (query.set_Updates (query.set_Type q query.Update) ∅) (skipSpace x).
Proof.
  intros (Hs & Hq & Hr & Hi) Hx. destruct (lex_UPDATE x Hx) as [Hl Ha].
  pose proof (peek_rest p _ _ _ Hi Hr Hl) as Hp.
  set (p0 := set_query p (query.set_Updates (query.set_Type (query_ p) query.Update) ∅)).
  destruct (pop_rest p0 _ _ Hi Hr Ha) as [Hr1 Hi1].
  exists (set_step (pop p0) stepUpdateTable). split.
  - eapply reaches_turn; [eapply rest_cons_lt; exact Hr| |constructor].
    unfold doStep. rewrite Hs. unfold typeStep. rewrite Hp. reflexivity.
  - repeat split; [now rewrite <- Hq|exact Hr1|exact Hi1].
Qed.

Lemma turn_set (p : parser) (q : query.Query) (x : string) :
  at_state p stepUpdateSet q ("SET" ++ x) -> tailSep x ->
  exists p1, reaches p p1 /\ at_state p1 stepUpdateField q (skipSpace x).
Proof.
  intros H Hx. destruct (lex_SET x Hx) as [Hl Ha].
  eapply (turn_expect p stepUpdateSet); try eassumption; [discriminate| |].
  - intros _ Hs. unfold doStep. now rewrite Hs.
  - now intros ->.
Qed.

(** The three turns over an assignment [f = 'v']. *)
Lemma turn_update (p : parser) (q : query.Query) (f v x r : string) (n : nat) :
  at_state p stepUpdateField q (f ++ " = " ++ quoted v ++ x) ->
  plainName f = true -> literal v = true -> lex (skipSpace x) = (r, n) ->
  exists p1,
    reaches p p1
    /\ at_state p1 (nextUpdate r)
         (query.set_Updates q (<[f := v]> (query.Updates q))) (skipSpace x).
Proof.
  intros (Hs & Hq & Hr & Hi) Hf Hv Hn.
  (* the field *)
  destruct (lex_name f (" = " ++ quoted v ++ x) Hf eq_refl) as [Hl1 Ha1].
  pose proof (peek_rest p _ _ _ Hi Hr Hl1) as Hp.
  change (skipSpace (" = " ++ quoted v ++ x)) with ("=" ++ String " " (quoted v ++ x)) in Ha1.
  set (pa := set_step (pop (set_nextUpdateField p f)) stepUpdateEquals).
  destruct (pop_rest (set_nextUpdateField p f) _ _ Hi Hr Ha1) as [Hra Hia].
  assert (Sa : doStep p = Next pa).
  { unfold doStep. rewrite Hs. unfold updateFieldStep. cbv zeta. rewrite Hp.
    now rewrite plainName_isIdentifier. }
  (* the equals sign *)
  destruct (lex_equals (String " " (quoted v ++ x)) eq_refl) as [Hl2 Ha2].
  change (skipSpace (String " " (quoted v ++ x))) with (quoted v ++ x) in Ha2.
  assert (Hpa : peek pa = "=") by exact (peek_rest pa _ _ _ Hia Hra Hl2).
  set (pb := set_step (pop pa) stepUpdateValue).
  destruct (pop_rest pa _ _ Hia Hra Ha2) as [Hrb Hib].
  change (rest (pop pa)) with (rest pb) in Hrb.
  assert (Sb : doStep pa = Next pb).
  { unfold doStep. change (step_ pa) with stepUpdateEquals. cbv iota.
    unfold expectStep. now rewrite Hpa. }
  (* the value *)
  destruct (lex_literal v x Hv) as (HQ & Hl3 & Ha3).
  assert (Hltb : i pb < len (sql pb)) by exact (rest_quoted_lt pb v x Hrb).
  set (pc := pop (set_nextUpdateField
                    (set_query pb
                       (query.set_Updates (query_ pb)
                          (<[nextUpdateField pb := v]> (query.Updates (query_ pb))))) "")).
  destruct (pop_rest (set_nextUpdateField
                        (set_query pb
                           (query.set_Updates (query_ pb)
                              (<[nextUpdateField pb := v]> (query.Updates (query_ pb))))) "")
              _ _ Hib Hrb Ha3) as [Hrc Hic].
  fold pc in Hrc, Hic.
  assert (Hpc : peek pc = r) by exact (peek_rest pc _ _ _ Hic Hrc Hn).
  assert (Hnz : (len v + 2 =? 0) = false) by (apply Nat.eqb_neq; lia).
  assert (Sc : doStep pb = Next (set_step pc (nextUpdate r))).
  { unfold doStep. change (step_ pb) with stepUpdateValue. cbv iota.
    unfold updateValueStep. cbv zeta.
    rewrite (peekQuoted_lex pb Hltb), Hrb, HQ, Hnz. fold pc. rewrite Hpc.
    unfold nextUpdate. now destruct (String.eqb (ToUpper r) "WHERE"). }
  exists (set_step pc (nextUpdate r)). split.
  - eapply reaches_turn; [|exact Sa|].
    { destruct (plainName_cons f Hf) as (c' & f' & -> & _). eapply rest_cons_lt; exact Hr. }
    eapply reaches_turn; [eapply rest_cons_lt; exact Hra|exact Sb|].
    eapply reaches_turn; [exact Hltb|exact Sc|constructor].
  - unfold at_state. subst q. split; [reflexivity|]. split; [reflexivity|].
    split; [exact Hrc|exact Hic].
Qed.

Lemma turn_updateComma (p : parser) (q : query.Query) (x : string) :
  at_state p stepUpdateComma q ("," ++ x) ->
  exists p1, reaches p p1 /\ at_state p1 stepUpdateField q (skipSpace x).
Proof.
  intros H. destruct (lex_comma x) as [Hl Ha].
  eapply (turn_expect p stepUpdateComma); try eassumption; [discriminate| |].
  - intros _ Hs. unfold doStep. now rewrite Hs.
  - now intros ->.
Qed.

Lemma set_Updates_twice (q : query.Query) (a b : gmap string string) :
  query.set_Updates (query.set_Updates q a) b = query.set_Updates q b.
Proof. now destruct q. Qed.

Lemma renderUpdate_head (fv : string * string) (w : string) :
  renderUpdate fv ++ w = fst fv ++ " = " ++ quoted (snd fv) ++ w.
Proof. unfold renderUpdate, quoted. now rewrite !append_assoc. Qed.

(** The turns over the assignments of an UPDATE, up to its WHERE. *)
Lemma run_updates (l : list (string * string)) (J : string) :
  Forall (fun fv => plainName (fst fv) = true /\ literal (snd fv) = true) l ->
  forall (fv : string * string) (p : parser) (q : query.Query),
    plainName (fst fv) = true -> literal (snd fv) = true ->
    at_state p stepUpdateField q
      (Join (map renderUpdate (fv :: l)) ", " ++ " WHERE " ++ J) ->
    exists p1,
      reaches p p1
      /\ at_state p1 stepWhere
           (query.set_Updates q (foldl putEntry (query.Updates q) (fv :: l)))
           ("WHERE" ++ String " " J).
Proof.
  induction 1 as [|fv2 l [Hf2 Hv2] Hl IH]; intros fv p q Hf Hv Hp.
  - cbn [map Join] in Hp. rewrite renderUpdate_head in Hp.
    exact (turn_update p q (fst fv) (snd fv) (" WHERE " ++ J) "WHERE" 5 Hp Hf Hv
             (proj1 (lex_WHERE (String " " J) eq_refl))).
  - cbn [map] in Hp. rewrite Join_cons2, append_assoc, renderUpdate_head in Hp.
    rewrite !append_assoc in Hp.
    set (y := Join (renderUpdate fv2 :: map renderUpdate l) ", " ++ " WHERE " ++ J) in *.
    destruct (turn_update p q (fst fv) (snd fv) (", " ++ y) "," 1 Hp Hf Hv
                (proj1 (lex_comma (String " " y)))) as (p1 & R1 & H1).
    destruct (turn_updateComma p1 _ (String " " y) H1) as (p2 & R2 & H2).
    change (skipSpace (String " " y)) with (skipSpace y) in H2.
    assert (Ey : skipSpace y = y).
    { unfold y.
      destruct (Join_head_sep (renderUpdate fv2) (map renderUpdate l) ", "
                  (" WHERE " ++ J)) as (z & ->).
      rewrite renderUpdate_head. now apply skipSpace_name. }
    rewrite Ey in H2. unfold y in H2.
    destruct (IH fv2 p2 _ Hf2 Hv2 H2) as (p3 & R3 & H3).
    exists p3. split; [eauto using reaches_trans|].
    now rewrite set_Updates_twice in H3.
Qed.

(** ** Maps rebuilt from their entries *)

Lemma foldl_putEntry (l : list (string * string)) (m : gmap string string) :
  foldl putEntry m l = foldr (fun kv M => putEntry M kv) m (rev l).
Proof.
  revert m. induction l as [|a l IH]; intros m; [reflexivity|].
  cbn [foldl rev]. now rewrite IH, foldr_app.
Qed.

Lemma foldr_putEntry (l : list (string * string)) :
  foldr (fun kv M => putEntry M kv) ∅ l = list_to_map l.
Proof.
  induction l as [|[k v] l IH]; [reflexivity|].
  cbn [foldr]. rewrite IH. reflexivity.
Qed.

Lemma foldl_putEntry_Range {rt : Runtime} (m : gmap string string) :
  foldl putEntry ∅ (Range m) = m.
Proof.
  rewrite foldl_putEntry, foldr_putEntry.
  rewrite <- (list_to_map_to_list m) at 2.
  assert (HP : rev (Range m) ≡ₚ map_to_list m).
  { etrans; [symmetry; apply Permutation_rev|apply Range_perm]. }
  apply list_to_map_proper; [|exact HP].
  apply (NoDup_Permutation_proper _ (map_to_list m).*1);
    [|apply NoDup_fst_map_to_list].
  now apply fmap_Permutation.
Qed.

Lemma Range_entries {rt : Runtime} (m : gmap string string) (P : string * string -> Prop) :
  (forall k v, m !! k = Some v -> P (k, v)) -> Forall P (Range m).
Proof.
  intros H. apply Forall_forall. intros [k v] Hin. apply H.
  apply elem_of_map_to_list. now rewrite <- (Range_perm _ m).
Qed.

Lemma Range_nonempty {rt : Runtime} (m : gmap string string) : m <> ∅ -> Range m <> [].
Proof.
  intros Hm E. apply Hm. apply map_to_list_empty_iff.
  apply Permutation_nil_r. rewrite <- E. symmetry. apply Range_perm.
Qed.

Lemma Parse_render_update {rt : Runtime} (t : string) (cs : list query.Condition)
    (U : gmap string string) :
  tokenName t = true -> U <> ∅ ->
  (forall f v, U !! f = Some v -> plainName f = true /\ literal v = true) ->
  cs <> [] -> Forall (fun c => plainCondition c = true) cs ->
  let q := query.mkQuery query.Update t cs U [] [] ∅ ∅ in
  Parse (Query_String q) = Some (q, None).
Proof.
  intros Ht HU HUe Hn Hcs q.
  pose proof (Range_nonempty U HU) as Hne.
  pose proof (Range_entries U (fun fv => plainName (fst fv) = true /\ literal (snd fv) = true)
                HUe) as Hent.
  pose proof (foldl_putEntry_Range U) as Hfold.
  destruct (Range U) as [|fv l] eqn:ER; [contradiction|].
  apply Forall_cons in Hent as [[Hf Hv] Hent].
  destruct cs as [|c cs]; [contradiction|].
  set (J := Join (map renderCondition (c :: cs)) " AND ").
  set (L := Join (map renderUpdate (fv :: l)) ", " ++ " WHERE " ++ J).
  set (text := "UPDATE" ++ String " " (t ++ String " " ("SET" ++ String " " L))).
  assert (Etext : Query_String q = text).
  { unfold Query_String, q, text, L, J, renderWhere.
    cbn [query.Type' query.TableName query.Updates query.Conditions].
    rewrite ER. change (0 <? length (c :: cs)) with true. cbv iota.
    change (map (fun fv0 => fst fv0 ++ " = '" ++ snd fv0 ++ "'") (fv :: l))
      with (map renderUpdate (fv :: l)).
    reflexivity. }
  rewrite Etext.
  assert (Htrim : TrimSpace text = text).
  { apply TrimSpace_ink; [reflexivity|]. do 7 apply lastInk_cons.
    apply lastInk_app. do 5 apply lastInk_cons. unfold L. do 2 apply lastInk_app.
    unfold J. apply lastInk_Join; [discriminate|].
    apply Forall_map. eapply Forall_impl; [exact Hcs|].
    intros c' Hc'. now apply lastInk_renderCondition. }
  assert (H0 : at_state (initial text) stepType query.zero text).
  { unfold at_state, initial, rest. cbn [step_ query_ sql i]. rewrite Htrim, from_0.
    repeat split; lia. }
  destruct (turn_type_update _ _ _ H0 eq_refl) as (p1 & R1 & H1).
  change (skipSpace (String " " ?y)) with (skipSpace y) in H1.
  rewrite skipSpace_token in H1 by assumption.
  destruct (turn_tableName p1 _ stepUpdateSet "at UPDATE: expected quoted table name"
              _ t _ H1 Ht eq_refl) as (p2 & R2 & H2).
  { intros Hs. unfold doStep. now rewrite Hs. }
  change (skipSpace (String " " ?y)) with y in H2.
  destruct (turn_set p2 _ _ H2 eq_refl) as (p3 & R3 & H3).
  change (skipSpace (String " " L)) with (skipSpace L) in H3.
  assert (EL : skipSpace L = L).
  { unfold L. cbn [map].
    destruct (Join_head_sep (renderUpdate fv) (map renderUpdate l) ", " (" WHERE " ++ J))
      as (z & ->).
    rewrite renderUpdate_head. now apply skipSpace_name. }
  rewrite EL in H3. unfold L in H3.
  destruct (run_updates l J Hent fv p3 _ Hf Hv H3) as (p4 & R4 & H4).
  cbn [query.set_Type query.set_TableName query.set_Updates query.Type' query.TableName
         query.Conditions query.Updates query.Inserts query.Fields query.Aliases
         query.CreateFields query.zero] in H4.
  rewrite Hfold in H4.
  destruct (run_where (c :: cs) p4 _ Hcs H4 eq_refl) as (p5 & R5 & H5).
  apply (finish_where text p5 q (c :: cs)); try assumption; try reflexivity.
  - eauto 10 using reaches_trans.
  - cbn. now destruct (tokenName_cons t Ht) as (c0 & t' & -> & _).
  - right. split; [now right|discriminate].
Qed.

(** ** Runs over a CREATE TABLE *)

Lemma lex_CREATE_TABLE (x : string) :
  tailSep x ->
  lex ("CREATE TABLE" ++ x) = ("CREATE TABLE", 12)
  /\ afterToken ("CREATE TABLE" ++ x) = skipSpace x.
Proof. intros Hx. now apply (lex_keyword "CREATE TABLE" x). Qed.

Lemma turn_type_create (p : parser) (q : query.Query) (x : string) :
  at_state p stepType q ("CREATE TABLE" ++ x) -> tailSep x ->
  exists p1,
    reaches p p1
    /\ at_state p1 stepCreateTable
         (query.set_CreateFields (query.set_Type q query.Create) ∅) (skipSpace x).
Proof.
  intros (Hs & Hq & Hr & Hi) Hx. destruct (lex_CREATE_TABLE x Hx) as [Hl Ha].
  pose proof (peek_rest p _ _ _ Hi Hr Hl) as Hp.
  set (p0 := set_query p (query.set_Type (query_ p) query.Create)).
  destruct (pop_rest p0 _ _ Hi Hr Ha) as [Hr1 Hi1].
  set (p1 := set_step (pop p0) stepCreateTable).
  exists (set_query p1 (query.set_CreateFields (query_ p1) ∅)). split.
  - eapply reaches_turn; [eapply rest_cons_lt; exact Hr| |constructor].
    unfold doStep. rewrite Hs. unfold typeStep. rewrite Hp. reflexivity.
  - repeat split; [now rewrite <- Hq|exact Hr1|exact Hi1].
Qed.

Lemma turn_createTable (p : parser) (q : query.Query) (t y : string) :
  at_state p stepCreateTable q (t ++ " (" ++ y) -> tokenName t = true ->
  exists p1,
    reaches p p1
    /\ at_state p1 stepParseCreateFields (query.set_TableName q t) (skipSpace y).
Proof.
  intros (Hs & Hq & Hr & Hi) Ht.
  destruct (lex_token t (" (" ++ y) Ht eq_refl) as [Hl Ha].
  pose proof (peek_rest p _ _ _ Hi Hr Hl) as Hp.
  change (skipSpace (" (" ++ y)) with ("(" ++ y) in Ha.
  set (p1 := pop (setTableName p t)).
  destruct (pop_rest (setTableName p t) _ _ Hi Hr Ha) as [Hr1 Hi1]. fold p1 in Hr1, Hi1.
  destruct (lex_paren y) as [Hl2 Ha2].
  pose proof (peek_rest p1 _ _ _ Hi1 Hr1 Hl2) as Hp1.
  destruct (pop_rest (set_step p1 stepParseCreateFields) _ _ Hi1 Hr1 Ha2) as [Hr2 Hi2].
  destruct (tokenName_cons t Ht) as (c & t' & Et & _).
  exists (pop (set_step p1 stepParseCreateFields)). split.
  - eapply reaches_turn; [| |constructor].
    + rewrite Et in Hr. eapply rest_cons_lt; exact Hr.
    + unfold doStep. rewrite Hs. unfold createTableStep. cbv zeta. rewrite Hp.
      rewrite Et at 1. cbn [String.eqb]. fold p1. now rewrite Hp1.
  - unfold at_state. subst q. split; [reflexivity|]. split; [reflexivity|].
    split; [exact Hr2|exact Hi2].
Qed.

Lemma set_step_same (p : parser) (s : step) : step_ p = s -> set_step p s = p.
Proof. destruct p. cbn. now intros ->. Qed.

(** The turn over a column [f ty], with the comma or the parenthesis behind. *)
Lemma turn_createField (p : parser) (q : query.Query) (f ty k y : string) :
  at_state p stepParseCreateFields q (f ++ " " ++ ty ++ k ++ y) ->
  tokenName f = true -> tokenName ty = true -> k = "," \/ k = ")" ->
  exists p1,
    reaches p p1
    /\ at_state p1 stepParseCreateFields
         (query.set_CreateFields q (<[f := ty]> (query.CreateFields q))) (skipSpace y).
Proof.
  intros (Hs & Hq & Hr & Hi) Hf Hty Hk.
  assert (Hsep : tailSep (k ++ y)) by (destruct Hk as [-> | ->]; reflexivity).
  assert (Hkk : skipSpace (k ++ y) = k ++ y) by (destruct Hk as [-> | ->]; reflexivity).
  assert (Hlk : lex (k ++ y) = (k, 1) /\ afterToken (k ++ y) = skipSpace y).
  { destruct Hk as [-> | ->]; [apply lex_comma|apply lex_close]. }
  destruct Hlk as [Hl3 Ha3].
  destruct (lex_token f (" " ++ ty ++ k ++ y) Hf eq_refl) as [Hl1 Ha1].
  pose proof (peek_rest p _ _ _ Hi Hr Hl1) as Hp.
  change (skipSpace (" " ++ ty ++ k ++ y)) with (skipSpace (ty ++ k ++ y)) in Ha1.
  rewrite skipSpace_token in Ha1 by assumption.
  destruct (pop_rest p _ _ Hi Hr Ha1) as [Hr1 Hi1].
  destruct (lex_token ty (k ++ y) Hty Hsep) as [Hl2 Ha2]. rewrite Hkk in Ha2.
  pose proof (peek_rest (pop p) _ _ _ Hi1 Hr1 Hl2) as Hp1.
  destruct (pop_rest (pop p) _ _ Hi1 Hr1 Ha2) as [Hr2 Hi2].
  set (p3 := set_query (pop (pop p))
               (query.set_CreateFields (query_ (pop (pop p)))
                  (<[f := ty]> (query.CreateFields (query_ (pop (pop p))))))).
  assert (Hp3 : peek p3 = k) by exact (peek_rest p3 _ _ _ Hi2 Hr2 Hl3).
  destruct (pop_rest p3 _ _ Hi2 Hr2 Ha3) as [Hr3 Hi3].
  destruct (tokenName_cons f Hf) as (c & f' & Ef & _).
  destruct (tokenName_cons ty Hty) as (c2 & ty' & Ety & _).
  exists (pop p3). split.
  - eapply reaches_turn; [| |constructor].
    + rewrite Ef in Hr. eapply rest_cons_lt; exact Hr.
    + unfold doStep. rewrite Hs. unfold parseCreateFieldsStep. cbv zeta. rewrite Hp, Hp1.
      rewrite Ef at 1. cbn [String.eqb]. rewrite Ety at 1. cbn [String.eqb].
      fold p3. rewrite Hp3. destruct Hk as [-> | ->]; [|reflexivity].
      cbn [String.eqb Ascii.eqb Bool.eqb]. cbv iota.
      now rewrite (set_step_same (pop p3) stepParseCreateFields Hs).
  - unfold at_state. subst q. split; [exact Hs|]. split; [reflexivity|].
    split; [exact Hr3|exact Hi3].
Qed.

Lemma set_CreateFields_twice (q : query.Query) (a b : gmap string string) :
  query.set_CreateFields (query.set_CreateFields q a) b = query.set_CreateFields q b.
Proof. now destruct q. Qed.

(** The turns over the columns of a CREATE TABLE. *)
Lemma run_createFields (l : list (string * string)) :
  Forall (fun ft => tokenName (fst ft) = true /\ tokenName (snd ft) = true) l ->
  forall (ft : string * string) (p : parser) (q : query.Query),
    tokenName (fst ft) = true -> tokenName (snd ft) = true ->
    at_state p stepParseCreateFields q (Join (map renderCreate (ft :: l)) ", " ++ ")") ->
    exists p1,
      reaches p p1
      /\ at_state p1 stepParseCreateFields
           (query.set_CreateFields q (foldl putEntry (query.CreateFields q) (ft :: l))) "".
Proof.
  induction 1 as [|ft2 l [Hf2 Hv2] Hl IH]; intros ft p q Hf Hv Hp.
  - cbn [map Join] in Hp. unfold renderCreate in Hp. rewrite !append_assoc in Hp.
    exact (turn_createField p q (fst ft) (snd ft) ")" "" Hp Hf Hv (or_intror eq_refl)).
  - cbn [map] in Hp. rewrite Join_cons2 in Hp. unfold renderCreate at 1 in Hp.
    rewrite !append_assoc in Hp.
    set (y := Join (renderCreate ft2 :: map renderCreate l) ", " ++ ")") in *.
    destruct (turn_createField p q (fst ft) (snd ft) "," (String " " y) Hp Hf Hv
                (or_introl eq_refl)) as (p1 & R1 & H1).
    change (skipSpace (String " " y)) with (skipSpace y) in H1.
    assert (Ey : skipSpace y = y).
    { unfold y.
      destruct (Join_head_sep (renderCreate ft2) (map renderCreate l) ", " ")") as (z & ->).
      unfold renderCreate. rewrite append_assoc. now apply skipSpace_token. }
    rewrite Ey in H1. unfold y in H1.
    destruct (IH ft2 p1 _ Hf2 Hv2 H1) as (p2 & R2 & H2).
    exists p2. split; [eauto using reaches_trans|].
    now rewrite set_CreateFields_twice in H2.
Qed.

Lemma Parse_render_create {rt : Runtime} (t : string) (CF : gmap string string) :
  tokenName t = true -> CF <> ∅ ->
  (forall f ty, CF !! f = Some ty -> tokenName f = true /\ tokenName ty = true) ->
  let q := query.mkQuery query.Create t [] ∅ [] [] ∅ CF in
  Parse (Query_String q) = Some (q, None).
Proof.
  intros Ht HC HCe q.
  pose proof (Range_nonempty CF HC) as Hne.
  pose proof (Range_entries CF
                (fun ft => tokenName (fst ft) = true /\ tokenName (snd ft) = true) HCe)
    as Hent.
  pose proof (foldl_putEntry_Range CF) as Hfold.
  destruct (Range CF) as [|ft l] eqn:ER; [contradiction|].
  apply Forall_cons in Hent as [[Hf Hv] Hent].
  set (L := Join (map renderCreate (ft :: l)) ", " ++ ")").
  set (text := "CREATE TABLE" ++ String " " (t ++ " (" ++ L)).
  assert (Etext : Query_String q = text).
  { unfold Query_String, q, text, L, renderWhere.
    cbn [query.Type' query.TableName query.CreateFields query.Conditions length
           Nat.ltb Nat.leb].
    rewrite ER.
    change (map (fun ft0 => fst ft0 ++ " " ++ snd ft0) (ft :: l))
      with (map renderCreate (ft :: l)).
    reflexivity. }
  rewrite Etext.
  assert (Htrim : TrimSpace text = text).
  { apply TrimSpace_ink; [reflexivity|]. do 13 apply lastInk_cons.
    apply lastInk_app. do 2 apply lastInk_cons. unfold L. now apply lastInk_app. }
  assert (H0 : at_state (initial text) stepType query.zero text).
  { unfold at_state, initial, rest. cbn [step_ query_ sql i]. rewrite Htrim, from_0.
    repeat split; lia. }
  destruct (turn_type_create _ _ _ H0 eq_refl) as (p1 & R1 & H1).
  change (skipSpace (String " " ?y)) with (skipSpace y) in H1.
  rewrite skipSpace_token in H1 by assumption.
  destruct (turn_createTable p1 _ t L H1 Ht) as (p2 & R2 & H2).
  assert (EL : skipSpace L = L).
  { unfold L. cbn [map].
    destruct (Join_head_sep (renderCreate ft) (map renderCreate l) ", " ")") as (z & ->).
    unfold renderCreate. rewrite append_assoc. now apply skipSpace_token. }
  rewrite EL in H2. unfold L in H2.
  destruct (run_createFields l Hent ft p2 _ Hf Hv H2) as (p3 & R3 & H3).
  cbn [query.set_Type query.set_TableName query.set_CreateFields query.Type'
         query.TableName query.Conditions query.Updates query.Inserts query.Fields
         query.Aliases query.CreateFields query.zero] in H3.
  rewrite Hfold in H3. destruct H3 as (Hs3 & Hq3 & Hr3 & Hi3).
  assert (RR : reaches (initial text) p3) by eauto using reaches_trans.
  destruct (reaches_initial text p3 RR) as (_ & _ & He).
  rewrite (Parse_run text p3 p3 (err p3) RR); [|constructor; now apply rest_empty_ge].
  unfold finish. rewrite He.
  assert (Hv3 : validate p3 = None); [|now rewrite Hv3, Hq3].
  unfold validate. now rewrite Hs3, Hq3.
Qed.

(** ** Plain queries read back *)

(** [Parse] reads a plain query back from the text that [Query.String]
    renders, in whatever order [range] visits its maps. *)
Lemma Parse_render {rt : Runtime} (q : query.Query) :
  plainQuery q -> Parse (Query_String q) = Some (q, None).
Proof.
  destruct q as [ty t cs U rows fs A CF]. unfold plainQuery.
  cbn [query.Type' query.TableName query.Conditions query.Updates query.Inserts
         query.Fields query.Aliases query.CreateFields].
  intros (Ht & Hcs & H). destruct ty; try contradiction.
  - destruct H as (Hn & Hfs & HA & -> & -> & ->). now apply Parse_render_select.
  - destruct H as (Hn & HU & HUe & -> & -> & -> & ->). now apply Parse_render_update.
  - destruct H as (-> & Hn & Hfs & Hrn & Hrows & -> & -> & ->).
    now apply Parse_render_insert.
  - destruct H as (Hn & -> & -> & -> & -> & ->). now apply Parse_render_delete.
  - destruct H as (-> & HC & HCe & -> & -> & -> & ->). now apply Parse_render_create.
Qed.

(** ** Values read from between quotes *)

Lemma closingQuote_prefix (body : string) (prev : ascii) (k : nat) :
  closingQuote body prev = Some k ->
  closingQuote (prefix k body ++ "'") prev = Some k.
Proof.
  revert prev k. induction body as [|c body IH]; intros prev k; [discriminate|].
  cbn [closingQuote].
  destruct (Ascii.eqb c quote && negb (Ascii.eqb prev backslash)) eqn:E.
  - intros [= <-]. unfold prefix. cbn [String.substring].
    change ("" ++ "'") with (String quote ""). cbn [closingQuote].
    apply andb_prop in E as [_ E]. now rewrite Ascii.eqb_refl, E.
  - destruct (closingQuote body c) as [k'|] eqn:Ek; [|discriminate].
    intros [= <-]. change (prefix (S k') (String c body)) with (String c (prefix k' body)).
    rewrite append_cons. cbn [closingQuote]. rewrite E. now rewrite (IH c k' Ek).
Qed.

(** What [peekQuotedStringWithLength] returns with a length is a literal,
    and it is the token at the cursor. *)
Lemma peekQuoted_literal (p : parser) (v : string) (n : nat) :
  i p < len (sql p) -> peekQuotedStringWithLength p = Some (v, n) -> (n =? 0) = false ->
  literal v = true /\ peek p = v.
Proof.
  intros Hlt Hq Hn. rewrite (peekQuoted_lex p Hlt) in Hq. injection Hq as Hq.
  destruct (rest p) as [|c body] eqn:Er.
  { cbn in Hq. injection Hq as _ <-. discriminate. }
  assert (Ec : Ascii.eqb c quote = true).
  { unfold lexQuoted in Hq. destruct (Ascii.eqb c quote); [reflexivity|].
    injection Hq as _ <-. discriminate. }
  assert (Hpeek : peek p = v).
  { unfold peek. rewrite peekWithLength_lex by lia. rewrite Er. unfold lex.
    apply Ascii.eqb_eq in Ec. subst c. rewrite lexReserved_quote by reflexivity.
    rewrite Ascii.eqb_refl. now rewrite Hq. }
  split; [|exact Hpeek].
  unfold lexQuoted in Hq. rewrite Ec in Hq.
  destruct (closingQuote body c) as [k|] eqn:Ek; [|injection Hq as _ <-; discriminate].
  injection Hq as <- <-. unfold literal.
  apply Ascii.eqb_eq in Ec. subst c.
  rewrite (closingQuote_prefix body quote k Ek).
  apply Nat.eqb_eq. rewrite len_prefix. apply closingQuote_lt in Ek. lia.
Qed.

(** ** The shape of the query in every state *)

Ltac shape_cbn :=
  cbn [step_ query_ pop popWhitespace set_i set_step set_query set_nextUpdateField
         setTableName appendField setLastCondition
         query.Type' query.TableName query.Conditions query.Inserts query.Updates
         query.Fields query.Aliases query.CreateFields
         query.set_Type query.set_TableName query.set_Conditions query.set_Updates
         query.set_Inserts query.set_Fields query.set_Aliases query.set_CreateFields] in *.

Lemma Forall_setLast {A : Type} (P : A -> Prop) (l : list A) (c c' : A) :
  Forall P l -> last l = Some c -> (P c -> P c') -> Forall P (setLast l c').
Proof.
  intros Hl Hc HP. apply last_Some in Hc as [init ->]. rewrite setLast_snoc.
  apply Forall_app in Hl as [Hinit Hc]. apply Forall_app. split; [assumption|].
  constructor; [|constructor]. apply HP. now inversion Hc.
Qed.

Lemma condShape_fresh (f : string) :
  condShape (query.mkCondition f true query.UnknownOperator "" false []).
Proof. repeat split. constructor. Qed.

Lemma condShape_set_Operator (c : query.Condition) (o : query.Operator) :
  freshCondition c = true -> condShape c -> condShape (query.set_Operator c o).
Proof.
  destruct c as [f b1 o0 v b2 vs]. unfold freshCondition, condShape. cbn.
  intros H (Hb1 & _). apply andb_prop in H as [H Hvs]. apply andb_prop in H as [H Hb2].
  apply andb_prop in H as [_ Hv]. apply String.eqb_eq in Hv as ->.
  apply negb_true_iff in Hb2 as ->. destruct vs; [|discriminate].
  repeat split; try assumption; try constructor. now destruct (isIn o).
Qed.

Lemma condShape_set_Operand2_literal (c : query.Condition) (v : string) :
  isIn (query.Operator_ c) = false -> literal v = true ->
  (isLike (query.Operator_ c) = false -> isIdentifier v = false) ->
  condShape c -> condShape (query.set_Operand2 c v false).
Proof.
  destruct c as [f b1 o v0 b2 vs]. unfold condShape. cbn.
  intros Hin Hv Hid (Hb1 & Hvs & H1 & _). rewrite Hin in *. auto.
Qed.

Lemma condShape_set_Operand2_field (c : query.Condition) (v : string) :
  isIn (query.Operator_ c) = false -> isLike (query.Operator_ c) = false ->
  condShape c -> condShape (query.set_Operand2 c v true).
Proof.
  destruct c as [f b1 o v0 b2 vs]. unfold condShape. cbn.
  intros Hin Hlike (Hb1 & Hvs & H1 & _). rewrite Hin in *. auto.
Qed.

Lemma condShape_set_InValues (c : query.Condition) (v : string) :
  isIn (query.Operator_ c) = true -> literal v = true ->
  condShape c -> condShape (query.set_InValues c (query.InValues c ++ [v])%list).
Proof.
  destruct c as [f b1 o v0 b2 vs]. unfold condShape. cbn.
  intros Hin Hv (Hb1 & Hvs & H1 & H2). rewrite Hin in *.
  repeat split; try tauto. apply Forall_app. split; [assumption|]. now repeat constructor.
Qed.

Lemma awaitsValue_isIn (c : query.Condition) :
  awaitsValue c = true -> isIn (query.Operator_ c) = false.
Proof.
  unfold awaitsValue. intros H. apply andb_prop in H as [_ H]. now apply negb_true_iff.
Qed.

Lemma awaitsInValue_isIn (c : query.Condition) :
  awaitsInValue c = true -> isIn (query.Operator_ c) = true.
Proof. unfold awaitsInValue. intros H. now apply andb_prop in H as [_ H]. Qed.

Ltac last_fact :=
  match goal with
  | HL : lastIs _ ?conds, H : last ?conds = Some ?c |- _ =>
      let init := fresh "init" in
      let Hc := fresh "Hc" in
      let Hinit := fresh "Hinit" in
      let HP := fresh "HP" in
      destruct (lastIs_last _ _ _ HL H) as (init & Hc & Hinit & HP); clear HL
  end.

Lemma doStep_Shape (p p' : parser) :
  Inv p -> i p < len (sql p) -> Shape p -> doStep p = Next p' -> Shape p'.
Proof.
  intros HI Hlt (HK & HS & HV). unfold Inv in HI. unfold stepShape in HS. unfold doStep.
  destruct (step_ p) eqn:Es; unfold_steps;
    repeat case_match; try discriminate; simplify_eq; intros [= <-];
    unfold Shape, stepShape, whereShape, whereOK in *; shape_cbn; rewrite ?Es.
  all: try (split; [exact HK|split; [|exact HV]]).
  all: try tauto.
  all: try (intuition congruence).
  all: unfold kindShape, valuesShape in *; shape_cbn.
  all: destruct HV as (HVc & HVi & HVu).
  all: repeat match goal with H : _ /\ _ |- _ => destruct H end.
  all: try match goal with
         | Hq : peekQuotedStringWithLength ?p0 = Some (?s, ?n), Hn : (?n =? 0) = false |- _ =>
             destruct (peekQuoted_literal p0 s n Hlt Hq Hn) as [Hlit Hpk]
         end.
  all: destruct (query.Type' (query_ p)) eqn:ET; try discriminate; try congruence.
  all: repeat match goal with H : _ /\ _ |- _ => destruct H end.
  all: repeat split; auto; try congruence.
  all: try (apply snoc_nonempty).
  all: try (rewrite HK; cbn;
            first [reflexivity|intros ? ? HH; rewrite lookup_empty in HH; discriminate]).
  all: try (intros ? ? HH; rewrite lookup_empty in HH; discriminate).
  all: try (intros f a [[<- <-]|[Hne HH]]%lookup_insert_Some; apply elem_of_app;
            [right; now apply list_elem_of_singleton|left; eauto]; fail).
  all: try (intros f a HH; apply elem_of_app; left; eauto; fail).
  all: try (apply Forall_app; split; [assumption|now repeat constructor]).
  all: try (intros; apply insert_non_empty).
  all: try (intros f v [[<- <-]|[? HH]]%lookup_insert_Some; eauto; fail).
  all: try (eapply Forall_setLast; [eassumption|eassumption|];
            intros HH; apply Forall_app; split; [assumption|now repeat constructor]).
  all: try (apply lastIs_snoc; [assumption|reflexivity]).
  all: try (apply Forall_app; split; [assumption|];
            constructor; [apply condShape_fresh|constructor]).
  all: try last_fact.
  all: try (eapply Forall_setLast; [eassumption|eassumption|]).
  all: try (apply condShape_set_Operator; assumption).
  all: try (apply condShape_set_InValues; [now apply awaitsInValue_isIn|assumption]).
  all: try (apply condShape_set_Operand2_field; [now apply awaitsValue_isIn|assumption]).
  all: try (apply condShape_set_Operand2_literal;
            [now apply awaitsValue_isIn|assumption|congruence]).
  all: try (intros _; apply snoc_nonempty).
  all: try (rewrite HK; cbn; first [intros HH; now contradiction HH|constructor]).
  all: try (apply Forall_app; split; [assumption|]; constructor; [|constructor];
            now apply negb_false_iff).
Qed.

Lemma Shape_initial (text : string) : Shape (initial text).
Proof.
  repeat split; try constructor. intros f v H. cbn in H.
  rewrite lookup_empty in H. discriminate.
Qed.

Lemma reaches_Shape (p p' : parser) : Inv p -> Shape p -> reaches p p' -> Shape p'.
Proof.
  intros HI HS H. induction H as [p|p p1 p' Hlt Hs _ IH]; [assumption|].
  apply IH; [eapply doStep_Inv|eapply doStep_Shape]; eassumption.
Qed.

Lemma doStep_Return (p p' : parser) (e : error) : doStep p = Return p' e -> e <> None.
Proof.
  unfold doStep. destruct (step_ p); unfold_steps; repeat case_match; simplify_eq;
    try discriminate; intros HH; inversion HH; discriminate.
Qed.

(** An accepted text leaves the loop at the end of the text, in a state
    that [validate] accepts. *)
Lemma Parse_accepted (text : string) (q : query.Query) :
  Parse text = Some (q, None) ->
  exists p, reaches (initial text) p /\ q = query_ p /\ validate p = None.
Proof.
  intros (p1 & p' & e & Hr & Hs & Hf)%Parse_inv. unfold finish in Hf.
  inversion Hs as [p0 Hle|p0 p0' e0 Hlt Hret]; subst.
  - destruct (err p'); [discriminate|]. destruct (validate p') eqn:Ev; [discriminate|].
    injection Hf as ->. eauto.
  - apply doStep_Return in Hret. destruct e; [discriminate|contradiction].
Qed.

(** ** From names that read back to plain queries *)

Lemma validateConditions_Forall (cs : list query.Condition) :
  validateConditions cs = None -> Forall (fun c => validateCondition c = None) cs.
Proof.
  induction cs as [|c cs IH]; [constructor|]. cbn [validateConditions].
  destruct (validateCondition c) eqn:E; [discriminate|]. intros H.
  constructor; [exact E|now apply IH].
Qed.

Lemma plainCondition_intro (c : query.Condition) :
  condShape c -> validateCondition c = None ->
  plainName (query.Operand1 c) = true ->
  (query.Operand2IsField c = true -> plainName (query.Operand2 c) = true) ->
  plainCondition c = true.
Proof.
  destruct c as [f b1 o v b2 vs]. unfold condShape, validateCondition, plainCondition.
  cbn [query.Operand1 query.Operand1IsField query.Operator_ query.Operand2
         query.Operand2IsField query.InValues].
  intros (-> & Hvs & H1 & H2) Hv Hf Hv2. rewrite Hf. cbn [andb].
  destruct (query.Operator_eqb o query.UnknownOperator); [discriminate|]. cbn [negb andb].
  destruct (plainName_cons f Hf) as (c & f' & -> & _). cbn [String.eqb andb] in Hv.
  destruct (isIn o).
  - destruct H1 as [-> ->]. cbn [String.eqb negb andb].
    destruct (length vs =? 0); [discriminate|]. cbn [negb andb].
    now apply forallb_Forall_true.
  - subst vs. cbn [length Nat.eqb andb]. destruct b2.
    + rewrite H2. now rewrite Hv2.
    + destruct H2 as [-> H2]. cbn [andb].
      destruct (isLike o); [reflexivity|]. now rewrite H2.
Qed.

Lemma validate_facts (p : parser) :
  validate p = None ->
  let q := query_ p in
  query.Type' q <> query.UnknownType
  /\ (query.Type' q <> query.Create -> validateConditions (query.Conditions q) = None)
  /\ (query.Type' q = query.Update \/ query.Type' q = query.Delete ->
      query.Conditions q <> []).
Proof.
  unfold validate. intros H.
  destruct (query.Type' (query_ p)); revert H; cbn [query.Type_eqb orb andb];
    repeat case_match; try discriminate; intros _.
  all: repeat split; try discriminate; try tauto; try reflexivity.
  all: try (intros _ E; rewrite E in *; discriminate).
  all: try (intros [?|?]; discriminate).
Qed.

Lemma doStep_Names (p p' : parser) :
  Names p -> doStep p = Next p' -> Names p'.
Proof.
  intros (HF & HA & HC & HU & HS). unfold doStep.
  destruct (step_ p) eqn:Es; unfold_steps;
    repeat case_match; try discriminate; simplify_eq; intros [= <-];
    unfold Names in *; shape_cbn; cbn [nextUpdateField]; rewrite ?Es.
  all: bools.
  all: repeat split; auto.
  all: try (intros ? ? HH; rewrite lookup_empty in HH; discriminate).
  all: try (apply Forall_app; split; [assumption|]; constructor; [|constructor]).
  all: try assumption.
  all: try (unfold isIdentifierOrAsterisk;
            match goal with H : isIdentifier _ = true |- _ => now rewrite H end).
  all: try (intros f a [[<- <-]|[? HH]]%lookup_insert_Some; eauto; fail).
  all: try (split; [assumption|discriminate]).
  all: try (eapply Forall_setLast; [eassumption|eassumption|];
            unfold condNames; cbn; intuition congruence).
Qed.

Lemma Names_initial (text : string) : Names (initial text).
Proof.
  repeat split; try constructor; intros f v H; cbn in H;
    rewrite lookup_empty in H; discriminate.
Qed.

Lemma reaches_Names (p p' : parser) : Names p -> reaches p p' -> Names p'.
Proof.
  intros HN H. induction H as [p|p p1 p' Hlt Hs _ IH]; [assumption|].
  apply IH. eapply doStep_Names; eassumption.
Qed.

Lemma plainName_intro (f : string) :
  isIdentifier f = true -> tokenName f = true -> plainName f = true.
Proof. unfold plainName. now intros -> ->. Qed.

Lemma fieldName_intro (f : string) :
  isIdentifierOrAsterisk f = true -> tokenName f = true -> fieldName f = true.
Proof.
  unfold isIdentifierOrAsterisk, fieldName, plainName. intros H ->.
  rewrite andb_true_r. exact H.
Qed.

(** The query of an accepted text whose names read back as they are written
    is a plain query, a CREATE TABLE without a column apart: the names that
    the parser checks have passed [isIdentifier] ([Names]). *)
Lemma accepted_plainQuery (p : parser) :
  Inv p -> Shape p -> Names p -> validate p = None -> tokenNames (query_ p) ->
  (query.Type' (query_ p) = query.Create -> query.CreateFields (query_ p) <> ∅) ->
  plainQuery (query_ p).
Proof.
  intros HI (HK & _ & HVc & HVi & HVu) (IF & IA & IC & IU & _) Hv
    (Nt & Nf & Na & Nc & Nu & Ncf) HC.
  destruct (validate_facts p Hv) as (V1 & V4 & V3).
  assert (Hcs : Forall (fun c => plainCondition c = true) (query.Conditions (query_ p))).
  { assert (E : query.Type' (query_ p) = query.Create
                \/ query.Type' (query_ p) <> query.Create)
      by (destruct (query.Type' (query_ p)); (now left) || (now right)).
    destruct E as [E|E].
    - unfold kindShape in HK. rewrite E in HK. destruct HK as (-> & _). constructor.
    - pose proof (validateConditions_Forall _ (V4 E)) as Hval.
      rewrite Forall_forall in *. intros c Hc.
      destruct (Nc c Hc) as [N1 N2]. destruct (IC c Hc) as [I1 I2].
      apply plainCondition_intro; auto using plainName_intro. }
  unfold plainQuery. split; [exact Nt|]. split; [exact Hcs|].
  unfold kindShape in HK. destruct (query.Type' (query_ p)) eqn:ET.
  - contradiction.
  - destruct HK as (HU & HIn & HCF & HA & HF). repeat split; auto.
    + apply HF. intros E. rewrite E in Nt. discriminate.
    + rewrite Forall_forall in *. intros f Hf. apply fieldName_intro; auto.
    + eapply HA; eassumption.
    + apply plainName_intro; [eapply IA|eapply Na]; eassumption.
  - destruct HK as (HF & HA & HIn & HCF & HU). repeat split; auto.
    + apply plainName_intro; [eapply IU|eapply Nu]; eassumption.
    + eapply HVu; eassumption.
  - destruct HK as (Hc & HA & HU & HCF & HF & Hid).
    destruct (validate_Insert p Hv ET) as [Hn Hrows].
    assert (Hne : query.Inserts (query_ p) <> []).
    { intros E. rewrite E in Hn. discriminate. }
    repeat split; auto.
    + rewrite Forall_forall in *. intros f Hf. apply plainName_intro; auto.
    + rewrite Forall_forall in *. intros r Hr. refine (conj _ (HVi r Hr)).
      rewrite forallb_forall in Hrows. apply Nat.eqb_eq, Hrows.
      now apply list_elem_of_In.
  - destruct HK as (HF & HA & HU & HIn & HCF). repeat split; auto.
  - destruct HK as (Hc & HF & HA & HU & HIn). repeat split; auto.
    all: match goal with H : _ !! _ = Some _ |- _ => destruct (Ncf _ _ H); assumption end.
Qed.

(** C3, as amended.  For every text that [Parse] accepts without error, if
    every name in the resulting [Query] is one that the tokenizer reads back
    as it is written ([tokenName]: not empty, made of the bytes of an
    identifier, which are the letters, the digits, the underscore, the
    asterisk and the dot, with no reserved word matching where it begins)
    and a CREATE TABLE has at least one column, then parsing the text that
    [Query.String] renders from the [Query] succeeds and gives that same
    [Query] back. *)
Theorem C3_round_trip_token_names {rt : Runtime} (text : string) (q : query.Query) :
  Parse text = Some (q, None) -> tokenNames q ->
  (query.Type' q = query.Create -> query.CreateFields q <> ∅) ->
  Parse (Query_String q) = Some (q, None).
Proof.
  intros (p & Hr & -> & Hv)%Parse_accepted Hn HC.
  apply Parse_render, accepted_plainQuery; try assumption.
  - eapply reaches_Inv; [apply Inv_initial|eassumption].
  - eapply reaches_Shape; [apply Inv_initial|apply Shape_initial|eassumption].
  - eapply reaches_Names; [apply Names_initial|eassumption].
Qed.

Lemma C3_round_trip_token_names_witness :
  Parse "SELECT *, name AS n FROM users WHERE address.zip = '10001' AND id IN ('1', '3')"
  = Some (query.mkQuery query.Select "users"
            [query.mkCondition "address.zip" true query.Eq "10001" false [];
             query.mkCondition "id" true query.In "" false ["1"; "3"]]
            ∅ [] ["*"; "name"] (<["name" := "n"]> ∅) ∅,
          None)
  /\ Parse (@Query_String Std.runtime
              (query.mkQuery query.Select "users"
                 [query.mkCondition "address.zip" true query.Eq "10001" false [];
                  query.mkCondition "id" true query.In "" false ["1"; "3"]]
                 ∅ [] ["*"; "name"] (<["name" := "n"]> ∅) ∅))
     = Some (query.mkQuery query.Select "users"
               [query.mkCondition "address.zip" true query.Eq "10001" false [];
                query.mkCondition "id" true query.In "" false ["1"; "3"]]
               ∅ [] ["*"; "name"] (<["name" := "n"]> ∅) ∅,
             None).
Proof.
  assert (H : Parse "SELECT *, name AS n FROM users WHERE address.zip = '10001' AND id IN ('1', '3')"
              = Some (query.mkQuery query.Select "users"
                        [query.mkCondition "address.zip" true query.Eq "10001" false [];
                         query.mkCondition "id" true query.In "" false ["1"; "3"]]
                        ∅ [] ["*"; "name"] (<["name" := "n"]> ∅) ∅,
                      None)) by (vm_compute; reflexivity).
  split; [exact H|]. apply (C3_round_trip_token_names _ _ H).
  - unfold tokenNames. cbn.
    split; [reflexivity|]. split; [now repeat constructor|].
    split.
    { intros f a [[<- <-]|[_ H']]%lookup_insert_Some; [reflexivity|].
      rewrite lookup_empty in H'. discriminate. }
    split.
    { repeat constructor; discriminate. }
    split; intros f v H'; rewrite lookup_empty in H'; discriminate.
  - discriminate.
Defined.

(** C3 as stated fails, and each condition of the amended claim is needed.
    Names come into a query from between quotes as well, and [Query.String]
    writes them without the quotes: a table name with a byte that is not of
    an identifier ([my table]) is cut at that byte by the second [Parse],
    which fails; a table name that begins with a reserved word ([fromage])
    is read as that word, and the second [Parse] fails; a field that is the
    first word of a reserved word of two is read with what follows it
    ([delete] before FROM, [not] before IN, the column [create] before the
    type [table]), and the second [Parse] fails.
    A CREATE TABLE whose text ends after the opening parenthesis is accepted
    without a column, [Query.String] closes the parenthesis, and the second
    [Parse] fails. *)
Lemma C3_round_trip_counterexample :
  (Parse "SELECT a FROM 'my table'"
   = Some (query.mkQuery query.Select "my table" [] ∅ [] ["a"] ∅ ∅, None)
   /\ @Query_String Std.runtime (query.mkQuery query.Select "my table" [] ∅ [] ["a"] ∅ ∅)
      = "SELECT a FROM my table"
   /\ Parse "SELECT a FROM my table" = Some (query.zero, Some "expected WHERE"))
  /\ (Parse "SELECT a FROM 'fromage'"
      = Some (query.mkQuery query.Select "fromage" [] ∅ [] ["a"] ∅ ∅, None)
      /\ @Query_String Std.runtime (query.mkQuery query.Select "fromage" [] ∅ [] ["a"] ∅ ∅)
         = "SELECT a FROM fromage"
      /\ Parse "SELECT a FROM fromage" = Some (query.zero, Some "expected WHERE"))
  /\ (Parse "SELECT 'delete' FROM t"
      = Some (query.mkQuery query.Select "t" [] ∅ [] ["delete"] ∅ ∅, None)
      /\ @Query_String Std.runtime (query.mkQuery query.Select "t" [] ∅ [] ["delete"] ∅ ∅)
         = "SELECT delete FROM t"
      /\ Parse "SELECT delete FROM t"
         = Some (query.zero, Some "at SELECT: expected field to SELECT"))
  /\ (Parse "SELECT a FROM t WHERE 'not' IN ('x')"
      = Some (query.mkQuery query.Select "t"
                [query.mkCondition "not" true query.In "" false ["x"]] ∅ [] ["a"] ∅ ∅,
              None)
      /\ @Query_String Std.runtime
           (query.mkQuery query.Select "t"
              [query.mkCondition "not" true query.In "" false ["x"]] ∅ [] ["a"] ∅ ∅)
         = "SELECT a FROM t WHERE not IN ('x')"
      /\ Parse "SELECT a FROM t WHERE not IN ('x')"
         = Some (query.zero, Some "at WHERE: expected field"))
  /\ (Parse "CREATE TABLE t ('create' table)"
      = Some (query.mkQuery query.Create "t" [] ∅ [] [] ∅ (<["create" := "table"]> ∅),
              None)
      /\ @Query_String Std.runtime
           (query.mkQuery query.Create "t" [] ∅ [] [] ∅ (<["create" := "table"]> ∅))
         = "CREATE TABLE t (create table)"
      /\ Parse "CREATE TABLE t (create table)"
         = Some (query.zero, Some "syntax error, expect ')'"))
  /\ (Parse "CREATE TABLE t ("
      = Some (query.mkQuery query.Create "t" [] ∅ [] [] ∅ ∅, None)
      /\ @Query_String Std.runtime (query.mkQuery query.Create "t" [] ∅ [] [] ∅ ∅)
         = "CREATE TABLE t ()"
      /\ Parse "CREATE TABLE t ()"
         = Some (query.zero, Some "syntax error, expect filed type")).
Proof. repeat split; vm_compute; reflexivity. Qed.

(** * Further properties of the parser *)

(** ** The number of turns of the loop *)

Lemma reaches_turns (p p1 : parser) :
  reaches p p1 -> exists n, n <= i p1 - i p /\ turns n p = p1.
Proof.
  induction 1 as [p|p p2 p1 Hlt Hs Hr (n & Hn & Ht)].
  - exists 0. split; [lia|reflexivity].
  - destruct (doStep_progress p p2 Hlt Hs) as [_ Hi].
    destruct (reaches_cursor _ _ Hr) as [_ Hle].
    exists (S n). split; [lia|]. cbn [turns].
    destruct (Nat.leb_spec (len (sql p)) (i p)) as [Hge|_]; [lia|].
    now rewrite Hs.
Qed.

(** X1.  [Parse] returns on every text, after at most as many turns of the
    loop of [doParse] as the trimmed text has bytes: the loop stops in the
    state reached by then, at the end of the text or by a [return], and
    [Parse] returns what that state gives.  With an error the query
    returned is the zero [Query]. *)
Theorem Parse_within_length (text : string) :
  exists (n : nat) (p' : parser) (e : error) (q : query.Query) (perr : error),
    n <= len (TrimSpace text)
    /\ stops (turns n (initial text)) p' e
    /\ Parse text = Some (q, perr)
    /\ (q, perr) = finish p' e
    /\ (perr <> None -> q = query.zero).
Proof.
  destruct (doParse_total (S (len (sql (initial text)) - i (initial text))) (initial text))
    as (p1 & p' & e & Hr & Hs & _); [apply Inv_initial|lia|].
  destruct (reaches_turns _ _ Hr) as (n & Hn & Ht).
  destruct (reaches_initial _ _ Hr) as (_ & Hle & _).
  destruct (reaches_cursor _ _ Hr) as [Hsql _].
  exists n, p', e, (fst (finish p' e)), (snd (finish p' e)).
  rewrite Hsql in Hle. cbn [initial sql i] in Hle, Hn.
  split; [lia|].
  split; [now rewrite Ht|].
  split; [rewrite (Parse_run _ _ _ _ Hr Hs); now destruct (finish p' e)|].
  split; [now destruct (finish p' e)|].
  unfold finish. destruct e as [msg|]; [reflexivity|].
  destruct (validate p') as [msg|]; [reflexivity|]. intros H. now contradiction H.
Qed.

(** ** [ParseMany] *)

Lemma parse_returns (text : string) :
  exists q e, parse text = Some (q, e).
Proof.
  destruct (Parse_returns text) as (q & e & H). rewrite Parse_parse in H.
  destruct (parse text) as [[q' e']|]; [eauto|discriminate].
Qed.

Lemma ParseMany_from_spec (sqls : list string) (acc : list query.Query) :
  exists (qs : list query.Query) (e : error),
    ParseMany_from acc sqls = Some ((acc ++ qs)%list, e)
    /\ (forall k q, qs !! k = Some q ->
          exists text, sqls !! k = Some text /\ Parse text = Some (q, None))
    /\ match e with
       | None => length qs = length sqls
       | Some msg =>
           exists text, sqls !! length qs = Some text
                        /\ Parse text = Some (query.zero, Some msg)
       end.
Proof.
  revert acc. induction sqls as [|text sqls IH]; intros acc.
  - exists [], None. cbn [ParseMany_from]. rewrite app_nil_r.
    split; [reflexivity|]. split; [|reflexivity]. intros k q H. discriminate.
  - cbn [ParseMany_from]. destruct (parse_returns text) as (q & e & Hp).
    pose proof (Parse_parse text) as HP. rewrite Hp in *.
    destruct e as [msg|].
    + exists [], (Some msg). rewrite app_nil_r. split; [reflexivity|].
      split; [intros k q' H; discriminate|]. exists text. split; [reflexivity|exact HP].
    + destruct (IH (acc ++ [q])%list) as (qs & e & Hm & Hq & He).
      exists (q :: qs), e. rewrite Hm, <- app_assoc. split; [reflexivity|]. split.
      * intros [|k] q' H.
        -- injection H as <-. exists text. split; [reflexivity|exact HP].
        -- apply (Hq k q' H).
      * destruct e as [msg|]; [exact He|]. cbn [length]. now rewrite He.
Qed.

(** X2.  [ParseMany] returns on every list of texts.  It returns the
    queries of the texts that come before the first one [Parse] rejects,
    in their order, with the error of that one; with no error it returns
    one query for each text. *)
Theorem ParseMany_prefix (sqls : list string) :
  exists (qs : list query.Query) (e : error),
    ParseMany sqls = Some (qs, e)
    /\ (forall k q, qs !! k = Some q ->
          exists text, sqls !! k = Some text /\ Parse text = Some (q, None))
    /\ match e with
       | None => length qs = length sqls
       | Some msg =>
           exists text, sqls !! length qs = Some text
                        /\ Parse text = Some (query.zero, Some msg)
       end.
Proof.
  destruct (ParseMany_from_spec sqls []) as (qs & e & Hm & Hq & He).
  exists qs, e. split; [exact Hm|]. split; [exact Hq|exact He].
Qed.

(** ** The first token *)

(** X3.  A text that is empty once trimmed is rejected: no turn of the
    loop runs, and [validate] reports the missing query type. *)
Theorem Parse_empty (text : string) :
  TrimSpace text = "" ->
  Parse text = Some (query.zero, Some "query type cannot be empty").
Proof.
  intros He.
  assert (Hs : stops (initial text) (initial text) (err (initial text))).
  { apply stops_end. cbn [initial sql i]. rewrite He. cbn. lia. }
  rewrite (Parse_run text _ _ _ (reaches_here _) Hs). reflexivity.
Qed.

Lemma Parse_empty_witness :
  TrimSpace "  " = ""
  /\ Parse "  " = Some (query.zero, Some "query type cannot be empty").
Proof. split; [reflexivity|]. apply Parse_empty. reflexivity. Defined.

(** X4.  A text that is not empty once trimmed and whose first token is,
    in upper case, none of the five statement keywords is rejected with
    the error "invalid query type". *)
Theorem Parse_invalid_type (text : string) :
  TrimSpace text <> "" ->
  ~ In (ToUpper (peek (initial text))) typeKeywords ->
  Parse text = Some (query.zero, Some "invalid query type").
Proof.
  intros Hne Hk.
  assert (Hlt : i (initial text) < len (sql (initial text))).
  { cbn [initial sql i]. destruct (TrimSpace text); [congruence|cbn; lia]. }
  assert (Hs : stops (initial text) (initial text) (Some "invalid query type")).
  { apply stops_return; [exact Hlt|].
    unfold doStep. cbn [initial step_]. fold (initial text). unfold typeStep.
    repeat match goal with
    | |- context [String.eqb ?a ?b] =>
        destruct (String.eqb_spec a b) as [E|_];
          [exfalso; apply Hk; rewrite E; cbn; tauto|]
    end.
    reflexivity. }
  rewrite (Parse_run text _ _ _ (reaches_here _) Hs). reflexivity.
Qed.

Lemma Parse_invalid_type_witness :
  Parse "DROP TABLE t" = Some (query.zero, Some "invalid query type").
Proof.
  apply Parse_invalid_type.
  - vm_compute. discriminate.
  - vm_compute. intuition discriminate.
Defined.

(** ** The kind of an accepted query *)

(** Only the first turn sets the kind, from its token; no turn leads back
    to the first state. *)
Lemma doStep_Type (p p' : parser) :
  doStep p = Next p' ->
  step_ p' <> stepType
  /\ match step_ p with
     | stepType => ToUpper (peek p) = typeKeyword (query.Type' (query_ p'))
     | _ => query.Type' (query_ p') = query.Type' (query_ p)
     end.
Proof.
  unfold doStep.
  destruct (step_ p) eqn:Es; unfold_steps;
    repeat case_match; try discriminate; simplify_eq; intros [= <-];
    inv_cbn; rewrite ?Es; (split; [discriminate|]); try reflexivity.
  all: match goal with H : String.eqb _ _ = true |- _ => now apply String.eqb_eq in H end.
Qed.

Lemma reaches_Type (p p' : parser) :
  reaches p p' -> step_ p <> stepType ->
  step_ p' <> stepType /\ query.Type' (query_ p') = query.Type' (query_ p).
Proof.
  induction 1 as [p|p p1 p' Hlt Hs _ IH]; intros Hne; [split; [assumption|reflexivity]|].
  destruct (doStep_Type p p1 Hs) as [H1 H2].
  destruct (IH H1) as [H3 H4]. split; [assumption|].
  rewrite H4. destruct (step_ p); [now contradiction Hne|assumption..].
Qed.

(** X5.  The kind of an accepted query is the one its first token names:
    the first token of the trimmed text is, in upper case, the keyword of
    the kind, which is never [UnknownType]. *)
Theorem Parse_kind_first_token (text : string) (q : query.Query) :
  Parse text = Some (q, None) ->
  query.Type' q <> query.UnknownType
  /\ ToUpper (peek (initial text)) = typeKeyword (query.Type' q).
Proof.
  intros (p & Hr & -> & Hv)%Parse_accepted.
  destruct (validate_facts p Hv) as (Hk & _). split; [exact Hk|].
  inversion Hr as [p0 E|p0 p1 p0' Hlt Hs Hr1]; subst.
  - contradiction Hk. reflexivity.
  - destruct (doStep_Type _ _ Hs) as [H1 H2].
    destruct (reaches_Type _ _ Hr1 H1) as [_ ->]. exact H2.
Qed.

Lemma Parse_kind_first_token_witness :
  Parse "delete from t WHERE a = '1' AND b IN ('x', 'y')" = Some (sampleDelete, None)
  /\ query.Type' sampleDelete <> query.UnknownType
  /\ ToUpper (peek (initial "delete from t WHERE a = '1' AND b IN ('x', 'y')"))
     = typeKeyword (query.Type' sampleDelete).
Proof.
  assert (H : Parse "delete from t WHERE a = '1' AND b IN ('x', 'y')"
              = Some (sampleDelete, None)) by (vm_compute; reflexivity).
  split; [exact H|]. exact (Parse_kind_first_token _ _ H).
Defined.

(** ** The conditions of an accepted query *)

(** What [validate] and the shape of a condition give together. *)
Lemma condition_complete (c : query.Condition) :
  validateCondition c = None -> condShape c ->
  query.Operand1IsField c = true
  /\ query.Operand1 c <> ""
  /\ query.Operator_ c <> query.UnknownOperator
  /\ if isIn (query.Operator_ c)
     then query.InValues c <> []
          /\ query.Operand2 c = "" /\ query.Operand2IsField c = false
     else query.InValues c = []
          /\ (query.Operand2IsField c = true ->
              query.Operand2 c <> "" /\ isLike (query.Operator_ c) = false).
Proof.
  unfold validateCondition, condShape. intros Hv (S1 & _ & S3 & S4).
  rewrite S1, andb_true_r in Hv.
  destruct (query.Operator_eqb (query.Operator_ c) query.UnknownOperator) eqn:Eo;
    [discriminate|].
  destruct (String.eqb_spec (query.Operand1 c) "") as [|N1]; [discriminate|].
  split; [exact S1|]. split; [exact N1|].
  split; [intros E; rewrite E in Eo; discriminate|].
  destruct (isIn (query.Operator_ c)).
  - split; [|exact S3]. intros E. rewrite E in Hv. discriminate.
  - split; [exact S3|]. intros E2. rewrite E2 in Hv, S4. rewrite andb_true_r in Hv.
    split; [|exact S4]. intros E. rewrite E in Hv. discriminate.
Qed.

(** X6.  Every condition of an accepted query is complete: its left
    operand is a field with a name, its operator is known; under IN and NOT
    IN it has at least one value and no right operand, under the other
    operators it has no list of values, and a right operand that is a
    field has a name and does not stand under LIKE or NOT LIKE.  An UPDATE
    and a DELETE have at least one condition, an INSERT and a CREATE TABLE
    have none. *)
Theorem Parse_conditions_complete (text : string) (q : query.Query) :
  Parse text = Some (q, None) ->
  Forall (fun c =>
            query.Operand1IsField c = true
            /\ query.Operand1 c <> ""
            /\ query.Operator_ c <> query.UnknownOperator
            /\ if isIn (query.Operator_ c)
               then query.InValues c <> []
                    /\ query.Operand2 c = "" /\ query.Operand2IsField c = false
               else query.InValues c = []
                    /\ (query.Operand2IsField c = true ->
                        query.Operand2 c <> "" /\ isLike (query.Operator_ c) = false))
    (query.Conditions q)
  /\ (query.Type' q = query.Update \/ query.Type' q = query.Delete ->
      query.Conditions q <> [])
  /\ (query.Type' q = query.Insert \/ query.Type' q = query.Create ->
      query.Conditions q = []).
Proof.
  intros (p & Hr & -> & Hv)%Parse_accepted.
  assert (HI : Inv p) by (eapply reaches_Inv; [apply Inv_initial|eassumption]).
  destruct (reaches_Shape _ _ (Inv_initial text) (Shape_initial text) Hr)
    as (HK & _ & HC & _).
  destruct (validate_facts p Hv) as (V1 & V2 & V3).
  assert (Hnone : query.Type' (query_ p) = query.Insert
                  \/ query.Type' (query_ p) = query.Create ->
                  query.Conditions (query_ p) = []).
  { unfold kindShape in HK. intros [E|E]; rewrite E in HK; tauto. }
  split; [|split; [exact V3|exact Hnone]].
  destruct (query.Type' (query_ p)) eqn:ET; try (rewrite Hnone by auto; constructor).
  all: try contradiction.
  all: pose proof (validateConditions_Forall _ (V2 ltac:(discriminate))) as Hval.
  all: rewrite Forall_forall in *; intros c Hc.
  all: apply condition_complete; auto.
Qed.

Lemma Parse_conditions_complete_witness :
  Parse "delete from t WHERE a = '1' AND b IN ('x', 'y')" = Some (sampleDelete, None)
  /\ query.Conditions sampleDelete <> [].
Proof.
  assert (H : Parse "delete from t WHERE a = '1' AND b IN ('x', 'y')"
              = Some (sampleDelete, None)) by (vm_compute; reflexivity).
  split; [exact H|].
  destruct (Parse_conditions_complete _ _ H) as (_ & H2 & _).
  apply H2. right. reflexivity.
Defined.

(** ** The parts of an accepted query *)

(** X7.  An accepted query holds the parts of its kind and no others.  A
    SELECT has a table name and at least one field, and every alias is
    that of one of its fields; an INSERT has a table name, at least one
    field, all accepted by [isIdentifier], and at least one row; an UPDATE
    has a table name and at least one assignment; a DELETE has a table
    name; a CREATE TABLE has no fields but its columns.  The parts of the
    other kinds are empty. *)
Theorem Parse_parts_by_kind (text : string) (q : query.Query) :
  Parse text = Some (q, None) ->
  match query.Type' q with
  | query.Select =>
      query.TableName q <> "" /\ query.Fields q <> []
      /\ (forall f a, query.Aliases q !! f = Some a -> f ∈ query.Fields q)
      /\ query.Updates q = ∅ /\ query.Inserts q = [] /\ query.CreateFields q = ∅
  | query.Insert =>
      query.TableName q <> "" /\ query.Fields q <> []
      /\ Forall (fun f => isIdentifier f = true) (query.Fields q)
      /\ query.Inserts q <> []
      /\ query.Aliases q = ∅ /\ query.Updates q = ∅ /\ query.CreateFields q = ∅
  | query.Update =>
      query.TableName q <> "" /\ query.Updates q <> ∅
      /\ query.Fields q = [] /\ query.Aliases q = ∅
      /\ query.Inserts q = [] /\ query.CreateFields q = ∅
  | query.Delete =>
      query.TableName q <> ""
      /\ query.Fields q = [] /\ query.Aliases q = ∅ /\ query.Updates q = ∅
      /\ query.Inserts q = [] /\ query.CreateFields q = ∅
  | query.Create =>
      query.Fields q = [] /\ query.Aliases q = ∅ /\ query.Updates q = ∅
      /\ query.Inserts q = []
  | query.UnknownType => False
  end.
Proof.
  intros HP. pose proof (Parse_tableName text q HP) as Ht. revert HP Ht.
  intros (p & Hr & -> & Hv)%Parse_accepted Ht.
  destruct (reaches_Shape _ _ (Inv_initial text) (Shape_initial text) Hr) as (HK & _ & _).
  destruct (validate_facts p Hv) as (V1 & _ & V3).
  pose proof (validate_Insert p Hv) as VI.
  unfold kindShape in HK.
  destruct (query.Type' (query_ p)) eqn:ET; [contradiction|..].
  - destruct HK as (HU & HIn & HCF & HA & HF).
    assert (Hn : query.TableName (query_ p) <> "") by (apply Ht; discriminate).
    repeat split; auto.
  - destruct HK as (HF & HA & HIn & HCF & HU).
    assert (Hn : query.TableName (query_ p) <> "") by (apply Ht; discriminate).
    repeat split; auto.
  - destruct HK as (Hc & HA & HU & HCF & HF & Hid). destruct (VI eq_refl) as [Hn _].
    assert (Hne : query.Inserts (query_ p) <> []).
    { intros E. rewrite E in Hn. discriminate. }
    assert (Hn' : query.TableName (query_ p) <> "") by (apply Ht; discriminate).
    repeat split; auto.
  - destruct HK as (HF & HA & HU & HIn & HCF).
    assert (Hn : query.TableName (query_ p) <> "") by (apply Ht; discriminate).
    repeat split; auto.
  - destruct HK as (Hc & HF & HA & HU & HIn). repeat split; auto.
Qed.

Lemma Parse_parts_by_kind_witness :
  Parse "SELECT a, c AS d FROM t WHERE a > b" = Some (sampleSelect, None)
  /\ query.TableName sampleSelect <> "" /\ query.Fields sampleSelect <> []
  /\ (forall f a, query.Aliases sampleSelect !! f = Some a -> f ∈ query.Fields sampleSelect)
  /\ query.Updates sampleSelect = ∅ /\ query.Inserts sampleSelect = []
  /\ query.CreateFields sampleSelect = ∅.
Proof.
  assert (H : Parse "SELECT a, c AS d FROM t WHERE a > b" = Some (sampleSelect, None))
    by (vm_compute; reflexivity).
  split; [exact H|]. exact (Parse_parts_by_kind _ _ H).
Defined.

(** ** The names of an accepted query *)

(** X8.  The names of an accepted query have passed the check of the
    parser: every field is accepted by [isIdentifier] or is the asterisk,
    and every alias, every field assigned by an UPDATE, the left operand
    of every condition and its right operand when that is a field are
    accepted by [isIdentifier]. *)
Theorem Parse_names_checked (text : string) (q : query.Query) :
  Parse text = Some (q, None) ->
  Forall (fun f => isIdentifierOrAsterisk f = true) (query.Fields q)
  /\ (forall f a, query.Aliases q !! f = Some a -> isIdentifier a = true)
  /\ (forall f v, query.Updates q !! f = Some v -> isIdentifier f = true)
  /\ Forall (fun c => isIdentifier (query.Operand1 c) = true
                      /\ (query.Operand2IsField c = true ->
                          isIdentifier (query.Operand2 c) = true))
       (query.Conditions q).
Proof.
  intros (p & Hr & -> & Hv)%Parse_accepted.
  destruct (reaches_Names _ _ (Names_initial text) Hr) as (HF & HA & HC & HU & _).
  split; [exact HF|]. split; [exact HA|]. split; [exact HU|]. exact HC.
Qed.

Lemma Parse_names_checked_witness :
  Parse "SELECT a, c AS d FROM t WHERE a > b" = Some (sampleSelect, None)
  /\ Forall (fun f => isIdentifierOrAsterisk f = true) (query.Fields sampleSelect)
  /\ (forall f a, query.Aliases sampleSelect !! f = Some a -> isIdentifier a = true)
  /\ (forall f v, query.Updates sampleSelect !! f = Some v -> isIdentifier f = true)
  /\ Forall (fun c => isIdentifier (query.Operand1 c) = true
                      /\ (query.Operand2IsField c = true ->
                          isIdentifier (query.Operand2 c) = true))
       (query.Conditions sampleSelect).
Proof.
  assert (H : Parse "SELECT a, c AS d FROM t WHERE a > b" = Some (sampleSelect, None))
    by (vm_compute; reflexivity).
  split; [exact H|]. exact (Parse_names_checked _ _ H).
Defined.

(** ** The token between quotes *)

Lemma closingQuote_spec (body : string) (prev : ascii) (k : nat) :
  closingQuote body prev = Some k ->
  String.get k body = Some quote
  /\ byteBefore body prev k <> Some backslash
  /\ forall j, j < k -> String.get j body = Some quote ->
               byteBefore body prev j = Some backslash.
Proof.
  revert prev k. induction body as [|c body IH]; intros prev k; [discriminate|].
  cbn [closingQuote].
  destruct (Ascii.eqb c quote && negb (Ascii.eqb prev backslash)) eqn:E.
  - intros [= <-]. apply andb_prop in E as [->%Ascii.eqb_eq E2].
    split; [reflexivity|]. split; [|intros j Hj; lia].
    cbn [byteBefore]. intros [= ->]. now rewrite Ascii.eqb_refl in E2.
  - destruct (closingQuote body c) as [k'|] eqn:Ek; [|discriminate].
    intros [= <-]. destruct (IH c k' Ek) as (H1 & H2 & H3).
    split; [exact H1|]. split.
    + destruct k'; exact H2.
    + intros [|j] Hj Hq.
      * cbn [String.get] in Hq. injection Hq as ->. cbn [byteBefore].
        rewrite Ascii.eqb_refl in E. cbn [andb] in E.
        apply negb_false_iff, Ascii.eqb_eq in E. now subst.
      * cbn [String.get] in Hq. specialize (H3 j ltac:(lia) Hq).
        destruct j; exact H3.
Qed.

Lemma get_prefix (k j : nat) (s : string) :
  j < k -> String.get j (prefix k s) = String.get j s.
Proof.
  revert k j. induction s as [|c s IH]; intros [|k] j Hj; try lia.
  - reflexivity.
  - unfold prefix. cbn [String.substring]. destruct j; [reflexivity|].
    cbn [String.get]. apply IH. lia.
Qed.

Lemma get_app_l (a b : string) (j : nat) :
  j < len a -> String.get j (a ++ b) = String.get j a.
Proof.
  revert j. induction a as [|c a IH]; intros j Hj; [cbn in Hj; lia|].
  rewrite append_cons. destruct j; [reflexivity|]. cbn [String.get].
  apply IH. cbn [len String.length] in Hj. unfold len. lia.
Qed.

Lemma closingQuote_split (body : string) (prev : ascii) (k : nat) :
  closingQuote body prev = Some k ->
  body = prefix k body ++ "'" ++ from body (S k).
Proof.
  revert prev k. induction body as [|c body IH]; intros prev k; [discriminate|].
  cbn [closingQuote].
  destruct (Ascii.eqb c quote && negb (Ascii.eqb prev backslash)) eqn:E.
  - intros [= <-]. apply andb_prop in E as [->%Ascii.eqb_eq _].
    unfold prefix. rewrite substring_zero, from_S, from_0. reflexivity.
  - destruct (closingQuote body c) as [k'|] eqn:Ek; [|discriminate].
    intros [= <-]. rewrite from_S.
    change (prefix (S k') (String c body)) with (String c (prefix k' body)).
    rewrite append_cons. f_equal. exact (IH c k' Ek).
Qed.

(** X9.  When [peekQuotedStringWithLength] returns a length that is not
    zero, a quote stands at the cursor, the token is the text between it
    and the first later quote that no backslash precedes, and the length
    is that of the token and the two quotes: the text left begins with
    the token between quotes.  So the token holds a quote only behind a
    backslash, which it keeps, and does not end with a backslash. *)
Theorem peekQuoted_between_quotes (p : parser) (v : string) (n : nat) :
  peekQuotedStringWithLength p = Some (v, n) -> n <> 0 ->
  n = len v + 2
  /\ (exists tail, rest p = quoted v ++ tail)
  /\ (forall j, String.get j v = Some quote ->
                exists j', j = S j' /\ String.get j' v = Some backslash)
  /\ (forall j, len v = S j -> String.get j v <> Some backslash).
Proof.
  intros Hq Hn.
  assert (Hlt : i p < len (sql p)).
  { unfold peekQuotedStringWithLength in Hq.
    destruct (Nat.ltb_spec (len (sql p)) (i p)) as [_|Hle];
      [injection Hq as _ <-; now contradiction Hn|].
    destruct (String.get (i p) (sql p)) eqn:Eg; [|discriminate].
    destruct (Nat.lt_ge_cases (i p) (len (sql p))) as [|Hge]; [assumption|].
    rewrite (get_ge _ _ Hge) in Eg. discriminate. }
  rewrite (peekQuoted_lex p Hlt) in Hq. injection Hq as Hq.
  unfold lexQuoted in Hq. destruct (rest p) as [|c body] eqn:Er.
  { injection Hq as _ <-. now contradiction Hn. }
  destruct (Ascii.eqb_spec c quote) as [->|_];
    [|injection Hq as _ <-; now contradiction Hn].
  destruct (closingQuote body quote) as [k|] eqn:Ek;
    [|injection Hq as _ <-; now contradiction Hn].
  injection Hq as <- <-.
  pose proof (closingQuote_lt _ _ _ Ek) as Hk.
  destruct (closingQuote_spec _ _ _ Ek) as (H1 & H2 & H3).
  assert (Hlen : len (prefix k body) = k) by (rewrite len_prefix; lia).
  split; [lia|]. split; [|split].
  - exists (from body (S k)). unfold quoted.
    rewrite (closingQuote_split _ _ _ Ek) at 1.
    change ("'" ++ prefix k body ++ "'") with (String quote (prefix k body ++ "'")).
    rewrite (append_cons quote (prefix k body ++ "'")), append_assoc. reflexivity.
  - intros j Hj.
    assert (Hjk : j < k).
    { destruct (Nat.lt_ge_cases j k) as [|Hge]; [assumption|].
      rewrite get_ge in Hj by lia. discriminate. }
    rewrite get_prefix in Hj by assumption. specialize (H3 j Hjk Hj).
    destruct j as [|j']; [cbn in H3; discriminate|].
    exists j'. split; [reflexivity|]. rewrite get_prefix by lia. exact H3.
  - intros j Hj. rewrite Hlen in Hj. subst k. rewrite get_prefix by lia. exact H2.
Qed.

Lemma peekQuoted_between_quotes_witness :
  peekQuotedStringWithLength sampleQuoted = Some ("it\'s", 7)
  /\ 7 = len "it\'s" + 2
  /\ (exists tail, rest sampleQuoted = quoted "it\'s" ++ tail)
  /\ (forall j, String.get j "it\'s" = Some quote ->
                exists j', j = S j' /\ String.get j' "it\'s" = Some backslash)
  /\ (forall j, len "it\'s" = S j -> String.get j "it\'s" <> Some backslash).
Proof.
  assert (H : peekQuotedStringWithLength sampleQuoted = Some ("it\'s", 7))
    by (vm_compute; reflexivity).
  split; [exact H|]. apply (peekQuoted_between_quotes sampleQuoted "it\'s" 7 H). lia.
Defined.

(** ** The values of an accepted query *)

Lemma literal_escaped (v : string) :
  literal v = true ->
  (forall j, String.get j v = Some quote ->
             exists j', j = S j' /\ String.get j' v = Some backslash)
  /\ (forall j, len v = S j -> String.get j v <> Some backslash).
Proof.
  intros Hl%literal_closingQuote.
  destruct (closingQuote_spec _ _ _ Hl) as (_ & H2 & H3). split.
  - intros j Hj.
    assert (Hjk : j < len v).
    { destruct (Nat.lt_ge_cases j (len v)) as [|Hge]; [assumption|].
      rewrite get_ge in Hj by lia. discriminate. }
    specialize (H3 j Hjk). rewrite get_app_l in H3 by assumption. specialize (H3 Hj).
    destruct j as [|j']; [cbn in H3; discriminate|].
    exists j'. split; [reflexivity|]. cbn [byteBefore] in H3.
    rewrite get_app_l in H3 by lia. exact H3.
  - intros j Hj. rewrite Hj in H2. cbn [byteBefore] in H2.
    rewrite get_app_l in H2 by lia. exact H2.
Qed.

(** X10.  The values of an accepted query are the texts the parser found
    between quotes, as they stood: a value holds a quote only behind a
    backslash, which is kept with it, and does not end with a backslash. *)
Theorem Parse_values_escaped (text : string) (q : query.Query) (v : string) :
  Parse text = Some (q, None) -> valueOf q v ->
  (forall j, String.get j v = Some quote ->
             exists j', j = S j' /\ String.get j' v = Some backslash)
  /\ (forall j, len v = S j -> String.get j v <> Some backslash).
Proof.
  intros (p & Hr & -> & Hv)%Parse_accepted Hval. apply literal_escaped.
  destruct (reaches_Shape _ _ (Inv_initial text) (Shape_initial text) Hr)
    as (_ & _ & HC & HI & HU).
  destruct Hval as [(r & Hr1 & Hr2)|[(f & Hf)|(c & Hc & Hcv)]].
  - rewrite Forall_forall in HI. specialize (HI r Hr1).
    rewrite Forall_forall in HI. exact (HI v Hr2).
  - exact (HU f v Hf).
  - rewrite Forall_forall in HC. destruct (HC c Hc) as (_ & S2 & _ & S4).
    destruct Hcv as [Hin|[E <-]].
    + rewrite Forall_forall in S2. exact (S2 v Hin).
    + rewrite E in S4. apply S4.
Qed.

Lemma Parse_values_escaped_witness :
  Parse "UPDATE t SET a = 'it\'s' WHERE b = '1'" = Some (sampleUpdate, None)
  /\ valueOf sampleUpdate "it\'s"
  /\ (forall j, String.get j "it\'s" = Some quote ->
                exists j', j = S j' /\ String.get j' "it\'s" = Some backslash)
  /\ (forall j, len "it\'s" = S j -> String.get j "it\'s" <> Some backslash).
Proof.
  assert (H : Parse "UPDATE t SET a = 'it\'s' WHERE b = '1'" = Some (sampleUpdate, None))
    by (vm_compute; reflexivity).
  assert (Hv : valueOf sampleUpdate "it\'s").
  { right. left. exists "a". vm_compute. reflexivity. }
  split; [exact H|]. split; [exact Hv|]. exact (Parse_values_escaped _ _ _ H Hv).
Defined.

(** ** Operators as tokens and as text *)

(** X11.  The parser reads as an operator exactly the texts that
    [Operator.String] writes for the ten operators: a token is read as the
    operator [o] if and only if [o] is not [UnknownOperator] and the token
    is the text of [o]. *)
Theorem operatorOf_Operator_String (token : string) (o : query.Operator) :
  operatorOf token = Some o
  <-> o <> query.UnknownOperator /\ query.Operator_String o = token.
Proof.
  split.
  - unfold operatorOf.
    repeat match goal with
    | |- context [String.eqb token ?w] =>
        destruct (String.eqb_spec token w) as [->|_];
          [intros [= <-]; split; [discriminate|reflexivity]|]
    end.
    discriminate.
  - intros [Ho <-]. destruct o; [now contradiction Ho|reflexivity..].
Qed.

(** ** Rendering loses nothing *)

(** X12.  [Query.String] tells plain queries apart: two plain queries
    with the same text are the same query, whatever the order in which
    [range] visits their maps. *)
Theorem Query_String_injective {rt : Runtime} (q1 q2 : query.Query) :
  plainQuery q1 -> plainQuery q2 -> Query_String q1 = Query_String q2 -> q1 = q2.
Proof.
  intros H1 H2 E.
  pose proof (Parse_render q1 H1) as P1. pose proof (Parse_render q2 H2) as P2.
  rewrite E, P2 in P1. now injection P1.
Qed.

Lemma plainQuery_sampleDelete (t : string) :
  tokenName t = true -> plainQuery (query.set_TableName sampleDelete t).
Proof.
  intros Ht. unfold plainQuery. cbn. split; [exact Ht|].
  split; [now repeat constructor|]. repeat split; discriminate.
Qed.

Lemma Query_String_injective_witness :
  plainQuery (query.set_TableName sampleDelete "t")
  /\ plainQuery (query.set_TableName sampleDelete "u")
  /\ @Query_String Std.runtime (query.set_TableName sampleDelete "t")
     <> @Query_String Std.runtime (query.set_TableName sampleDelete "u").
Proof.
  assert (H1 : plainQuery (query.set_TableName sampleDelete "t"))
    by (apply plainQuery_sampleDelete; reflexivity).
  assert (H2 : plainQuery (query.set_TableName sampleDelete "u"))
    by (apply plainQuery_sampleDelete; reflexivity).
  split; [exact H1|]. split; [exact H2|]. intros E.
  apply (@Query_String_injective Std.runtime _ _ H1 H2) in E. discriminate.
Defined.

(** * Further properties of the evaluators *)

Section EvaluatorExtras.

Context {rt : Runtime}.

(** ** The order of the conditions *)

Lemma forallb_Permutation {A : Type} (f : A -> bool) (l l' : list A) :
  l ≡ₚ l' -> forallb f l = forallb f l'.
Proof.
  induction 1 as [|x l l' _ IH|x y l|l l' l'' _ IH1 _ IH2]; cbn [forallb].
  - reflexivity.
  - now rewrite IH.
  - now destruct (f x), (f y).
  - now rewrite IH1.
Qed.

(** X13.  The conjunction of the conditions does not depend on their
    order, for either evaluator, although both stop at the first condition
    that fails; and the conditions of two lists hold together exactly when
    those of each list hold. *)
Theorem conditions_any_order (r : row) (cs cs' : list query.Condition) :
  cs ≡ₚ cs' ->
  checkConditions r cs = checkConditions r cs'
  /\ evaluateConditionsRecursive r cs 0 = evaluateConditionsRecursive r cs' 0
  /\ (forall more,
        checkConditions r (cs ++ more)%list
        = checkConditions r cs' && checkConditions r more
        /\ evaluateConditionsRecursive r (cs ++ more)%list 0
           = evaluateConditionsRecursive r cs' 0
             && evaluateConditionsRecursive r more 0).
Proof.
  intros HP. rewrite !checkConditions_forallb, !evaluateConditionsRecursive_forallb.
  split; [now apply forallb_Permutation|]. split; [now apply forallb_Permutation|].
  intros more. rewrite !checkConditions_forallb, !evaluateConditionsRecursive_forallb.
  rewrite !forallb_app.
  now rewrite (forallb_Permutation (checkCondition r) cs cs' HP),
    (forallb_Permutation (evaluateConditionRecursive r) cs cs' HP).
Qed.

(** ** IN and NOT IN *)

Lemma existsb_eqb_elem_of (x : string) (l : list string) :
  existsb (fun y => String.eqb x y) l = true <-> x ∈ l.
Proof.
  rewrite existsb_exists. split.
  - intros (y & Hy & ->%String.eqb_eq). now apply list_elem_of_In.
  - intros H. exists x. split; [now apply list_elem_of_In|apply String.eqb_refl].
Qed.

(** X14.  On a record in which the left operand resolves, both evaluators
    decide an IN condition by whether the text of the value ([%v]) is one
    of the values of the list, byte for byte, and a NOT IN condition by
    whether it is none of them; the right operand is not looked at. *)
Theorem in_is_membership (r : row) (c : query.Condition) (v : value) :
  resolved r c = Some v ->
  (query.Operator_ c = query.In ->
   (checkCondition r c = true <-> Sprint v ∈ query.InValues c)
   /\ (evaluateConditionRecursive r c = true <-> Sprint v ∈ query.InValues c))
  /\ (query.Operator_ c = query.NotIn ->
      (checkCondition r c = true <-> Sprint v ∉ query.InValues c)
      /\ (evaluateConditionRecursive r c = true <-> Sprint v ∉ query.InValues c)).
Proof.
  intros Hv. unfold checkCondition, evaluateConditionRecursive, evaluateOperatorRecursive.
  rewrite checkCondition_resolved, evaluateConditionRecursive_resolved, Hv.
  rewrite evaluateInRecursive_existsb.
  split; intros ->.
  - split; apply existsb_eqb_elem_of.
  - rewrite negb_true_iff, <- not_true_iff_false, existsb_eqb_elem_of. tauto.
Qed.

(** ** Equality *)


(** ** Nested records *)

Lemma Split_nonempty (s : string) (sep : ascii) : Split s sep <> [].
Proof.
  destruct s as [|c s]; [discriminate|]. cbn [Split].
  destruct (Ascii.eqb c sep); [discriminate|]. now destruct (Split s sep).
Qed.

Lemma Split_app (k path : string) (sep : ascii) :
  forallb (fun c => negb (Ascii.eqb c sep)) (list_ascii_of_string k) = true ->
  Split (k ++ String sep path) sep = k :: Split path sep.
Proof.
  induction k as [|c k IH]; intros Hk.
  - change ("" ++ String sep path) with (String sep path). cbn [Split].
    now rewrite Ascii.eqb_refl.
  - cbn [list_ascii_of_string forallb] in Hk. apply andb_prop in Hk as [Hc Hk].
    rewrite append_cons. cbn [Split]. apply negb_true_iff in Hc. rewrite Hc.
    now rewrite (IH Hk).
Qed.

(** X16.  A condition on the path [k.path] over a record is the
    condition on [path] over the record nested under the key [k], for both
    evaluators, when [k] holds no dot: with another value, or none, under
    [k] the condition is false. *)
Theorem nested_condition (r : row) (k path : string) (c : query.Condition) :
  forallb (fun b => negb (Ascii.eqb b ".")) (list_ascii_of_string k) = true ->
  query.Operand1 c = k ++ "." ++ path ->
  let c' := query.mkCondition path (query.Operand1IsField c) (query.Operator_ c)
              (query.Operand2 c) (query.Operand2IsField c) (query.InValues c) in
  match r !! k with
  | Some (VMap nested) =>
      checkCondition r c = checkCondition nested c'
      /\ evaluateConditionRecursive r c = evaluateConditionRecursive nested c'
  | _ => checkCondition r c = false /\ evaluateConditionRecursive r c = false
  end.
Proof.
  intros Hk Hc c'.
  assert (Hres : resolved r c
                 = match r !! k with
                   | Some (VMap nested) => resolved nested c'
                   | _ => None
                   end).
  { unfold resolved. rewrite Hc. change ("." ++ path) with (String "." path).
    rewrite (Split_app k path "." Hk). cbn [resolvePath c' query.Operand1].
    pose proof (Split_nonempty path ".") as Hne.
    destruct (Split path ".") as [|part parts]; [contradiction|reflexivity]. }
  destruct (r !! k) as [[]|]; unfold checkCondition, evaluateConditionRecursive;
    rewrite !checkCondition_resolved, !evaluateConditionRecursive_resolved, Hres;
    split; reflexivity.
Qed.

(** ** The filters as maps *)

Lemma filterRows_filter (check : row -> bool) (data : gmap string row) :
  filterRows check (Range data) = filter (fun kr => check (snd kr) = true) data.
Proof.
  apply map_eq. intros k. apply option_eq. intros r.
  rewrite filterRows_spec, map_lookup_filter_Some. reflexivity.
Qed.

Lemma filterRows_ext (check check' : row -> bool) (data : gmap string row) :
  (forall k r, data !! k = Some r -> check r = check' r) ->
  filterRows check (Range data) = filterRows check' (Range data).
Proof.
  intros H. apply map_eq. intros k. apply option_eq. intros r.
  rewrite !filterRows_spec. split; intros [Hd Hc]; (split; [exact Hd|]).
  - now rewrite <- (H k r Hd).
  - now rewrite (H k r Hd).
Qed.

(** X17.  [Filter] and [FilterRecursive] return the same: the same error,
    or the same records, when every condition of the query is one on which
    the two evaluators agree ([agreeOn]) for every record of the data. *)
Theorem Filter_FilterRecursive_agree (text : string) (data : gmap string row) :
  (forall q k r, Parse text = Some (q, None) -> data !! k = Some r ->
                 Forall (agreeOn r) (query.Conditions q)) ->
  Filter text data = FilterRecursive text data.
Proof.
  intros H. unfold Filter, FilterRecursive.
  destruct (Parse text) as [[q [e|]]|] eqn:EP; try reflexivity.
  destruct (negb (query.Type_eqb (query.Type' q) query.Select)); [reflexivity|].
  f_equal. f_equal. apply filterRows_ext. intros k r Hd.
  rewrite checkConditions_forallb, evaluateConditionsRecursive_forallb.
  specialize (H q k r eq_refl Hd).
  induction H as [|c l Hc _ IH]; [reflexivity|].
  cbn [forallb]. now rewrite IH, (agreeOn_same r c Hc).
Qed.

(** X18.  Filtering is idempotent and only removes records: the result of
    either filter is a part of the data, and filtering it again with the
    same text gives it back. *)
Theorem Filter_idempotent (text : string) (data res : gmap string row) :
  Filter text data = Some (res, None) \/ FilterRecursive text data = Some (res, None) ->
  res ⊆ data
  /\ (Filter text data = Some (res, None) -> Filter text res = Some (res, None))
  /\ (FilterRecursive text data = Some (res, None) ->
      FilterRecursive text res = Some (res, None)).
Proof.
  unfold Filter, FilterRecursive.
  destruct (Parse text) as [[q [e|]]|];
    [intros [|]; discriminate| |intros [|]; discriminate].
  destruct (negb (query.Type_eqb (query.Type' q) query.Select));
    [intros [|]; discriminate|].
  rewrite !filterRows_filter. intros Hres.
  split; [destruct Hres as [[= <-]|[= <-]]; apply map_filter_subseteq|].
  split; intros [= <-]; do 2 f_equal;
    apply map_eq; intros k; apply option_eq; intros r;
    rewrite !map_lookup_filter_Some; tauto.
Qed.

(** X19.  Adding a record to the data, or replacing the one under its
    key, adds it to the result of [Filter] when it passes every condition
    and removes the key from the result when it does not; the other
    records of the result stay. *)
Theorem Filter_insert (text : string) (data res : gmap string row) (k : string) (r : row) :
  Filter text data = Some (res, None) ->
  exists q, Parse text = Some (q, None)
    /\ Filter text (<[k := r]> data)
       = Some (if checkConditions r (query.Conditions q)
               then <[k := r]> res else delete k res, None).
Proof.
  unfold Filter.
  destruct (Parse text) as [[q [e|]]|]; try discriminate.
  destruct (negb (query.Type_eqb (query.Type' q) query.Select)); [discriminate|].
  intros [= <-]. exists q. split; [reflexivity|]. do 2 f_equal.
  rewrite !filterRows_filter.
  destruct (checkConditions r (query.Conditions q)) eqn:Ec.
  - now rewrite map_filter_insert_True.
  - rewrite map_filter_insert_False by (cbn; rewrite Ec; discriminate).
    now rewrite map_filter_delete.
Qed.

End EvaluatorExtras.

(** ** The evaluators on the sample records *)

Lemma conditions_any_order_witness :
  [cond "status" query.Eq "active"; cond "age" query.Gt "5"]
  ≡ₚ [cond "age" query.Gt "5"; cond "status" query.Eq "active"]
  /\ @checkConditions Std.runtime sampleRow
       [cond "status" query.Eq "active"; cond "age" query.Gt "5"]
     = @checkConditions Std.runtime sampleRow
         [cond "age" query.Gt "5"; cond "status" query.Eq "active"].
Proof.
  assert (H : [cond "status" query.Eq "active"; cond "age" query.Gt "5"]
              ≡ₚ [cond "age" query.Gt "5"; cond "status" query.Eq "active"])
    by apply perm_swap.
  split; [exact H|]. exact (proj1 (@conditions_any_order Std.runtime sampleRow _ _ H)).
Defined.

Lemma in_is_membership_witness :
  @resolved sampleRow (query.mkCondition "id" true query.In "" false ["1"; "3"; "5"])
  = Some (VString "1")
  /\ (@checkCondition Std.runtime sampleRow
        (query.mkCondition "id" true query.In "" false ["1"; "3"; "5"]) = true
      <-> "1" ∈ ["1"; "3"; "5"]).
Proof.
  assert (H : resolved sampleRow
                (query.mkCondition "id" true query.In "" false ["1"; "3"; "5"])
              = Some (VString "1")) by (vm_compute; reflexivity).
  split; [exact H|].
  exact (proj1 (proj1 (@in_is_membership Std.runtime sampleRow _ _ H) eq_refl)).
Defined.


Lemma nested_condition_witness :
  @checkCondition Std.runtime sampleRow (cond "address.zip" query.Eq "10001")
  = @checkCondition Std.runtime
      (list_to_map [("street", VString "123 Main St"); ("zip", VString "10001")])
      (cond "zip" query.Eq "10001")
  /\ @evaluateConditionRecursive Std.runtime sampleRow (cond "address.zip" query.Eq "10001")
     = @evaluateConditionRecursive Std.runtime
         (list_to_map [("street", VString "123 Main St"); ("zip", VString "10001")])
         (cond "zip" query.Eq "10001").
Proof.
  exact (@nested_condition Std.runtime sampleRow "address" "zip"
           (cond "address.zip" query.Eq "10001") eq_refl eq_refl).
Defined.

Lemma Filter_FilterRecursive_agree_witness :
  @Filter Std.runtime "SELECT * FROM t WHERE name LIKE 'J%' AND city = 'New York'"
    sampleData
  = @FilterRecursive Std.runtime
      "SELECT * FROM t WHERE name LIKE 'J%' AND city = 'New York'" sampleData.
Proof.
  apply (@Filter_FilterRecursive_agree Std.runtime).
  intros q k r HP Hd. vm_compute in HP. injection HP as <-.
  unfold sampleData in Hd.
  apply lookup_insert_Some in Hd as [[_ <-]|[_ Hd]];
    [|apply lookup_singleton_Some in Hd as [_ <-]];
    repeat (apply List.Forall_cons; [vm_compute; auto|]); apply List.Forall_nil.
Defined.

Lemma Filter_idempotent_witness :
  @Filter Std.runtime "SELECT * FROM t WHERE city = 'New York'" sampleData
  = Some ({[ "1" := sampleRow ]}, None)
  /\ ({[ "1" := sampleRow ]} : gmap string row) ⊆ sampleData
  /\ @Filter Std.runtime "SELECT * FROM t WHERE city = 'New York'" {[ "1" := sampleRow ]}
     = Some ({[ "1" := sampleRow ]}, None).
Proof.
  assert (H : @Filter Std.runtime "SELECT * FROM t WHERE city = 'New York'" sampleData
              = Some ({[ "1" := sampleRow ]}, None)) by (vm_compute; reflexivity).
  split; [exact H|].
  destruct (@Filter_idempotent Std.runtime _ _ _ (or_introl H)) as (H1 & H2 & _).
  split; [exact H1|exact (H2 H)].
Defined.

Lemma Filter_insert_witness :
  @Filter Std.runtime "SELECT * FROM t WHERE city = 'New York'" sampleData
  = Some ({[ "1" := sampleRow ]}, None)
  /\ exists q,
       Parse "SELECT * FROM t WHERE city = 'New York'" = Some (q, None)
       /\ @Filter Std.runtime "SELECT * FROM t WHERE city = 'New York'"
            (<["3" := sampleRow]> sampleData)
          = Some (if @checkConditions Std.runtime sampleRow (query.Conditions q)
                  then <["3" := sampleRow]> {[ "1" := sampleRow ]}
                  else delete "3" {[ "1" := sampleRow ]}, None).
Proof.
  assert (H : @Filter Std.runtime "SELECT * FROM t WHERE city = 'New York'" sampleData
              = Some ({[ "1" := sampleRow ]}, None)) by (vm_compute; reflexivity).
  split; [exact H|]. exact (@Filter_insert Std.runtime _ _ _ "3" sampleRow H).
Defined.

(** * Further properties of the parser and the renderer *)

(** ** The kind of a rendered query *)

Lemma space2_ink (a b : ascii) : inkByte a = true -> space2 a b = false.
Proof.
  unfold inkByte, ascii7, space2. intros [H _]%andb_prop. apply N.ltb_lt in H.
  destruct (N.eqb_spec (N_of_ascii a) 194) as [E|_]; [lia|reflexivity].
Qed.

Lemma space3_ink_first (a b c : ascii) : inkByte a = true -> space3 a b c = false.
Proof.
  unfold inkByte, ascii7, space3. intros [H _]%andb_prop. apply N.ltb_lt in H.
  destruct (N.eqb_spec (N_of_ascii a) 225) as [E|_]; [lia|].
  destruct (N.eqb_spec (N_of_ascii a) 226) as [E|_]; [lia|].
  destruct (N.eqb_spec (N_of_ascii a) 227) as [E|_]; [lia|]. reflexivity.
Qed.

Lemma space3_ink_second (a b c : ascii) : inkByte b = true -> space3 a b c = false.
Proof.
  unfold inkByte, ascii7, space3. intros [H _]%andb_prop. apply N.ltb_lt in H.
  destruct (N.eqb_spec (N_of_ascii b) 154) as [E|_]; [lia|].
  destruct (N.eqb_spec (N_of_ascii b) 128) as [E|_]; [lia|].
  destruct (N.eqb_spec (N_of_ascii b) 129) as [E|_]; [lia|].
  now rewrite !andb_false_r.
Qed.

(** Trimming from the end stops at a byte that is no white space: of the
    bytes [t] behind it, reversed, some first ones go. *)
Lemma trim_right_rev_stop (fuel : nat) (t : list ascii) (b : ascii) (k : list ascii) :
  inkByte b = true ->
  exists d t', t = (d ++ t')%list
               /\ trim_right_rev fuel (t ++ b :: k)%list = (t' ++ b :: k)%list.
Proof.
  intros Hb. revert t. induction fuel as [|fuel IH]; intros t.
  - exists [], t. split; reflexivity.
  - destruct t as [|a t1].
    + exists [], []. split; [reflexivity|]. now apply trim_right_rev_keep.
    + cbn [trim_right_rev app]. destruct (ascii_space a).
      { destruct (IH t1) as (d & t' & -> & E). exists (a :: d), t'.
        split; [reflexivity|exact E]. }
      destruct t1 as [|b' t2].
      { cbn [app]. rewrite (space2_ink b a Hb).
        exists [], [a]. split; [reflexivity|].
        destruct k as [|c k]; [reflexivity|]. now rewrite (space3_ink_second c b a Hb). }
      cbn [app]. destruct (space2 b' a).
      { destruct (IH t2) as (d & t' & -> & E). exists (a :: b' :: d), t'.
        split; [reflexivity|exact E]. }
      destruct t2 as [|c t3].
      { cbn [app]. rewrite (space3_ink_first b b' a Hb).
        exists [], [a; b']. split; reflexivity. }
      cbn [app]. destruct (space3 c b' a).
      { destruct (IH t3) as (d & t' & -> & E). exists (a :: b' :: c :: d), t'.
        split; [reflexivity|exact E]. }
      exists [], (a :: b' :: c :: t3). split; reflexivity.
Qed.

(** [TrimSpace] keeps a word at the head of a text, when the word begins
    and ends with bytes that are no white space; what it leaves behind the
    word begins as the text did there. *)
Lemma TrimSpace_head (k x : string) (a b : ascii) (l l' : list ascii) :
  list_ascii_of_string k = a :: l -> inkByte a = true ->
  rev (list_ascii_of_string k) = b :: l' -> inkByte b = true ->
  exists x', TrimSpace (k ++ x) = k ++ x'
             /\ (x' = "" \/ exists c y y', x = String c y /\ x' = String c y').
Proof.
  intros E Ha E' Hb. unfold TrimSpace.
  rewrite list_ascii_app, E. cbn [app]. rewrite trim_left_keep by assumption.
  change (a :: (l ++ list_ascii_of_string x)%list)
    with ((a :: l) ++ list_ascii_of_string x)%list.
  rewrite <- E, rev_app_distr, E'.
  destruct (trim_right_rev_stop
              (length (list_ascii_of_string k ++ list_ascii_of_string x)%list)
              (rev (list_ascii_of_string x)) b l' Hb) as (d & t' & Ht & ->).
  rewrite rev_app_distr, <- E', rev_involutive.
  exists (string_of_list_ascii (rev t')). split.
  - rewrite <- (string_of_list_ascii_of_string k) at 2.
    generalize (list_ascii_of_string k) (rev t'). clear.
    induction l as [|c l IH]; intros l'; [reflexivity|].
    cbn [app string_of_list_ascii]. rewrite append_cons. now rewrite IH.
  - apply (f_equal (@rev ascii)) in Ht. rewrite rev_involutive, rev_app_distr in Ht.
    destruct (rev t') as [|c y'] eqn:Et; [now left|]. right.
    destruct x as [|c0 y]; [discriminate|]. cbn [list_ascii_of_string app] in Ht.
    injection Ht as <- Hy. exists c0, y, (string_of_list_ascii y'). split; reflexivity.
Qed.

Lemma typeKeyword_head {rt : Runtime} (q : query.Query) :
  query.Type' q <> query.UnknownType ->
  exists x, Query_String q = typeKeyword (query.Type' q) ++ String " " x.
Proof.
  unfold Query_String. destruct (query.Type' q); [intros H; now contradiction H|..];
    intros _; eexists; cbn [typeKeyword]; reflexivity.
Qed.

Lemma peek_rendered {rt : Runtime} (q : query.Query) :
  query.Type' q <> query.UnknownType ->
  peek (initial (Query_String q)) = typeKeyword (query.Type' q).
Proof.
  intros Hk. destruct (typeKeyword_head q Hk) as (x & ->).
  set (k := typeKeyword (query.Type' q)).
  assert (Hh : exists x', TrimSpace (k ++ String " " x) = k ++ x' /\ tailSep x').
  { assert (H : exists a l b l', list_ascii_of_string k = a :: l /\ inkByte a = true
                  /\ rev (list_ascii_of_string k) = b :: l' /\ inkByte b = true).
    { unfold k. destruct (query.Type' q); [now contradiction Hk|..];
        do 4 eexists; repeat split. }
    destruct H as (a & l & b & l' & E & Ha & E' & Hb).
    destruct (TrimSpace_head k (String " " x) a b l l' E Ha E' Hb) as (x' & Ht & Hx).
    exists x'. split; [exact Ht|].
    destruct Hx as [->|(c & y & y' & [= <- <-] & ->)]; reflexivity. }
  destruct Hh as (x' & Ht & Hx).
  apply (peek_rest (initial (k ++ String " " x)) (k ++ x') k (len k)).
  - cbn [initial i sql]. lia.
  - unfold rest. cbn [initial i sql]. now rewrite from_0.
  - unfold k. destruct (query.Type' q); [now contradiction Hk|..]; cbn [typeKeyword].
    + now apply lex_SELECT.
    + now apply lex_UPDATE.
    + now apply lex_INSERT_INTO.
    + now apply lex_DELETE_FROM.
    + now apply lex_CREATE_TABLE.
Qed.

(** X20.  Rendering a query and parsing the text never changes the kind:
    whenever [Parse] accepts the text that [Query.String] renders from a
    query, whatever its names and values, the query it returns has the
    kind of the one rendered. *)
Theorem Parse_render_kind {rt : Runtime} (q q' : query.Query) :
  Parse (Query_String q) = Some (q', None) -> query.Type' q' = query.Type' q.
Proof.
  intros HP.
  assert (Hk : query.Type' q <> query.UnknownType).
  { intros E. unfold Query_String in HP. rewrite E in HP. vm_compute in HP. discriminate. }
  pose proof (peek_rendered q Hk) as Hpeek. revert HP Hpeek.
  intros (p & Hr & -> & Hv)%Parse_accepted Hpeek.
  destruct (validate_facts p Hv) as (Hk' & _).
  inversion Hr as [p0 E|p0 p1 p0' Hlt Hs Hr1]; subst; [contradiction Hk'; reflexivity|].
  destruct (doStep_Type _ _ Hs) as [H1 H2]. cbn [initial step_] in H2.
  destruct (reaches_Type _ _ Hr1 H1) as [_ Ht]. rewrite <- Ht in H2.
  fold (initial (Query_String q)) in H2. rewrite Hpeek in H2.
  destruct (query.Type' q), (query.Type' (query_ p)); try reflexivity;
    try (now contradiction Hk); try (now contradiction Hk'); vm_compute in H2; discriminate.
Qed.

Lemma Parse_render_kind_witness :
  Parse (@Query_String Std.runtime
           (query.mkQuery query.Delete "t"
              [query.mkCondition "x" true query.Eq "b" false []] ∅ [] [] ∅ ∅))
  = Some (query.mkQuery query.Delete "t"
            [query.mkCondition "x" true query.Eq "b" true []] ∅ [] [] ∅ ∅, None)
  /\ query.Type' (query.mkQuery query.Delete "t"
                    [query.mkCondition "x" true query.Eq "b" true []] ∅ [] [] ∅ ∅)
     = query.Type' (query.mkQuery query.Delete "t"
                      [query.mkCondition "x" true query.Eq "b" false []] ∅ [] [] ∅ ∅).
Proof.
  assert (H : Parse (@Query_String Std.runtime
                       (query.mkQuery query.Delete "t"
                          [query.mkCondition "x" true query.Eq "b" false []] ∅ [] [] ∅ ∅))
              = Some (query.mkQuery query.Delete "t"
                        [query.mkCondition "x" true query.Eq "b" true []] ∅ [] [] ∅ ∅,
                      None)) by (vm_compute; reflexivity).
  split; [exact H|]. exact (@Parse_render_kind Std.runtime _ _ H).
Defined.

(** ** White space around a statement *)

Lemma trim_left_spaces (ws l : list ascii) (fuel : nat) :
  forallb ascii_space ws = true ->
  trim_left (length ws + fuel) (ws ++ l)%list = trim_left fuel l.
Proof.
  induction ws as [|a ws IH]; [reflexivity|].
  cbn [forallb length app Nat.add trim_left]. intros [-> H]%andb_prop. exact (IH H).
Qed.

Lemma trim_right_rev_spaces (ws l : list ascii) (fuel : nat) :
  forallb ascii_space ws = true ->
  trim_right_rev (length ws + fuel) (ws ++ l)%list = trim_right_rev fuel l.
Proof.
  induction ws as [|a ws IH]; [reflexivity|].
  cbn [forallb length app Nat.add trim_right_rev]. intros [-> H]%andb_prop. exact (IH H).
Qed.

Lemma len_list_ascii (s : string) : len s = length (list_ascii_of_string s).
Proof. induction s as [|c s IH]; [reflexivity|]. cbn. unfold len in IH. now rewrite IH. Qed.

Lemma TrimSpace_around (ws ws' : string) (c : ascii) (r : string) :
  forallb ascii_space (list_ascii_of_string ws) = true ->
  forallb ascii_space (list_ascii_of_string ws') = true ->
  inkByte c = true -> lastInk (String c r) = true ->
  TrimSpace (ws ++ String c r ++ ws') = String c r.
Proof.
  intros Hws Hws' Hc Hl. unfold lastInk in Hl.
  destruct (rev (list_ascii_of_string (String c r))) as [|b l'] eqn:E; [discriminate|].
  unfold TrimSpace. rewrite len_list_ascii.
  rewrite !list_ascii_app, length_app.
  rewrite trim_left_spaces by assumption.
  cbn [list_ascii_of_string app]. rewrite trim_left_keep by assumption.
  change (c :: (list_ascii_of_string r ++ list_ascii_of_string ws')%list)
    with (list_ascii_of_string (String c r) ++ list_ascii_of_string ws')%list.
  rewrite rev_app_distr, length_app, Nat.add_comm, <- (length_rev (list_ascii_of_string ws')).
  rewrite trim_right_rev_spaces.
  - rewrite E, trim_right_rev_keep by assumption.
    now rewrite <- E, rev_involutive, string_of_list_ascii_of_string.
  - rewrite forallb_forall in *. intros x Hx. apply Hws'. now apply in_rev.
Qed.

(** X21.  [Parse] does not see the ASCII white space around a statement:
    a text that begins and ends with ASCII bytes that are no white space
    parses the same with spaces, tabs and line ends before and after it. *)
Theorem Parse_ignores_outer_space (ws ws' : string) (c : ascii) (r : string) :
  forallb ascii_space (list_ascii_of_string ws) = true ->
  forallb ascii_space (list_ascii_of_string ws') = true ->
  inkByte c = true -> lastInk (String c r) = true ->
  Parse (ws ++ String c r ++ ws') = Parse (String c r).
Proof.
  intros Hws Hws' Hc Hl.
  assert (E : initial (ws ++ String c r ++ ws') = initial (String c r)).
  { unfold initial.
    rewrite (TrimSpace_around ws ws' c r Hws Hws' Hc Hl).
    now rewrite (TrimSpace_ink c r Hc Hl). }
  rewrite !Parse_parse. unfold parse. now rewrite E.
Qed.

Lemma Parse_ignores_outer_space_witness :
  Parse ("  " ++ "SELECT a FROM t" ++ String (ascii_of_nat 10) " ")
  = Parse "SELECT a FROM t".
Proof.
  apply (Parse_ignores_outer_space "  " (String (ascii_of_nat 10) " ") "S" "ELECT a FROM t");
    reflexivity.
Defined.
